(** * env-x-utils: the coercion of environment variables, the redacting
    serializer and the array helper

    A shallow embedding of [src/lib/utils.ts] ([safeStringify], [safeArray])
    and of [src/lib/env.ts] ([env], the third unnamed source file),
    together with the parts of the host
    language they call: the string methods, [Number], [JSON.parse] and
    [JSON.stringify], written after ECMA-262. *)

From Stdlib Require Import List NArith ZArith Bool Lia String Ascii.
From Stdlib Require DecimalPos DecimalN.
From stdpp Require Import base gmap.
Import ListNotations.

Local Open Scope N_scope.

(** ** Strings

    A JavaScript string is a sequence of UTF-16 code units. *)

Module Str.

Abbreviation jsstring := (list N).

(** The code units of an ASCII literal of the source. *)
Definition u (s : string) : jsstring :=
  List.map N_of_ascii (list_ascii_of_string s).

(** [a === b] on strings *)
Fixpoint eqb (a b : jsstring) : bool :=
  match a, b with
  | [], [] => true
  | x :: a', y :: b' => (x =? y) && eqb a' b'
  | _, _ => false
  end.

(** [s.startsWith(p)] *)
Fixpoint startsWith (s p : jsstring) {struct p} : bool :=
  match p, s with
  | [], _ => true
  | _ :: _, [] => false
  | y :: p', x :: s' => (x =? y) && startsWith s' p'
  end.

(** [s.endsWith(p)] *)
Definition endsWith (s p : jsstring) : bool :=
  startsWith (rev s) (rev p).

(** [s.includes(p)]: [p] occurs at some position of [s]. *)
Fixpoint includes (s p : jsstring) : bool :=
  startsWith s p ||
  match s with
  | [] => false
  | _ :: s' => includes s' p
  end.

(** WhiteSpace and LineTerminator of ECMA-262, the characters removed by
    [trim] and skipped by [Number]. *)
Definition isWhiteSpace (c : N) : bool :=
  (c =? 9) || (c =? 10) || (c =? 11) || (c =? 12) || (c =? 13) ||
  (c =? 32) || (c =? 160) || (c =? 5760) ||
  ((8192 <=? c) && (c <=? 8202)) ||
  (c =? 8232) || (c =? 8233) || (c =? 8239) || (c =? 8287) ||
  (c =? 12288) || (c =? 65279).

Fixpoint trimStart (s : jsstring) : jsstring :=
  match s with
  | [] => []
  | c :: s' => if isWhiteSpace c then trimStart s' else s
  end.

Definition trimEnd (s : jsstring) : jsstring :=
  rev (trimStart (rev s)).

(** [s.trim()] *)
Definition trim (s : jsstring) : jsstring :=
  trimEnd (trimStart s).

(** [s.split(sep)] for a separator of one code unit: the segments
    between the occurrences of [sep], in order; never the empty list. *)
Fixpoint split (s : jsstring) (sep : N) : list jsstring :=
  match s with
  | [] => [[]]
  | c :: s' =>
      if c =? sep then [] :: split s' sep
      else match split s' sep with
           | seg :: segs => (c :: seg) :: segs
           | [] => [[c]]
           end
  end.

(** [segs.join(sep)] *)
Fixpoint join (segs : list jsstring) (sep : jsstring) : jsstring :=
  match segs with
  | [] => []
  | [seg] => seg
  | seg :: segs' => seg ++ sep ++ join segs' sep
  end.

(** [s.toLowerCase()].  The ASCII and Latin-1 capitals are mapped, as are
    the two other characters whose lower case contains an ASCII letter
    (U+212A to k, U+0130 to i followed by U+0307); the mappings of the
    remaining non-ASCII characters are left out, none of them yields an
    ASCII letter. *)
Definition lowerUnit (c : N) : jsstring :=
  if (65 <=? c) && (c <=? 90) then [c + 32]
  else if (192 <=? c) && (c <=? 222) && negb (c =? 215) then [c + 32]
  else if c =? 8490 then [107]
  else if c =? 304 then [105; 775]
  else [c].

Definition toLowerCase (s : jsstring) : jsstring :=
  flat_map lowerUnit s.

Definition isDigit (c : N) : bool := (48 <=? c) && (c <=? 57).

Fixpoint digitsOfUint (d : Decimal.uint) : jsstring :=
  match d with
  | Decimal.Nil => []
  | Decimal.D0 d' => 48 :: digitsOfUint d'
  | Decimal.D1 d' => 49 :: digitsOfUint d'
  | Decimal.D2 d' => 50 :: digitsOfUint d'
  | Decimal.D3 d' => 51 :: digitsOfUint d'
  | Decimal.D4 d' => 52 :: digitsOfUint d'
  | Decimal.D5 d' => 53 :: digitsOfUint d'
  | Decimal.D6 d' => 54 :: digitsOfUint d'
  | Decimal.D7 d' => 55 :: digitsOfUint d'
  | Decimal.D8 d' => 56 :: digitsOfUint d'
  | Decimal.D9 d' => 57 :: digitsOfUint d'
  end.

(** The decimal digits of a natural number, without leading zeros. *)
Definition decimal (n : N) : jsstring := digitsOfUint (N.to_uint n).

(** The value of a string of digits in base [base]; a digit is looked up
    with [digitValue]. *)
Definition digitValue (c : N) : N :=
  if isDigit c then c - 48
  else if (97 <=? c) && (c <=? 102) then c - 87
  else c - 55.

Definition valueOfDigits (base : N) (ds : jsstring) : N :=
  fold_left (fun acc c => acc * base + digitValue c) ds 0.

(** The longest prefix whose code units satisfy [p], and the rest. *)
Fixpoint span (p : N -> bool) (s : jsstring) : jsstring * jsstring :=
  match s with
  | [] => ([], [])
  | c :: s' =>
      if p c then let (a, b) := span p s' in (c :: a, b) else ([], s)
  end.

End Str.
Import Str.

(** ** Values

    The values the functions receive and return: the primitives of the
    seven types, arrays, ordinary objects and functions.  An object is the
    list of its own enumerable string-keyed properties in enumeration
    order, all of them data properties, and it inherits from
    [Object.prototype]; a value is a finite tree, so that no object graph
    has a cycle.  A function is known by its name only: nothing in this
    model calls a function value, and where the host would call one (the
    [toJSON] method of an object that is serialized) the model gives no
    result. *)

(** A Number is [NaN], an infinity, or the finite value
    [(-1)^negative * digits * 10^exponent]; the rounding of that value to
    an IEEE-754 double is not modelled. *)
Inductive number :=
| NaN
| Infinity (negative : bool)
| Finite (negative : bool) (digits : N) (exponent : Z).

#[warnings="-register-all"]
Inductive jsvalue :=
| VUndefined
| VNull
| VBool (b : bool)
| VNumber (n : number)
| VString (s : jsstring)
| VArray (elements : list jsvalue)
| VObject (properties : list (jsstring * jsvalue))
| VFunction (name : jsstring)
| VSymbol (description : jsstring)
| VBigInt (z : Z).

Inductive error :=
| Error (message : jsstring)
| SyntaxError (message : jsstring)
| TypeError (message : jsstring).

(** The completion of a call: a returned value or a thrown exception. *)
Inductive completion (A : Type) :=
| Return (a : A)
| Throw (e : error).
Arguments Return {A} a.
Arguments Throw {A} e.

(** [try { body } catch (error) { handler }] *)
Definition try_catch {A} (body : completion A) (handler : error -> completion A)
  : completion A :=
  match body with
  | Return a => Return a
  | Throw e => handler e
  end.

Definition isEmpty (s : jsstring) : bool :=
  match s with [] => true | _ => false end.

(** [IsCallable(v)] *)
Definition isCallable (v : jsvalue) : bool :=
  match v with VFunction _ => true | _ => false end.

(** The nesting depth of a value. *)
Fixpoint height (v : jsvalue) : nat :=
  match v with
  | VArray elements =>
      S (fold_right (fun x acc => Nat.max (height x) acc) 0%nat elements)
  | VObject properties =>
      S (fold_right (fun p acc => Nat.max (height (snd p)) acc) 0%nat properties)
  | _ => 0%nat
  end.

(** ** Numbers *)

Module Num.

Definition zero : number := Finite false 0 0.

(** [n] trailing zeros at most are removed from the reversed digits [ds];
    the result and the number of zeros that could not be removed. *)
Fixpoint dropZeros (n : nat) (ds : jsstring) : jsstring * nat :=
  match n, ds with
  | S n', c :: ds' => if c =? 48 then dropZeros n' ds' else (ds, n)
  | _, _ => (ds, n)
  end.

(** The number written with the digits [ds] and scaled by [10^e], with a
    non-positive exponent that is as close to zero as the value allows. *)
Definition ofDecimal (negative : bool) (ds : jsstring) (e : Z) : number :=
  if (0 <=? e)%Z then
    Finite negative (valueOfDigits 10 ds * 10 ^ Z.to_N e) 0
  else
    let (rds, left) := dropZeros (Z.to_nat (- e)) (rev ds) in
    let m := valueOfDigits 10 (rev rds) in
    if m =? 0 then Finite negative 0 0
    else Finite negative m (- Z.of_nat left).

Definition ofN (n : N) : number := Finite false n 0.

(** ExponentPart of a numeric literal, or nothing: the exponent. *)
Definition exponentPart (s : jsstring) : option Z :=
  match s with
  | [] => Some 0%Z
  | c :: r =>
      if (c =? 101) || (c =? 69) then
        let '(neg, ds) :=
          match r with
          | d :: r' =>
              if d =? 43 then (false, r')
              else if d =? 45 then (true, r')
              else (false, r)
          | [] => (false, [])
          end in
        if negb (isEmpty ds) && forallb isDigit ds then
          let n := Z.of_N (valueOfDigits 10 ds) in
          Some (if neg then (- n)%Z else n)
        else None
      else None
  end.

(** StrUnsignedDecimalLiteral: [Infinity], [digits . digits? exp?],
    [. digits exp?] or [digits exp?]. *)
Definition strUnsignedDecimal (negative : bool) (s : jsstring) : option number :=
  if eqb s (u "Infinity") then Some (Infinity negative)
  else
    let (ip, r1) := span isDigit s in
    let (fp, r2) :=
      match r1 with
      | c :: r => if c =? 46 then span isDigit r else ([], r1)
      | [] => ([], [])
      end in
    if isEmpty ip && isEmpty fp then None
    else
      match exponentPart r2 with
      | Some ex =>
          Some (ofDecimal negative (ip ++ fp) (ex - Z.of_nat (length fp)))
      | None => None
      end.

Definition isHexDigit (c : N) : bool :=
  isDigit c || ((97 <=? c) && (c <=? 102)) || ((65 <=? c) && (c <=? 70)).
Definition isOctalDigit (c : N) : bool := (48 <=? c) && (c <=? 55).
Definition isBinaryDigit (c : N) : bool := (c =? 48) || (c =? 49).

(** NonDecimalIntegerLiteral: [0x], [0o] or [0b] and digits of that base. *)
Definition strNonDecimal (s : jsstring) : option (option number) :=
  match s with
  | z :: x :: ds =>
      if z =? 48 then
        let lit (ok : N -> bool) (base : N) :=
          Some (if negb (isEmpty ds) && forallb ok ds
                then Some (ofN (valueOfDigits base ds)) else None) in
        if (x =? 120) || (x =? 88) then lit isHexDigit 16
        else if (x =? 111) || (x =? 79) then lit isOctalDigit 8
        else if (x =? 98) || (x =? 66) then lit isBinaryDigit 2
        else None
      else None
  | _ => None
  end.

(** [Number(s)] on a string (StringToNumber): white space is trimmed, the
    empty string is [0], and what is not a StrNumericLiteral is [NaN]. *)
Definition Number (s : jsstring) : number :=
  let t := trim s in
  if isEmpty t then zero
  else
    match strNonDecimal t with
    | Some (Some n) => n
    | Some None => NaN
    | None =>
        let r :=
          match t with
          | c :: t' =>
              if c =? 43 then strUnsignedDecimal false t'
              else if c =? 45 then strUnsignedDecimal true t'
              else strUnsignedDecimal false t
          | [] => None
          end in
        match r with
        | Some n => n
        | None => NaN
        end
    end.

(** [isNaN(x)] on a Number *)
Definition isNaN (x : number) : bool :=
  match x with NaN => true | _ => false end.

Definition isFinite (x : number) : bool :=
  match x with Finite _ _ _ => true | _ => false end.

Fixpoint stripZeros (rds : jsstring) : jsstring :=
  match rds with
  | c :: rds' => if c =? 48 then stripZeros rds' else rds
  | [] => []
  end.

(** [Number::toString(x)] in base 10: with [k] significant digits [ds]
    and the decimal point after the [n]-th of them. *)
Definition toString (x : number) : jsstring :=
  match x with
  | NaN => u "NaN"
  | Infinity negative => (if negative then u "-" else []) ++ u "Infinity"
  | Finite negative m e =>
      if m =? 0 then u "0"
      else
        let all := decimal m in
        let ds := rev (stripZeros (rev all)) in
        let k := Z.of_nat (length ds) in
        let n := (e + Z.of_nat (length all))%Z in
        let sign := if negative then u "-" else [] in
        let body :=
          if ((k <=? n) && (n <=? 21))%Z then
            ds ++ repeat 48 (Z.to_nat (n - k))
          else if ((0 <? n) && (n <=? 21))%Z then
            firstn (Z.to_nat n) ds ++ u "." ++ skipn (Z.to_nat n) ds
          else if ((-6 <? n) && (n <=? 0))%Z then
            u "0." ++ repeat 48 (Z.to_nat (- n)) ++ ds
          else
            let ex := (n - 1)%Z in
            let exs := (if (ex <? 0)%Z then u "-" else u "+")
                       ++ decimal (Z.to_N (Z.abs ex)) in
            match ds with
            | [d] => [d] ++ u "e" ++ exs
            | d :: rest => [d] ++ u "." ++ rest ++ u "e" ++ exs
            | [] => []
            end in
        sign ++ body
  end.

End Num.

(** ** JSON.stringify (ECMA-262, 25.5.2) *)

Module JSON.

Definition hexDigit (d : N) : N := if d <? 10 then 48 + d else 87 + d.

(** UnicodeEscape: [\uXXXX] with lower-case hexadecimal digits. *)
Definition unicodeEscape (c : N) : jsstring :=
  u "\u" ++ [hexDigit (c / 4096 mod 16); hexDigit (c / 256 mod 16);
            hexDigit (c / 16 mod 16); hexDigit (c mod 16)].

Definition isLeadingSurrogate (c : N) : bool := (55296 <=? c) && (c <=? 56319).
Definition isTrailingSurrogate (c : N) : bool := (56320 <=? c) && (c <=? 57343).

(** The text of one code unit inside a quoted string. *)
Definition quoteUnit (c : N) : jsstring :=
  if c =? 8 then u "\b"
  else if c =? 9 then u "\t"
  else if c =? 10 then u "\n"
  else if c =? 12 then u "\f"
  else if c =? 13 then u "\r"
  else if c =? 34 then [92; 34]
  else if c =? 92 then [92; 92]
  else if (c <? 32) || isLeadingSurrogate c || isTrailingSurrogate c
  then unicodeEscape c
  else [c].

(** A leading surrogate followed by a trailing one is a code point and
    is kept; a lone surrogate is escaped. *)
Fixpoint quoteUnits (s : jsstring) : jsstring :=
  match s with
  | [] => []
  | c :: s' =>
      if isLeadingSurrogate c then
        match s' with
        | d :: s'' =>
            if isTrailingSurrogate d then c :: d :: quoteUnits s''
            else quoteUnit c ++ quoteUnits s'
        | [] => quoteUnit c
        end
      else quoteUnit c ++ quoteUnits s'
  end.

(** QuoteJSONString *)
Definition QuoteJSONString (s : jsstring) : jsstring :=
  [34] ++ quoteUnits s ++ [34].

(** The serialization of a property is a string or [undefined] ([None]). *)
Definition serialized := option jsstring.

(** A step of the serializer returns, throws, or has no result in this
    model ([None]): the fuel of the recursion has run out, or a [toJSON]
    method would be called. *)
Definition outcome (A : Type) := option (completion A).

Definition andThen {A B : Type} (r : outcome A) (f : A -> outcome B)
  : outcome B :=
  match r with
  | Some (Return a) => f a
  | Some (Throw e) => Some (Throw e)
  | None => None
  end.

(** [IsCallable(GetV(value, "toJSON"))] for an object: it has a property
    [toJSON] that is a function.  Arrays, functions and BigInts inherit no
    such method. *)
Definition hasToJSON (value : jsvalue) : bool :=
  match value with
  | VObject properties =>
      existsb (fun p => eqb (fst p) (u "toJSON") && isCallable (snd p))
        properties
  | _ => false
  end.

Definition bigIntError : error :=
  TypeError (u "Do not know how to serialize a BigInt").

Section Serialize.

(** The state of a call of [JSON.stringify]: the replacer function, if
    any, called with the key and the value of each property (its [this],
    the holder, is not used by the replacer of this library), and the
    gap.  [rec] serializes the properties of the next level. *)
Variable ReplacerFunction : option (jsstring -> jsvalue -> jsvalue).
Variable gap : jsstring.
Variable rec : jsstring -> jsstring -> jsvalue -> outcome serialized.

(** The text of an object or an array from the texts of its members. *)
Definition wrap (opening closing stepback indent : jsstring)
    (partial : list jsstring) : jsstring :=
  if match partial with [] => true | _ => false end then opening ++ closing
  else if isEmpty gap then
    opening ++ join partial (u ",") ++ closing
  else
    let separator := u "," ++ [10] ++ indent in
    opening ++ [10] ++ indent ++ join partial separator
      ++ [10] ++ stepback ++ closing.

(** The members of an object, in order: properties serialized to
    [undefined] are skipped. *)
Fixpoint members (indent : jsstring) (K : list (jsstring * jsvalue))
  : outcome (list jsstring) :=
  match K with
  | [] => Some (Return [])
  | (P, v) :: K' =>
      andThen (rec indent P v) (fun strP =>
      andThen (members indent K') (fun partial =>
      Some (Return
              match strP with
              | Some str =>
                  (QuoteJSONString P ++ u ":"
                     ++ (if isEmpty gap then [] else u " ") ++ str)
                    :: partial
              | None => partial
              end)))
  end.

(** SerializeJSONObject *)
Definition SerializeJSONObject (indent : jsstring)
    (properties : list (jsstring * jsvalue)) : outcome jsstring :=
  let stepback := indent in
  let indent := indent ++ gap in
  andThen (members indent properties) (fun partial =>
  Some (Return (wrap (u "{") (u "}") stepback indent partial))).

(** The elements of an array from index [index] on: an element
    serialized to [undefined] is written [null]. *)
Fixpoint items (indent : jsstring) (index : N) (elements : list jsvalue)
  : outcome (list jsstring) :=
  match elements with
  | [] => Some (Return [])
  | v :: elements' =>
      andThen (rec indent (decimal index) v) (fun strP =>
      andThen (items indent (index + 1) elements') (fun partial =>
      Some (Return
              (match strP with
               | Some str => str
               | None => u "null"
               end :: partial))))
  end.

(** SerializeJSONArray *)
Definition SerializeJSONArray (indent : jsstring) (elements : list jsvalue)
  : outcome jsstring :=
  let stepback := indent in
  let indent := indent ++ gap in
  andThen (items indent 0 elements) (fun partial =>
  Some (Return (wrap (u "[") (u "]") stepback indent partial))).

(** SerializeJSONProperty, after the property [key] of the holder has
    been read as [value]: the [toJSON] method of [value], if it has one,
    would be called first, then the replacer; a function or a symbol is
    serialized to [undefined], and a BigInt throws. *)
Definition serializeValue (indent key : jsstring) (value : jsvalue)
  : outcome serialized :=
  if hasToJSON value then None
  else
    let value :=
      match ReplacerFunction with
      | Some f => f key value
      | None => value
      end in
    match value with
    | VNull => Some (Return (Some (u "null")))
    | VBool true => Some (Return (Some (u "true")))
    | VBool false => Some (Return (Some (u "false")))
    | VString s => Some (Return (Some (QuoteJSONString s)))
    | VNumber n =>
        Some (Return (Some (if Num.isFinite n then Num.toString n
                            else u "null")))
    | VBigInt _ => Some (Throw bigIntError)
    | VArray elements =>
        andThen (SerializeJSONArray indent elements) (fun str =>
        Some (Return (Some str)))
    | VObject properties =>
        andThen (SerializeJSONObject indent properties) (fun str =>
        Some (Return (Some str)))
    | VUndefined | VFunction _ | VSymbol _ => Some (Return None)
    end.

End Serialize.

(** SerializeJSONProperty.  A replacer may return a larger value than it
    was given, so the recursion is bounded by [fuel]: [None] when it runs
    out. *)
Fixpoint SerializeJSONProperty (ReplacerFunction : option (jsstring -> jsvalue -> jsvalue))
    (gap : jsstring) (fuel : nat) (indent key : jsstring) (value : jsvalue)
  : outcome serialized :=
  match fuel with
  | O => None
  | S fuel' =>
      serializeValue ReplacerFunction gap
        (SerializeJSONProperty ReplacerFunction gap fuel') indent key value
  end.

(** [JSON.stringify(value, replacer, space)] with a function or no
    replacer and a numeric [space]: the gap is [space] spaces, ten at
    most, and the value is serialized as the property of a wrapper
    object under the empty key.  The result is a string or [undefined]. *)
Definition stringify (fuel : nat) (value0 : jsvalue)
    (replacer : option (jsstring -> jsvalue -> jsvalue)) (space : N)
  : outcome jsvalue :=
  let gap := repeat 32 (N.to_nat (N.min 10 space)) in
  andThen (SerializeJSONProperty replacer gap fuel [] [] value0) (fun str =>
  Some (Return match str with
               | Some str => VString str
               | None => VUndefined
               end)).

(** *** JSON.parse (ECMA-262, 25.5.1, without reviver) *)

Inductive token :=
| TLBrace | TRBrace | TLBracket | TRBracket | TColon | TComma
| TString (s : jsstring)
| TNumber (n : number)
| TTrue | TFalse | TNull.

(** A JSON number: [-? (0 | [1-9] digits) (. digits+)? exp?]. *)
Definition jsonNumber (w : jsstring) : option number :=
  let '(neg, r) :=
    match w with
    | c :: r => if c =? 45 then (true, r) else (false, w)
    | [] => (false, [])
    end in
  let (ip, r1) := span isDigit r in
  let intOk :=
    match ip with
    | [] => false
    | [_] => true
    | d :: _ => negb (d =? 48)
    end in
  let frac :=
    match r1 with
    | c :: r' =>
        if c =? 46 then
          let (fp, r2) := span isDigit r' in
          if isEmpty fp then None else Some (fp, r2)
        else Some ([], r1)
    | [] => Some ([], [])
    end in
  match intOk, frac with
  | true, Some (fp, r2) =>
      match Num.exponentPart r2 with
      | Some ex =>
          Some (Num.ofDecimal neg (ip ++ fp) (ex - Z.of_nat (length fp)))
      | None => None
      end
  | _, _ => None
  end.

(** A maximal run of letters, digits, signs and points is one literal
    name or one number. *)
Definition isWordUnit (c : N) : bool :=
  isDigit c || (c =? 45) || (c =? 43) || (c =? 46)
  || ((97 <=? c) && (c <=? 122)) || ((65 <=? c) && (c <=? 90)).

Definition wordToken (w : jsstring) : option token :=
  if eqb w (u "true") then Some TTrue
  else if eqb w (u "false") then Some TFalse
  else if eqb w (u "null") then Some TNull
  else option_map TNumber (jsonNumber w).

(** The lexer reads one code unit at a time; the strings it accumulates
    are reversed. *)
Inductive lexState :=
| LStart
| LString (acc : jsstring)
| LEscape (acc : jsstring)
| LUnicode (acc : jsstring) (hex : jsstring)
| LWord (acc : jsstring).

Definition isJSONWhiteSpace (c : N) : bool :=
  (c =? 9) || (c =? 10) || (c =? 13) || (c =? 32).

Definition lexStart (c : N) (out : list token) : option (lexState * list token) :=
  if isJSONWhiteSpace c then Some (LStart, out)
  else if c =? 123 then Some (LStart, TLBrace :: out)
  else if c =? 125 then Some (LStart, TRBrace :: out)
  else if c =? 91 then Some (LStart, TLBracket :: out)
  else if c =? 93 then Some (LStart, TRBracket :: out)
  else if c =? 58 then Some (LStart, TColon :: out)
  else if c =? 44 then Some (LStart, TComma :: out)
  else if c =? 34 then Some (LString [], out)
  else if isWordUnit c then Some (LWord [c], out)
  else None.

Definition escapedUnit (c : N) : option N :=
  if (c =? 34) || (c =? 92) || (c =? 47) then Some c
  else if c =? 98 then Some 8
  else if c =? 102 then Some 12
  else if c =? 110 then Some 10
  else if c =? 114 then Some 13
  else if c =? 116 then Some 9
  else None.

Definition lexStep (st : lexState) (c : N) (out : list token)
  : option (lexState * list token) :=
  match st with
  | LStart => lexStart c out
  | LString acc =>
      if c =? 34 then Some (LStart, TString (rev acc) :: out)
      else if c =? 92 then Some (LEscape acc, out)
      else if c <? 32 then None
      else Some (LString (c :: acc), out)
  | LEscape acc =>
      if c =? 117 then Some (LUnicode acc [], out)
      else match escapedUnit c with
           | Some d => Some (LString (d :: acc), out)
           | None => None
           end
  | LUnicode acc hex =>
      if Num.isHexDigit c then
        if (length hex =? 3)%nat
        then Some (LString (valueOfDigits 16 (rev (c :: hex)) :: acc), out)
        else Some (LUnicode acc (c :: hex), out)
      else None
  | LWord acc =>
      if isWordUnit c then Some (LWord (c :: acc), out)
      else match wordToken (rev acc) with
           | Some t => lexStart c (t :: out)
           | None => None
           end
  end.

Fixpoint lex (st : lexState) (input : jsstring) (out : list token)
  : option (list token) :=
  match input with
  | [] =>
      match st with
      | LStart => Some (rev out)
      | LWord acc => option_map (fun t => rev (t :: out)) (wordToken (rev acc))
      | _ => None
      end
  | c :: input' =>
      match lexStep st c out with
      | Some (st', out') => lex st' input' out'
      | None => None
      end
  end.

(** An array index: the canonical decimal string of an integer below
    [2^32 - 1]. *)
Definition isArrayIndex (k : jsstring) : bool :=
  negb (isEmpty k) && forallb isDigit k
  && eqb (decimal (valueOfDigits 10 k)) k
  && (valueOfDigits 10 k <? 4294967295).

Fixpoint hasProperty (ps : list (jsstring * jsvalue)) (k : jsstring) : bool :=
  match ps with
  | [] => false
  | (k', _) :: ps' => eqb k' k || hasProperty ps' k
  end.

Fixpoint replaceProperty (ps : list (jsstring * jsvalue)) (k : jsstring)
    (v : jsvalue) : list (jsstring * jsvalue) :=
  match ps with
  | [] => []
  | (k', v') :: ps' =>
      if eqb k' k then (k', v) :: ps' else (k', v') :: replaceProperty ps' k v
  end.

Fixpoint insertIndex (ps : list (jsstring * jsvalue)) (k : jsstring)
    (v : jsvalue) : list (jsstring * jsvalue) :=
  match ps with
  | [] => [(k, v)]
  | (k', v') :: ps' =>
      if isArrayIndex k' && (valueOfDigits 10 k' <? valueOfDigits 10 k)
      then (k', v') :: insertIndex ps' k v
      else (k, v) :: ps
  end.

(** CreateDataProperty on an ordinary object: an existing property keeps
    its place; a new one is enumerated after the others, array indices
    first and in ascending order. *)
Definition CreateDataProperty (ps : list (jsstring * jsvalue)) (k : jsstring)
    (v : jsvalue) : list (jsstring * jsvalue) :=
  if hasProperty ps k then replaceProperty ps k v
  else if isArrayIndex k then insertIndex ps k v
  else ps ++ [(k, v)].

(** The parser keeps the arrays and objects under construction on a
    stack; the elements of an array frame are reversed. *)
Inductive frame :=
| FArray (elements : list jsvalue)
| FObject (properties : list (jsstring * jsvalue)) (key : jsstring).

Inductive parseState :=
| PValue (mayClose : bool)
| PKey (mayClose : bool)
| PColon
| PAfter
| PDone (v : jsvalue).

Definition complete (v : jsvalue) (stack : list frame)
  : parseState * list frame :=
  match stack with
  | [] => (PDone v, [])
  | FArray es :: stack' => (PAfter, FArray (v :: es) :: stack')
  | FObject ps k :: stack' =>
      (PAfter, FObject (CreateDataProperty ps k v) k :: stack')
  end.

Definition close (stack : list frame) : option (parseState * list frame) :=
  match stack with
  | [] => None
  | FArray es :: stack' => Some (complete (VArray (rev es)) stack')
  | FObject ps _ :: stack' => Some (complete (VObject ps) stack')
  end.

Definition parseStep (st : parseState) (stack : list frame) (t : token)
  : option (parseState * list frame) :=
  match st with
  | PValue mayClose =>
      match t with
      | TString s => Some (complete (VString s) stack)
      | TNumber n => Some (complete (VNumber n) stack)
      | TTrue => Some (complete (VBool true) stack)
      | TFalse => Some (complete (VBool false) stack)
      | TNull => Some (complete VNull stack)
      | TLBrace => Some (PKey true, FObject [] [] :: stack)
      | TLBracket => Some (PValue true, FArray [] :: stack)
      | TRBracket => if mayClose then close stack else None
      | _ => None
      end
  | PKey mayClose =>
      match t, stack with
      | TString k, FObject ps _ :: stack' => Some (PColon, FObject ps k :: stack')
      | TRBrace, _ => if mayClose then close stack else None
      | _, _ => None
      end
  | PColon =>
      match t with
      | TColon => Some (PValue false, stack)
      | _ => None
      end
  | PAfter =>
      match stack, t with
      | FArray _ :: _, TComma => Some (PValue false, stack)
      | FArray _ :: _, TRBracket => close stack
      | FObject _ _ :: _, TComma => Some (PKey false, stack)
      | FObject _ _ :: _, TRBrace => close stack
      | _, _ => None
      end
  | PDone _ => None
  end.

Fixpoint parseTokens (st : parseState) (stack : list frame)
    (ts : list token) : option jsvalue :=
  match ts with
  | [] => match st with PDone v => Some v | _ => None end
  | t :: ts' =>
      match parseStep st stack t with
      | Some (st', stack') => parseTokens st' stack' ts'
      | None => None
      end
  end.

(** [JSON.parse(text)]: the value of a JSON text, a SyntaxError on
    anything else. *)
Definition parse (text : jsstring) : completion jsvalue :=
  match lex LStart text [] with
  | Some ts =>
      match parseTokens (PValue false) [] ts with
      | Some v => Return v
      | None => Throw (SyntaxError (u "Unexpected token in JSON"))
      end
  | None => Throw (SyntaxError (u "Unexpected token in JSON"))
  end.

End JSON.


(** ** Operators of the language *)

(** [typeof v] *)
Definition typeof (v : jsvalue) : jsstring :=
  match v with
  | VUndefined => u "undefined"
  | VBool _ => u "boolean"
  | VNumber _ => u "number"
  | VString _ => u "string"
  | VNull | VArray _ | VObject _ => u "object"
  | VFunction _ => u "function"
  | VSymbol _ => u "symbol"
  | VBigInt _ => u "bigint"
  end.

(** [Array.isArray(v)] *)
Definition isArray (v : jsvalue) : bool :=
  match v with VArray _ => true | _ => false end.

Definition isUndefined (v : jsvalue) : bool :=
  match v with VUndefined => true | _ => false end.

Definition isNull (v : jsvalue) : bool :=
  match v with VNull => true | _ => false end.

(** [v === s] for a string [s] *)
Definition isString (v : jsvalue) (s : jsstring) : bool :=
  match v with VString s' => eqb s' s | _ => false end.

(** Statements of a function body: a statement returns a value
    ([Some v]), completes normally ([None]) or throws. *)
Definition statement := completion (option jsvalue).

Definition skip : statement := Return None.

(** [return e;] where evaluating [e] may throw *)
Definition return_ (e : completion jsvalue) : statement :=
  match e with
  | Return v => Return (Some v)
  | Throw err => Throw err
  end.

(** [s1; s2] *)
Definition seq (s1 s2 : statement) : statement :=
  match s1 with
  | Return None => s2
  | _ => s1
  end.

(** [if (c) s] *)
Definition when (c : bool) (s : statement) : statement :=
  if c then s else skip.

(** The completion of a function whose body is [s] followed by
    [return last;]. *)
Definition body (s : statement) (last : jsvalue) : completion jsvalue :=
  match s with
  | Return (Some v) => Return v
  | Return None => Return last
  | Throw err => Throw err
  end.

Declare Scope stmt_scope.
Delimit Scope stmt_scope with stmt.
Notation "s1 ;; s2" := (seq s1 s2)
  (at level 100, s2 at level 200, right associativity) : stmt_scope.

(** ** src/lib/utils.ts *)

Definition REDACTED : jsstring := u "[REDACTED]".

(** The replacer that [safeStringify] passes to [JSON.stringify] (lines
    92 to 101) and its condition (lines 94 to 96).  [redactedWord] is
    [undefined] or a string when the replacer runs: the validation has
    thrown on every other value. *)
Definition sensitiveKey (redactedWord : jsvalue) (key : jsstring) : bool :=
  includes key (u "SECRET")
  || includes key (u "PASSWORD")
  || match redactedWord with
     | VString w => negb (isEmpty w) && includes key w
     | _ => false
     end.

Definition replacer (redactedWord : jsvalue) (key : jsstring) (value : jsvalue)
  : jsvalue :=
  if sensitiveKey redactedWord key then VString REDACTED else value.

(** The validation of [redactedWord] (lines 83 to 86) *)
Definition invalidRedactedWord (redactedWord : jsvalue) : bool :=
  negb (isUndefined redactedWord)
  && (negb (eqb (typeof redactedWord) (u "string"))
      || match redactedWord with
         | VString w => eqb (trim w) (u "")
         | _ => false
         end).

Definition invalidArgument : error :=
  Error (u "redactedWord must be a non-empty string").

(** [safeStringify(obj, redactedWord)]; an omitted [redactedWord] is
    [undefined].  [None] where [JSON.stringify] has no result. *)
Definition safeStringify (fuel : nat) (obj : jsvalue) (redactedWord : jsvalue)
  : option (completion jsvalue) :=
  if invalidRedactedWord redactedWord then Some (Throw invalidArgument)
  else JSON.stringify fuel obj (Some (replacer redactedWord)) 2.

(** [safeArray(args)]; the array it returns is a value [VArray]. *)
Definition safeArray (args : jsvalue) : completion jsvalue :=
  body
    (when (isUndefined args || isNull args)
       (return_ (Return (VArray []))) ;;
     when (isArray args)
       (return_ (Return args)) ;;
     match args with
     | VString str =>
         let trimmedStr := trim str in
         when (eqb trimmedStr (u ""))
           (return_ (Return (VArray []))) ;;
         when (includes trimmedStr (u ","))
           (let items :=
              List.filter (fun item => negb (eqb item (u "")))
                (List.map (fun item => trim item) (split trimmedStr 44)) in
            return_ (Return (if (0 <? length items)%nat
                             then VArray (List.map VString items)
                             else VArray []))) ;;
         return_ (Return (VArray [VString trimmedStr]))
     | _ => skip
     end ;;
     when (eqb (typeof args) (u "object"))
       (return_
          (try_catch (Return (VArray [args]))
             (fun error =>
                Return (VArray [VString (u "[Unprocessable object: "
                                           ++ typeof args ++ u "]")])))))%stmt
    (VArray [args]).

(** ** src/lib/env.ts *)

(** What an object inherits from [Object.prototype]: the methods, each
    with the name of the function, and the accessor [__proto__], whose
    value on an ordinary object is [Object.prototype] itself, an object
    without an enumerable property. *)
Module ObjectPrototype.

Definition methods : list (jsstring * jsstring) :=
  [(u "constructor", u "Object");
   (u "hasOwnProperty", u "hasOwnProperty");
   (u "isPrototypeOf", u "isPrototypeOf");
   (u "propertyIsEnumerable", u "propertyIsEnumerable");
   (u "toLocaleString", u "toLocaleString");
   (u "toString", u "toString");
   (u "valueOf", u "valueOf");
   (u "__defineGetter__", u "__defineGetter__");
   (u "__defineSetter__", u "__defineSetter__");
   (u "__lookupGetter__", u "__lookupGetter__");
   (u "__lookupSetter__", u "__lookupSetter__")].

Definition members : list (jsstring * jsvalue) :=
  List.map (fun m => (fst m, VFunction (snd m))) methods
    ++ [(u "__proto__", VObject [])].

(** [Get] of a property that the object does not have itself *)
Fixpoint lookup (ms : list (jsstring * jsvalue)) (key : jsstring) : jsvalue :=
  match ms with
  | [] => VUndefined
  | (k, v) :: ms' => if eqb k key then v else lookup ms' key
  end.

Definition get (key : jsstring) : jsvalue := lookup members key.

End ObjectPrototype.

(** [process.env[key]]: the value of the variable, a string; without
    such a variable, what [process.env] inherits under that name, or
    [undefined]. *)
Definition lookupEnv (process_env : gmap jsstring jsstring) (key : jsstring)
  : jsvalue :=
  match process_env !! key with
  | Some s => VString s
  | None => ObjectPrototype.get key
  end.

(** [Object.keys(v).length] *)
Definition keysLength (v : jsvalue) : nat :=
  match v with
  | VObject properties => length properties
  | VArray elements => length elements
  | VString s => length s
  | _ => 0%nat
  end.

(** The condition of lines 288 to 291: the value looks like a JSON object
    or array. *)
Definition looksLikeJSON (s : jsstring) : bool :=
  (startsWith s (u "{") && endsWith s (u "}"))
  || (startsWith s (u "[") && endsWith s (u "]")).

(** The [try] block of [env] (lines 285 to 317) *)
Definition envTry (value defaultValue : jsvalue) : statement :=
  (match value with
   | VString s =>
       when (looksLikeJSON s)
         (return_ (JSON.parse s)) ;;
       when (eqb (toLowerCase s) (u "true"))
         (return_ (Return (VBool true))) ;;
       when (eqb (toLowerCase s) (u "false"))
         (return_ (Return (VBool false))) ;;
       when (negb (Num.isNaN (Num.Number s)))
         (return_ (Return (VNumber (Num.Number s))))
   | _ => skip
   end ;;
   when (isArray value)
     (return_ (safeArray value)) ;;
   when (eqb (typeof value) (u "object"))
     (when (isNull value) (return_ (Return defaultValue)) ;;
      when (0 <? keysLength value)%nat (return_ (Return value)) ;;
      return_ (Return defaultValue)))%stmt.

(** [env(key, defaultValue)] reading [process.env]; an omitted
    [defaultValue] is [undefined].  The [catch] clause also writes the
    error to the console. *)
Definition env (process_env : gmap jsstring jsstring) (key : jsstring)
    (defaultValue : jsvalue) : completion jsvalue :=
  if isEmpty key then Return defaultValue
  else
    let value := lookupEnv process_env key in
    if isUndefined value || isString value (u "") then Return defaultValue
    else
      body
        (try_catch (envTry value defaultValue)
           (fun error => return_ (Return defaultValue)))
        value.

(** ** The other functions of src/lib/utils.ts *)

(** [isBoolean(value)] (lines 24 to 37) *)
Definition isBoolean (value : jsvalue) : completion jsvalue :=
  body
    (try_catch
       (match value with
        | VBool b => return_ (Return (VBool b))
        | _ => skip
        end ;;
        match value with
        | VString s => return_ (Return (VBool (eqb (toLowerCase s) (u "true"))))
        | _ => skip
        end)%stmt
       (fun err => return_ (Return (VBool false))))
    (VBool false).

(** ** The other functions of src/lib/env.ts *)

(** The global objects that the module reads: [process.env], [window]
    with the value of [window.location?.hostname] ([None] where it is
    [undefined]), if [window] is defined, and whether [document] is
    defined. *)
Record globals := {
  processEnv : gmap jsstring jsstring;
  window : option (option jsstring);
  document : bool
}.

Module ENV.
Definition Development : jsstring := u "development".
Definition Production : jsstring := u "production".
Definition Test : jsstring := u "test".
Definition Staging : jsstring := u "staging".
Definition UAT : jsstring := u "uat".
End ENV.

Definition windowDefined (g : globals) : bool :=
  match window g with Some _ => true | None => false end.

(** [process.env.NODE_ENV] *)
Definition NODE_ENV (g : globals) : jsvalue :=
  lookupEnv (processEnv g) (u "NODE_ENV").

(** [window.location?.hostname], where [window] is defined *)
Definition hostname (g : globals) : jsvalue :=
  match window g with
  | Some (Some h) => VString h
  | _ => VUndefined
  end.

Definition isBrowser (g : globals) : bool :=
  windowDefined g && document g.

Definition isServer (g : globals) : bool := negb (isBrowser g).

Definition isDev (g : globals) : bool :=
  isString (NODE_ENV g) ENV.Development
  || (isBrowser g && isString (hostname g) (u "localhost")).

Definition isProd (g : globals) : bool := isString (NODE_ENV g) ENV.Production.
Definition isTest (g : globals) : bool := isString (NODE_ENV g) ENV.Test.
Definition isStage (g : globals) : bool := isString (NODE_ENV g) ENV.Staging.
Definition isUat (g : globals) : bool := isString (NODE_ENV g) ENV.UAT.

Definition isSSR (g : globals) : bool :=
  negb (windowDefined g) || negb (document g).

Definition isCSR (g : globals) : bool :=
  windowDefined g && document g.

(** [isEnvVarDefined(key)] (lines 256 to 263); [process] is defined. *)
Definition isEnvVarDefined (process_env : gmap jsstring jsstring)
    (key : jsstring) : bool :=
  if isEmpty key then false
  else
    negb (eqb (typeof (lookupEnv process_env key)) (u "undefined"))
    && negb (isString (lookupEnv process_env key) (u "")).

(** [getAllEnv()]: a copy of [process.env]. *)
Definition getAllEnv (process_env : gmap jsstring jsstring)
  : gmap jsstring jsstring :=
  process_env.

Record validation := {
  isValid : bool;
  missing : list jsstring
}.

(** [validateRequiredEnv(required)] (lines 341 to 350) *)
Definition validateRequiredEnv (process_env : gmap jsstring jsstring)
    (required : list jsstring) : validation :=
  let missing :=
    List.filter (fun key => negb (isEnvVarDefined process_env key)) required in
  {| isValid := (length missing =? 0)%nat; missing := missing |}.

(** ** The vocabulary of the statements *)

(** *** Strings *)

Definition noLeadingSpace (s : jsstring) : Prop :=
  match s with [] => True | c :: _ => isWhiteSpace c = false end.

(** [t] is [s] without the white space at its two ends. *)
Definition trimOf (s t : jsstring) : Prop :=
  exists pre post,
    s = pre ++ t ++ post
    /\ Forall (fun c => isWhiteSpace c = true) pre
    /\ Forall (fun c => isWhiteSpace c = true) post
    /\ noLeadingSpace t /\ noLeadingSpace (rev t).

(** [segs] are the segments of [s] between the occurrences of [sep]. *)
Definition segmentsOf (s : jsstring) (sep : N) (segs : list jsstring) : Prop :=
  segs <> [] /\ join segs [sep] = s /\ Forall (fun seg => ~ In sep seg) segs.

(** *** Redaction *)

Fixpoint mapIndex {A B : Type} (f : N -> A -> B) (index : N) (l : list A)
  : list B :=
  match l with
  | [] => []
  | x :: l' => f index x :: mapIndex f (index + 1) l'
  end.

(** The value that [safeStringify] serializes: the members and elements
    of [v], at every depth, after the replacer.  An object with a [toJSON]
    method is left as it is: that method comes before the replacer, and
    what it returns is not known. *)
Fixpoint redactValue (redactedWord : jsvalue) (v : jsvalue) : jsvalue :=
  if JSON.hasToJSON v then v
  else
    match v with
    | VArray elements =>
        VArray
          (mapIndex
             (fun index x =>
                if JSON.hasToJSON x then x
                else replacer redactedWord (decimal index)
                       (redactValue redactedWord x))
             0 elements)
    | VObject properties =>
        VObject
          (List.map
             (fun p =>
                (fst p,
                 if JSON.hasToJSON (snd p) then snd p
                 else replacer redactedWord (fst p)
                        (redactValue redactedWord (snd p))))
             properties)
    | _ => v
    end.

(** The member under [key], or the element at the index [key], as it is
    serialized. *)
Definition redactMember (redactedWord : jsvalue) (key : jsstring)
    (x : jsvalue) : jsvalue :=
  if JSON.hasToJSON x then x
  else replacer redactedWord key (redactValue redactedWord x).

(** No BigInt and no [toJSON] method at any depth of the value: nothing
    that makes [JSON.stringify] throw or call a function. *)
Fixpoint serializable (v : jsvalue) : bool :=
  negb (JSON.hasToJSON v)
  && match v with
     | VBigInt _ => false
     | VArray elements => forallb serializable elements
     | VObject properties =>
         forallb (fun p => serializable (snd p)) properties
     | _ => true
     end.

(** The values that [JSON.stringify] serializes to [undefined]. *)
Definition omitted (v : jsvalue) : bool :=
  match v with
  | VUndefined | VFunction _ | VSymbol _ => true
  | _ => false
  end.

(** A place in a value: inside an object, under a key, or inside an
    array, at an index. *)
Inductive context :=
| Hole
| InObject (before : list (jsstring * jsvalue)) (key : jsstring) (c : context)
    (after : list (jsstring * jsvalue))
| InArray (before : list jsvalue) (c : context) (after : list jsvalue).

Fixpoint plug (c : context) (v : jsvalue) : jsvalue :=
  match c with
  | Hole => v
  | InObject before key c' after =>
      VObject (before ++ (key, plug c' v) :: after)
  | InArray before c' after => VArray (before ++ plug c' v :: after)
  end.



(** *** Texts *)

(** A word between double quotes, and lines joined by line feeds. *)
Definition quoted (s : string) : jsstring := [34] ++ u s ++ [34].

Definition lines (ls : list jsstring) : jsstring := join ls [10].

(** *** Configuration sources *)

(** The scenario of the specification; the value of OPTS is the text
    [{"x":1}]. *)
Definition scenario : gmap jsstring jsstring :=
  <[u "PORT" := u "8080"]>
    (<[u "DEBUG" := u "true"]>
       (<[u "TAGS" := u "a,b,c"]>
          (<[u "OPTS" := u "{" ++ quoted "x" ++ u ":1}"]> ∅))).

(** *** Words in any case *)

(** [s] is the lower-case word [w] with some of its letters in upper
    case. *)
Definition caseVariant (s w : jsstring) : Prop :=
  Forall2 (fun c l => c = l \/ c + 32 = l) s w.

(** The name of a member that every object inherits. *)
Definition inherited (key : jsstring) : Prop :=
  In key (List.map fst ObjectPrototype.members).

(** The name of a method that every object inherits. *)
Definition inheritedMethod (key : jsstring) : Prop :=
  In key (List.map fst ObjectPrototype.methods).

(** The key is not empty and reading it in the source gives something:
    the value of a variable, which is not empty, or, without such a
    variable, an inherited member. *)
Definition hasValue (process_env : gmap jsstring jsstring) (key : jsstring)
  : Prop :=
  key <> u ""
  /\ ((exists s, process_env !! key = Some s /\ s <> u "")
      \/ (process_env !! key = None /\ inherited key)).

(** *** Arrays and objects *)

Inductive kind := KArray | KObject.

Definition kindOf (v : jsvalue) : option kind :=
  match v with
  | VArray _ => Some KArray
  | VObject _ => Some KObject
  | _ => None
  end.

(** *** Items of a list written with commas *)

(** An item as [safeArray] returns it: not empty, without a comma and
    without white space at its ends. *)
Definition cleanItem (t : jsstring) : Prop :=
  t <> u "" /\ ~ In 44 t /\ noLeadingSpace t /\ noLeadingSpace (rev t).

Definition allSpace (s : jsstring) : Prop :=
  Forall (fun c => isWhiteSpace c = true) s.

(** An item as it is written in a list, with white space on its left
    and on its right. *)
Definition written (p : jsstring * jsstring * jsstring) : jsstring :=
  fst (fst p) ++ snd (fst p) ++ snd p.

Definition wellWritten (p : jsstring * jsstring * jsstring) : Prop :=
  allSpace (fst (fst p)) /\ cleanItem (snd (fst p)) /\ allSpace (snd p).

(** *** Values without a sensitive key *)

(** Some key of an object or some index of an array, at any depth of
    [v], is sensitive. *)
Fixpoint anySensitive (redactedWord : jsvalue) (v : jsvalue) : bool :=
  match v with
  | VArray elements =>
      existsb (fun b : bool => b)
        (mapIndex
           (fun index x =>
              sensitiveKey redactedWord (decimal index)
              || anySensitive redactedWord x)
           0 elements)
  | VObject properties =>
      existsb
        (fun p =>
           sensitiveKey redactedWord (fst p) || anySensitive redactedWord (snd p))
        properties
  | _ => false
  end.

(** *** The state of the parser *)

Definition frameKind (f : JSON.frame) : kind :=
  match f with
  | JSON.FArray _ => KArray
  | JSON.FObject _ _ => KObject
  end.

(** The frame at the bottom of the stack, the outermost array or object
    under construction. *)
Fixpoint bottom (stack : list JSON.frame) : option JSON.frame :=
  match stack with
  | [] => None
  | [f] => Some f
  | _ :: stack' => bottom stack'
  end.

(** Either the outermost value under construction has kind [k], or the
    parser is done with a value of kind [k]. *)
Definition parsing (k : kind) (st : JSON.parseState) (stack : list JSON.frame)
  : Prop :=
  match st with
  | JSON.PDone v => stack = [] /\ kindOf v = Some k
  | _ => exists f, bottom stack = Some f /\ frameKind f = k
  end.

(** The text of an array element. *)
Definition itemText (r : JSON.outcome JSON.serialized) : JSON.outcome jsstring :=
  JSON.andThen r (fun strP =>
  Some (Return match strP with
               | Some str => str
               | None => u "null"
               end)).

(** *** Values that are written and read back *)

Fixpoint distinct (ks : list jsstring) : bool :=
  match ks with
  | [] => true
  | k :: ks' => negb (existsb (eqb k) ks') && distinct ks'
  end.

(** A value that [JSON.parse] gives back from the text of
    [JSON.stringify]: no [undefined]; numbers that are natural numbers
    of 21 digits at most; code units below [2^16]; objects whose keys are
    distinct and are not array indices, which an object enumerates
    first. *)
Fixpoint plain (v : jsvalue) : bool :=
  match v with
  | VUndefined | VFunction _ | VSymbol _ | VBigInt _ => false
  | VNull | VBool _ => true
  | VNumber (Finite false m 0%Z) => (length (decimal m) <=? 21)%nat
  | VNumber _ => false
  | VString s => forallb (fun c => c <? 65536) s
  | VArray elements => forallb plain elements
  | VObject properties =>
      forallb
        (fun p =>
           forallb (fun c => c <? 65536) (fst p)
           && negb (JSON.isArrayIndex (fst p))
           && plain (snd p))
        properties
      && distinct (List.map fst properties)
  end.

(** Token lists with a comma between them. *)
Fixpoint sepTokens (ls : list (list JSON.token)) : list JSON.token :=
  match ls with
  | [] => []
  | [ts] => ts
  | ts :: ls' => ts ++ JSON.TComma :: sepTokens ls'
  end.

(** The tokens of the JSON text of a value. *)
Fixpoint tokens (v : jsvalue) : list JSON.token :=
  match v with
  | VUndefined | VNull | VFunction _ | VSymbol _ | VBigInt _ => [JSON.TNull]
  | VBool true => [JSON.TTrue]
  | VBool false => [JSON.TFalse]
  | VNumber n => [JSON.TNumber n]
  | VString s => [JSON.TString s]
  | VArray elements =>
      JSON.TLBracket :: sepTokens (List.map tokens elements)
        ++ [JSON.TRBracket]
  | VObject properties =>
      JSON.TLBrace
        :: sepTokens
             (List.map
                (fun p => JSON.TString (fst p) :: JSON.TColon :: tokens (snd p))
                properties)
        ++ [JSON.TRBrace]
  end.

(** What may follow a number or a literal name in a text. *)
Definition endsWord (rest : jsstring) : Prop :=
  match rest with
  | [] => True
  | c :: _ => JSON.isWordUnit c = false
  end.

(** A text of JSON white space, as an indentation is. *)
Definition blank (s : jsstring) : Prop :=
  Forall (fun c => JSON.isJSONWhiteSpace c = true) s.

(** * Properties *)

(** ** Strings *)

Lemma eqb_eq (a b : jsstring) : eqb a b = true <-> a = b.
Proof.
  revert b; induction a as [|x a IH]; intros [|y b]; simpl; split;
    try congruence; try reflexivity.
  - intros H; apply andb_prop in H as [Hx Hab].
    apply N.eqb_eq in Hx; apply IH in Hab; congruence.
  - intros H; injection H as -> ->.
    rewrite N.eqb_refl; simpl; apply IH; reflexivity.
Qed.

Lemma eqb_nil (a : jsstring) : eqb a [] = isEmpty a.
Proof. destruct a; reflexivity. Qed.

Lemma startsWith_spec (s p : jsstring) :
  startsWith s p = true <-> exists post, s = p ++ post.
Proof.
  revert s; induction p as [|y p IH]; intros s; simpl.
  - split; [intros _; exists s; reflexivity | reflexivity].
  - destruct s as [|x s].
    + split; [discriminate | intros [post H]; discriminate].
    + rewrite andb_true_iff, N.eqb_eq, IH; split.
      * intros [-> [post ->]]; exists post; reflexivity.
      * intros [post H]; injection H as -> ->; split; [reflexivity | eauto].
Qed.

(** [includes] decides the occurrence of [p] as a substring of [s]. *)
Lemma includes_spec (s p : jsstring) :
  includes s p = true <-> exists pre post, s = pre ++ p ++ post.
Proof.
  induction s as [|x s IH].
  - simpl; rewrite orb_false_r, startsWith_spec; split.
    + intros [post H]; exists [], post; exact H.
    + intros [pre [post H]]; destruct pre; [exists post; exact H | discriminate].
  - cbn [includes]; rewrite orb_true_iff, startsWith_spec, IH; split.
    + intros [[post H] | [pre [post H]]].
      * exists [], post; exact H.
      * exists (x :: pre), post; simpl; congruence.
    + intros [[|y pre] [post H]].
      * left; exists post; exact H.
      * right; injection H as -> ->; eauto.
Qed.

Lemma includes_head (s p : jsstring) (c : N) :
  includes s (c :: p) = true -> In c s.
Proof.
  intros H; apply includes_spec in H as [pre [post ->]].
  apply in_or_app; right; left; reflexivity.
Qed.

Lemma includes_unit (s : jsstring) (c : N) :
  includes s [c] = true <-> In c s.
Proof.
  split; [apply includes_head |].
  intros H; apply in_split in H as [pre [post ->]].
  apply includes_spec; exists pre, post; reflexivity.
Qed.

(** *** trim *)

Lemma trimStart_spec (s : jsstring) :
  exists pre, s = pre ++ trimStart s
    /\ Forall (fun c => isWhiteSpace c = true) pre
    /\ noLeadingSpace (trimStart s).
Proof.
  induction s as [|c s (pre & Hs & Hpre & Hno)]; simpl.
  - exists []; repeat split; constructor.
  - destruct (isWhiteSpace c) eqn:Hc.
    + exists (c :: pre); simpl; repeat split; [congruence | | exact Hno].
      constructor; assumption.
    + exists []; simpl; repeat split; [constructor | exact Hc].
Qed.

Lemma noLeadingSpace_trimEnd (s : jsstring) :
  noLeadingSpace s -> noLeadingSpace (trimEnd s).
Proof.
  unfold trimEnd.
  destruct (trimStart_spec (rev s)) as (pre & Hs & Hpre & _).
  intros Hno.
  assert (Hrev : s = rev (trimStart (rev s)) ++ rev pre).
  { rewrite <- rev_app_distr, <- Hs, rev_involutive; reflexivity. }
  destruct (rev (trimStart (rev s))) as [|c t] eqn:Ht; [exact I |].
  rewrite Hrev in Hno; exact Hno.
Qed.

Lemma trim_spec (s : jsstring) : trimOf s (trim s).
Proof.
  unfold trim, trimEnd.
  destruct (trimStart_spec s) as (pre & Hs & Hpre & Hno).
  destruct (trimStart_spec (rev (trimStart s))) as (post & Ht & Hpost & Hno').
  exists pre, (rev post); repeat split.
  - rewrite <- rev_app_distr, <- Ht, rev_involutive; exact Hs.
  - exact Hpre.
  - apply List.Forall_forall; intros c Hc; apply in_rev in Hc.
    rewrite List.Forall_forall in Hpost; auto.
  - apply (noLeadingSpace_trimEnd (trimStart s)); exact Hno.
  - rewrite rev_involutive; exact Hno'.
Qed.

(** *** split *)

Lemma split_not_nil (s : jsstring) (sep : N) : split s sep <> [].
Proof.
  destruct s as [|c s]; simpl; [discriminate |].
  destruct (c =? sep); [discriminate |].
  destruct (split s sep); discriminate.
Qed.

Lemma join_split (s : jsstring) (sep : N) : join (split s sep) [sep] = s.
Proof.
  induction s as [|c s IH]; [reflexivity |].
  simpl; destruct (N.eqb_spec c sep) as [-> | Hne].
  - pose proof (split_not_nil s sep) as Hnil.
    destruct (split s sep) as [|seg segs]; [contradiction |].
    simpl in *; rewrite IH; reflexivity.
  - pose proof (split_not_nil s sep) as Hnil.
    destruct (split s sep) as [|seg segs]; [contradiction |].
    destruct segs; simpl in *; rewrite <- IH; reflexivity.
Qed.

Lemma split_no_sep (s : jsstring) (sep : N) :
  Forall (fun seg => ~ In sep seg) (split s sep).
Proof.
  induction s as [|c s IH]; simpl.
  - constructor; [intros [] | constructor].
  - destruct (N.eqb_spec c sep) as [-> | Hne].
    + constructor; [intros [] | exact IH].
    + destruct (split s sep) as [|seg segs].
      * constructor; [| constructor]. intros [H | []]; congruence.
      * inversion IH as [|? ? Hseg Hsegs]; subst.
        constructor; [| exact Hsegs].
        intros [H | H]; [congruence | contradiction].
Qed.

Lemma split_spec (s : jsstring) (sep : N) : segmentsOf s sep (split s sep).
Proof.
  repeat split;
    [apply split_not_nil | apply join_split | apply split_no_sep].
Qed.

(** *** decimal *)

Lemma digitsOfUint_digits (d : Decimal.uint) :
  Forall (fun c => isDigit c = true) (digitsOfUint d).
Proof. induction d; simpl; constructor; auto. Qed.

Lemma decimal_digits (n : N) : Forall (fun c => isDigit c = true) (decimal n).
Proof. apply digitsOfUint_digits. Qed.

Lemma endsWith_spec (s p : jsstring) :
  endsWith s p = true <-> exists pre, s = pre ++ p.
Proof.
  unfold endsWith; rewrite startsWith_spec; split.
  - intros [post H]; exists (rev post).
    rewrite <- (rev_involutive s), H, rev_app_distr, rev_involutive.
    reflexivity.
  - intros [pre ->]; exists (rev pre); apply rev_app_distr.
Qed.

(** ** env *)

Lemma looksLikeJSON_not_empty (s : jsstring) :
  looksLikeJSON s = true -> s <> [].
Proof. intros H ->; discriminate. Qed.

(** Past the two guards, [env] is its [try] statement. *)
Lemma env_found (process_env : gmap jsstring jsstring) (key s : jsstring)
    (defaultValue : jsvalue) :
  key <> [] -> s <> [] -> process_env !! key = Some s ->
  env process_env key defaultValue =
    body (try_catch (envTry (VString s) defaultValue)
            (fun _ => return_ (Return defaultValue)))
         (VString s).
Proof.
  intros Hkey Hs Hget; unfold env, lookupEnv; rewrite Hget.
  destruct key; [contradiction |]; destruct s; [contradiction |].
  reflexivity.
Qed.

(** What a name that is not a variable gives: nothing, an inherited
    method, or [Object.prototype]. *)
Lemma lookup_cases (ms : list (jsstring * jsvalue)) (key : jsstring) :
  (ObjectPrototype.lookup ms key = VUndefined /\ ~ In key (List.map fst ms))
  \/ In (key, ObjectPrototype.lookup ms key) ms.
Proof.
  induction ms as [|[k v] ms IH]; cbn [ObjectPrototype.lookup List.map fst In].
  - left; split; [reflexivity | intros []].
  - destruct (eqb k key) eqn:E.
    + apply eqb_eq in E; subst k; right; left; reflexivity.
    + destruct IH as [[IH Hn] | IH]; [left | right; right; exact IH].
      split; [exact IH |].
      intros [H | H]; [| contradiction].
      subst k; rewrite (proj2 (eqb_eq key key) eq_refl) in E; discriminate.
Qed.

Lemma get_cases (key : jsstring) :
  (ObjectPrototype.get key = VUndefined /\ ~ inherited key)
  \/ (exists f,
         ObjectPrototype.get key = VFunction f
         /\ In (key, f) ObjectPrototype.methods)
  \/ (ObjectPrototype.get key = VObject [] /\ key = u "__proto__").
Proof.
  unfold ObjectPrototype.get, inherited.
  destruct (lookup_cases ObjectPrototype.members key) as [H | H];
    [left; exact H | right].
  apply in_app_or in H as [H | H].
  - left; apply in_map_iff in H as ([k f] & E & H); cbn [fst snd] in E.
    injection E as -> E; exists f; split; [symmetry; exact E | exact H].
  - right; destruct H as [H | []]; injection H as Hk Hv.
    split; symmetry; assumption.
Qed.

Lemma inheritedMethod_In (key f : jsstring) :
  In (key, f) ObjectPrototype.methods -> inheritedMethod key /\ key <> u "".
Proof.
  intros H; split; [apply (in_map fst) in H; exact H |].
  intros ->; cbn in H.
  repeat (destruct H as [H | H]; [discriminate H |]); exact H.
Qed.


Lemma env_not_found (process_env : gmap jsstring jsstring) (key : jsstring)
    (defaultValue : jsvalue) :
  (process_env !! key = None /\ ~ inheritedMethod key)
  \/ process_env !! key = Some [] ->
  env process_env key defaultValue = Return defaultValue.
Proof.
  intros H; unfold env.
  destruct (isEmpty key); [reflexivity |].
  unfold lookupEnv; destruct H as [[-> Hn] | ->]; [| reflexivity].
  destruct (get_cases key) as [[-> _] | [(f & _ & Hf) | [-> _]]];
    [reflexivity | | reflexivity].
  exfalso; apply Hn, (inheritedMethod_In key f), Hf.
Qed.


Lemma envTry_json (s : jsstring) (defaultValue : jsvalue) :
  looksLikeJSON s = true ->
  envTry (VString s) defaultValue = return_ (JSON.parse s).
Proof.
  intros H; unfold envTry; rewrite H.
  unfold when, seq; destruct (JSON.parse s); reflexivity.
Qed.

Lemma envTry_number (s : jsstring) (defaultValue : jsvalue) :
  looksLikeJSON s = false ->
  eqb (toLowerCase s) (u "true") = false ->
  eqb (toLowerCase s) (u "false") = false ->
  Num.isNaN (Num.Number s) = false ->
  envTry (VString s) defaultValue = Return (Some (VNumber (Num.Number s))).
Proof.
  intros Hj Ht Hf Hn; unfold envTry.
  rewrite Hj, Ht, Hf, Hn; reflexivity.
Qed.


Lemma env_returns (process_env : gmap jsstring jsstring) (key : jsstring)
    (defaultValue : jsvalue) :
  exists v, env process_env key defaultValue = Return v.
Proof.
  unfold env.
  destruct (isEmpty key); [eauto |].
  destruct (isUndefined _ || isString _ _); [eauto |].
  destruct (envTry _ _) as [[v |] | e]; simpl; eauto.
Qed.




(** C2: when the value looks like a JSON object or array and
    [JSON.parse] fails on it, [env] returns the default value; the [try]
    statement ends with that failure, before the boolean and numeric
    steps. *)
Theorem env_json_failure_returns_default
    (process_env : gmap jsstring jsstring) (key s : jsstring)
    (defaultValue : jsvalue) (e : error) :
  process_env !! key = Some s ->
  (startsWith s (u "{") = true /\ endsWith s (u "}") = true)
  \/ (startsWith s (u "[") = true /\ endsWith s (u "]") = true) ->
  JSON.parse s = Throw e ->
  env process_env key defaultValue = Return defaultValue
  /\ envTry (VString s) defaultValue = Throw e.
Proof.
  intros Hget Hshape Hparse.
  assert (Hj : looksLikeJSON s = true).
  { unfold looksLikeJSON; destruct Hshape as [[-> ->] | [-> ->]];
      [reflexivity | apply orb_true_r]. }
  assert (Htry : envTry (VString s) defaultValue = Throw e).
  { rewrite envTry_json, Hparse; [reflexivity | exact Hj]. }
  split; [| exact Htry].
  destruct key as [|c key]; [reflexivity |].
  rewrite (env_found _ _ s); [| discriminate | | exact Hget].
  - rewrite Htry; reflexivity.
  - apply looksLikeJSON_not_empty; exact Hj.
Qed.

Lemma env_json_failure_returns_default_witness :
  env (<[u "OPTS" := u "{x:1}"]> scenario) (u "OPTS") (VString (u "none"))
    = Return (VString (u "none"))
  /\ envTry (VString (u "{x:1}")) (VString (u "none"))
     = Throw (SyntaxError (u "Unexpected token in JSON")).
Proof.
  apply (env_json_failure_returns_default
           (<[u "OPTS" := u "{x:1}"]> scenario) (u "OPTS") (u "{x:1}")).
  - vm_compute; reflexivity.
  - left; split; reflexivity.
  - vm_compute; reflexivity.
Defined.

Lemma env_numeric (process_env : gmap jsstring jsstring) (key s : jsstring)
    (defaultValue : jsvalue) :
  key <> u "" ->
  process_env !! key = Some s ->
  s <> u "" ->
  looksLikeJSON s = false ->
  eqb (toLowerCase s) (u "true") = false ->
  eqb (toLowerCase s) (u "false") = false ->
  Num.isNaN (Num.Number s) = false ->
  env process_env key defaultValue = Return (VNumber (Num.Number s)).
Proof.
  intros Hkey Hget Hs Hj Ht Hf Hn.
  rewrite (env_found _ _ s), envTry_number; auto.
Qed.

(** C4, as the code has it: for a key that is not the empty string, a
    value that is not empty, does not look like JSON, is not a boolean
    word and is numeric for [isNaN(Number(value))] is returned as that
    number; the values ["0"] and ["  "] give the number 0. *)
Theorem env_numeric_value_returns_number
    (process_env : gmap jsstring jsstring) (key s : jsstring)
    (defaultValue : jsvalue) :
  key <> u "" ->
  process_env !! key = Some s ->
  (s <> u "" ->
   looksLikeJSON s = false ->
   eqb (toLowerCase s) (u "true") = false ->
   eqb (toLowerCase s) (u "false") = false ->
   Num.isNaN (Num.Number s) = false ->
   env process_env key defaultValue = Return (VNumber (Num.Number s)))
  /\ (s = u "0" ->
      env process_env key defaultValue = Return (VNumber (Num.ofN 0)))
  /\ (s = u "  " ->
      env process_env key defaultValue = Return (VNumber (Num.ofN 0))).
Proof.
  intros Hkey Hget; split; [| split].
  - intros; apply env_numeric; assumption.
  - intros ->.
    rewrite (env_numeric _ _ (u "0") defaultValue Hkey Hget);
      [reflexivity | discriminate | reflexivity ..].
  - intros ->.
    rewrite (env_numeric _ _ (u "  ") defaultValue Hkey Hget);
      [reflexivity | discriminate | reflexivity ..].
Qed.

Lemma env_numeric_value_returns_number_witness :
  env (<[u "RETRIES" := u "0"]> scenario) (u "RETRIES") (VString (u "3"))
    = Return (VNumber (Num.ofN 0)).
Proof.
  destruct (env_numeric_value_returns_number
              (<[u "RETRIES" := u "0"]> scenario) (u "RETRIES") (u "0")
              (VString (u "3"))) as (_ & H & _).
  - discriminate.
  - vm_compute; reflexivity.
  - apply H; reflexivity.
Defined.

(** C4 as stated fails for the empty key: [env] returns the default
    value before it reads the source, even where the source has the
    numeric value ["0"] under that key. *)
Lemma env_numeric_empty_key_counterexample :
  env (<[u "" := u "0"]> ∅) (u "") (VString (u "none"))
    = Return (VString (u "none"))
  /\ ~ (forall (process_env : gmap jsstring jsstring) (key s : jsstring)
          (defaultValue : jsvalue),
           process_env !! key = Some s ->
           s <> u "" ->
           looksLikeJSON s = false ->
           eqb (toLowerCase s) (u "true") = false ->
           eqb (toLowerCase s) (u "false") = false ->
           Num.isNaN (Num.Number s) = false ->
           env process_env key defaultValue
             = Return (VNumber (Num.Number s))).
Proof.
  split; [reflexivity |].
  intros H.
  assert (E : env (<[u "" := u "0"]> ∅) (u "") (VString (u "none"))
              = Return (VNumber (Num.Number (u "0")))).
  { apply H; [vm_compute; reflexivity | discriminate | reflexivity ..]. }
  discriminate E.
Qed.

(** C6: the scenario of the specification.  PORT is the number 8080,
    DEBUG the boolean true, TAGS the string ["a,b,c"] itself and OPTS the
    object [{x: 1}], whatever the default value. *)
Theorem env_scenario (defaultValue : jsvalue) :
  env scenario (u "PORT") defaultValue = Return (VNumber (Num.ofN 8080))
  /\ env scenario (u "DEBUG") defaultValue = Return (VBool true)
  /\ env scenario (u "TAGS") defaultValue = Return (VString (u "a,b,c"))
  /\ env scenario (u "OPTS") defaultValue
     = Return (VObject [(u "x", VNumber (Num.ofN 1))]).
Proof. repeat split; vm_compute; reflexivity. Qed.




(** ** safeArray *)

Lemma safeArray_string (str : jsstring) :
  safeArray (VString str) =
    Return (VArray
      (let t := trim str in
       if isEmpty t then []
       else if includes t (u ",") then
         List.map VString
           (List.filter (fun item => negb (isEmpty item))
              (List.map trim (split t 44)))
       else [VString t])).
Proof.
  unfold safeArray; simpl.
  rewrite eqb_nil.
  destruct (isEmpty (trim str)); [reflexivity |].
  destruct (includes (trim str) (u ",")); [| reflexivity].
  simpl.
  replace (List.filter (fun item => negb (eqb item (u ""))) _)
    with (List.filter (fun item => negb (isEmpty item))
            (List.map trim (split (trim str) 44))).
  - destruct (0 <? length _)%nat eqn:Hlen; [reflexivity |].
    apply Nat.ltb_ge in Hlen.
    destruct (List.filter _ _); [reflexivity | simpl in Hlen; lia].
  - apply filter_ext; intros a; rewrite eqb_nil; reflexivity.
Qed.

Lemma safeArray_returns (args : jsvalue) :
  exists elements, safeArray args = Return (VArray elements).
Proof.
  destruct args; try (eexists; reflexivity).
  rewrite safeArray_string; eexists; reflexivity.
Qed.

Lemma trimOf_map (segs : list jsstring) :
  Forall2 trimOf segs (List.map trim segs).
Proof.
  induction segs; simpl; constructor; [apply trim_spec | assumption].
Qed.

(** C7: [safeArray] returns an array for every input, and which one:
    nothing for [undefined] and [null]; an array itself; for a string,
    with [t] the string without the white space at its ends, nothing if
    [t] is empty, the non-empty trimmed segments of [t] between its
    commas, in order, if it has a comma, and [t] alone otherwise; any
    other value alone. *)
Theorem safeArray_total_and_cases :
  (forall args, exists elements, safeArray args = Return (VArray elements))
  /\ safeArray VUndefined = Return (VArray [])
  /\ safeArray VNull = Return (VArray [])
  /\ (forall elements, safeArray (VArray elements) = Return (VArray elements))
  /\ (forall str, exists t,
        trimOf str t
        /\ (t = u "" -> safeArray (VString str) = Return (VArray []))
        /\ (t <> u "" -> In 44 t ->
            exists segs trimmed,
              segmentsOf t 44 segs
              /\ Forall2 trimOf segs trimmed
              /\ safeArray (VString str) =
                   Return (VArray
                     (List.map VString
                        (List.filter (fun item => negb (isEmpty item))
                           trimmed))))
        /\ (t <> u "" -> ~ In 44 t ->
            safeArray (VString str) = Return (VArray [VString t])))
  /\ (forall properties,
        safeArray (VObject properties) = Return (VArray [VObject properties]))
  /\ (forall b, safeArray (VBool b) = Return (VArray [VBool b]))
  /\ (forall n, safeArray (VNumber n) = Return (VArray [VNumber n]))
  /\ (forall f, safeArray (VFunction f) = Return (VArray [VFunction f]))
  /\ (forall d, safeArray (VSymbol d) = Return (VArray [VSymbol d]))
  /\ (forall z, safeArray (VBigInt z) = Return (VArray [VBigInt z]))
  /\ safeArray (VArray [VNumber (Num.ofN 1); VNumber (Num.ofN 2)])
     = Return (VArray [VNumber (Num.ofN 1); VNumber (Num.ofN 2)])
  /\ safeArray (VString (u "a, b ,c"))
     = Return (VArray [VString (u "a"); VString (u "b"); VString (u "c")])
  /\ safeArray (VString (u "solo")) = Return (VArray [VString (u "solo")])
  /\ safeArray (VObject [(u "id", VNumber (Num.ofN 1))])
     = Return (VArray [VObject [(u "id", VNumber (Num.ofN 1))]]).
Proof.
  split; [apply safeArray_returns |].
  do 3 (split; [reflexivity |]).
  split; [| repeat split; reflexivity].
  intros str; exists (trim str); split; [apply trim_spec |].
  rewrite safeArray_string; cbv zeta.
  split; [| split].
  - intros ->; reflexivity.
  - intros Hne Hin.
    exists (split (trim str) 44), (List.map trim (split (trim str) 44)).
    split; [apply split_spec | split; [apply trimOf_map |]].
    destruct (trim str); [contradiction |]; cbn [isEmpty].
    apply (includes_unit _ 44) in Hin.
    change (u ",") with [44]; rewrite Hin; reflexivity.
  - intros Hne Hnin.
    destruct (trim str) eqn:Ht; [contradiction |]; cbn [isEmpty].
    destruct (includes _ (u ",")) eqn:Hinc; [| reflexivity].
    apply (includes_unit _ 44) in Hinc; contradiction.
Qed.

(** ** JSON.stringify *)

Section SerializeFacts.

Variable R : option (jsstring -> jsvalue -> jsvalue).
Variable gap : jsstring.

Local Abbreviation level :=
  (jsstring -> jsstring -> jsvalue -> JSON.outcome JSON.serialized).





(** The members and the elements are serialized in order: the first
    exception is the exception of the whole. *)
Lemma members_returns (rec : level) (indent : jsstring)
    (K : list (jsstring * jsvalue)) :
  (forall P v, In (P, v) K -> exists r, rec indent P v = Some (Return r)) ->
  exists partial, JSON.members gap rec indent K = Some (Return partial).
Proof.
  induction K as [|[P v] K IH]; intros H; cbn [JSON.members];
    [eexists; reflexivity |].
  destruct (H P v (or_introl eq_refl)) as [r ->].
  destruct IH as [partial ->]; [intros; apply H; right; assumption |].
  eexists; reflexivity.
Qed.

Lemma items_returns (rec : level) (indent : jsstring)
    (elements : list jsvalue) (index : N) :
  (forall P v, In v elements -> exists r, rec indent P v = Some (Return r)) ->
  exists partial, JSON.items rec indent index elements = Some (Return partial).
Proof.
  revert index; induction elements as [|v l IH]; intros index H;
    cbn [JSON.items]; [eexists; reflexivity |].
  destruct (H (decimal index) v (or_introl eq_refl)) as [r ->].
  destruct (IH (index + 1)) as [partial ->];
    [intros; apply H; right; assumption |].
  eexists; reflexivity.
Qed.

Lemma members_throws (rec : level) (indent : jsstring)
    (K : list (jsstring * jsvalue)) (e : error) :
  JSON.members gap rec indent K = Some (Throw e) ->
  exists P v, In (P, v) K /\ rec indent P v = Some (Throw e).
Proof.
  induction K as [|[P v] K IH]; cbn [JSON.members]; [discriminate |].
  destruct (rec indent P v) as [[strP | e'] |] eqn:Hr; cbn [JSON.andThen];
    [| | discriminate].
  - destruct (JSON.members gap rec indent K) as [[partial | e'] |];
      cbn [JSON.andThen]; try discriminate.
    intros H; destruct (IH H) as (P' & v' & Hin & Hv).
    exists P', v'; split; [right; exact Hin | exact Hv].
  - intros H; injection H as ->.
    exists P, v; split; [left; reflexivity | exact Hr].
Qed.

Lemma items_throws (rec : level) (indent : jsstring)
    (elements : list jsvalue) (index : N) (e : error) :
  JSON.items rec indent index elements = Some (Throw e) ->
  exists P v, In v elements /\ rec indent P v = Some (Throw e).
Proof.
  revert index; induction elements as [|v l IH]; intros index;
    cbn [JSON.items]; [discriminate |].
  destruct (rec indent (decimal index) v) as [[strP | e'] |] eqn:Hr;
    cbn [JSON.andThen]; [| | discriminate].
  - destruct (JSON.items rec indent (index + 1) l) as [[partial | e'] |] eqn:Hi;
      cbn [JSON.andThen]; try discriminate.
    intros H; injection H as ->.
    destruct (IH _ Hi) as (P' & v' & Hin & Hv).
    exists P', v'; split; [right; exact Hin | exact Hv].
  - intros H; injection H as ->.
    exists (decimal index), v; split; [left; reflexivity | exact Hr].
Qed.

End SerializeFacts.

Lemma height_element (x : jsvalue) (elements : list jsvalue) :
  In x elements -> (height x < height (VArray elements))%nat.
Proof.
  simpl; induction elements as [|y l IH]; intros H; [destruct H |].
  destruct H as [-> | H]; simpl; [| specialize (IH H)]; lia.
Qed.

Lemma height_member (k : jsstring) (x : jsvalue)
    (properties : list (jsstring * jsvalue)) :
  In (k, x) properties -> (height x < height (VObject properties))%nat.
Proof.
  simpl; induction properties as [|y l IH]; intros H; [destruct H |].
  destruct H as [-> | H]; simpl; [| specialize (IH H)]; lia.
Qed.

(** *** Values without a BigInt and without a toJSON method *)

Lemma serializable_hasToJSON (v : jsvalue) :
  serializable v = true -> JSON.hasToJSON v = false.
Proof.
  destruct v; cbn [serializable]; intros H; apply andb_prop in H as [H _];
    apply negb_true_iff in H; exact H.
Qed.

Lemma serializable_element (x : jsvalue) (elements : list jsvalue) :
  serializable (VArray elements) = true -> In x elements ->
  serializable x = true.
Proof.
  cbn [serializable]; intros H Hin; apply andb_prop in H as [_ H].
  rewrite forallb_forall in H; apply H, Hin.
Qed.

Lemma serializable_member (k : jsstring) (x : jsvalue)
    (properties : list (jsstring * jsvalue)) :
  serializable (VObject properties) = true -> In (k, x) properties ->
  serializable x = true.
Proof.
  cbn [serializable]; intros H Hin; apply andb_prop in H as [_ H].
  rewrite forallb_forall in H; apply (H (k, x)), Hin.
Qed.

(** Without a replacer, a serializable value is serialized with no more
    fuel than its depth, to a string or, for [undefined], a function or
    a symbol, to [undefined]. *)
Lemma SerializeJSONProperty_serializable (gap : jsstring) (fuel : nat)
    (indent key : jsstring) (v : jsvalue) :
  serializable v = true ->
  (height v < fuel)%nat ->
  exists r,
    JSON.SerializeJSONProperty None gap fuel indent key v = Some (Return r)
    /\ (r = None <-> omitted v = true).
Proof.
  revert indent key v; induction fuel as [|fuel IH];
    intros indent key v Hv Hlt; [lia |].
  cbn [JSON.SerializeJSONProperty]; unfold JSON.serializeValue.
  rewrite (serializable_hasToJSON v Hv).
  destruct v as [| | [|] | n | s | l | ps | f | d | z];
    try (eexists; split; [reflexivity |];
         split; [discriminate | discriminate]);
    try (eexists; split; [reflexivity |]; split; reflexivity).
  - unfold JSON.SerializeJSONArray.
    destruct (items_returns (JSON.SerializeJSONProperty None gap fuel)
                (indent ++ gap) l 0) as [partial ->].
    + intros P x Hin.
      destruct (IH (indent ++ gap) P x) as (r & Hr & _);
        [apply (serializable_element x l Hv Hin)
        | pose proof (height_element _ _ Hin); lia |].
      exists r; exact Hr.
    + eexists; split; [reflexivity |]; split; discriminate.
  - unfold JSON.SerializeJSONObject.
    destruct (members_returns gap (JSON.SerializeJSONProperty None gap fuel)
                (indent ++ gap) ps) as [partial ->].
    + intros P x Hin.
      destruct (IH (indent ++ gap) P x) as (r & Hr & _);
        [apply (serializable_member P x ps Hv Hin)
        | pose proof (height_member _ _ _ Hin); lia |].
      exists r; exact Hr.
    + eexists; split; [reflexivity |]; split; discriminate.
  - discriminate Hv.
Qed.

(** Without a replacer, the only exception is the one for a BigInt, and
    the value is not serializable then. *)
Lemma SerializeJSONProperty_throws (gap : jsstring) (fuel : nat)
    (indent key : jsstring) (v : jsvalue) (e : error) :
  JSON.SerializeJSONProperty None gap fuel indent key v = Some (Throw e) ->
  e = JSON.bigIntError /\ serializable v = false.
Proof.
  revert indent key v; induction fuel as [|fuel IH]; intros indent key v;
    [discriminate |].
  cbn [JSON.SerializeJSONProperty]; unfold JSON.serializeValue.
  destruct (JSON.hasToJSON v) eqn:Hj; [discriminate |].
  destruct v as [| | [|] | n | s | l | ps | f | d | z]; try discriminate.
  - unfold JSON.SerializeJSONArray.
    destruct (JSON.items _ _ _ _) as [[partial | e'] |] eqn:Hi;
      cbn [JSON.andThen]; try discriminate.
    intros H; injection H as <-.
    apply items_throws in Hi as (P & x & Hin & Hx).
    apply IH in Hx as [-> Hx]; split; [reflexivity |].
    destruct (serializable (VArray l)) eqn:Hs; [| reflexivity].
    rewrite (serializable_element x l Hs Hin) in Hx; discriminate Hx.
  - unfold JSON.SerializeJSONObject.
    destruct (JSON.members _ _ _ _) as [[partial | e'] |] eqn:Hm;
      cbn [JSON.andThen]; try discriminate.
    intros H; injection H as <-.
    apply members_throws in Hm as (P & x & Hin & Hx).
    apply IH in Hx as [-> Hx]; split; [reflexivity |].
    destruct (serializable (VObject ps)) eqn:Hs; [| reflexivity].
    rewrite (serializable_member P x ps Hs Hin) in Hx; discriminate Hx.
  - intros H; injection H as <-; split; reflexivity.
Qed.

(** ** safeStringify *)

Lemma invalidRedactedWord_false (redactedWord : jsvalue) :
  invalidRedactedWord redactedWord = false <->
  redactedWord = VUndefined
  \/ exists w, redactedWord = VString w /\ trim w <> u "".
Proof.
  destruct redactedWord as [| | b | n | w | l | ps | f | d | z]; simpl;
    try (split; [discriminate | intros [H | [w [H _]]]; discriminate]).
  - split; [left; reflexivity | reflexivity].
  - change (invalidRedactedWord (VString w)) with (eqb (trim w) []).
    rewrite eqb_nil; split.
    + intros H; right; exists w; split; [reflexivity |].
      intros Hw; rewrite Hw in H; discriminate.
    + intros [H | [w' [H Hw]]]; [discriminate |].
      injection H as ->; destruct (trim w'); [contradiction | reflexivity].
Qed.


(** The key of the wrapper object, the empty string, is never redacted. *)
Lemma sensitiveKey_root (redactedWord : jsvalue) :
  invalidRedactedWord redactedWord = false ->
  sensitiveKey redactedWord (u "") = false.
Proof.
  intros Hvalid; apply invalidRedactedWord_false in Hvalid.
  destruct Hvalid as [-> | (w & -> & Hw)]; [reflexivity |].
  destruct w; [contradiction | reflexivity].
Qed.

Lemma jsvalue_height_ind (P : jsvalue -> Prop) :
  (forall v, (forall x, (height x < height v)%nat -> P x) -> P v) ->
  forall v, P v.
Proof.
  intros H v; remember (height v) as n eqn:Hn; revert v Hn.
  induction n as [n IH] using (well_founded_induction Wf_nat.lt_wf).
  intros v ->; apply H; intros x Hx; apply (IH (height x) Hx); reflexivity.
Qed.

(** *** The redacted value *)

Lemma redactValue_array (redactedWord : jsvalue) (elements : list jsvalue) :
  redactValue redactedWord (VArray elements) =
    VArray (mapIndex
              (fun index x => redactMember redactedWord (decimal index) x)
              0 elements).
Proof. reflexivity. Qed.

Lemma redactValue_object (redactedWord : jsvalue)
    (properties : list (jsstring * jsvalue)) :
  JSON.hasToJSON (VObject properties) = false ->
  redactValue redactedWord (VObject properties) =
    VObject (List.map
               (fun p => (fst p, redactMember redactedWord (fst p) (snd p)))
               properties).
Proof.
  intros H.
  change (redactValue redactedWord (VObject properties))
    with (if JSON.hasToJSON (VObject properties) then VObject properties
          else VObject
                 (List.map
                    (fun p =>
                       (fst p, redactMember redactedWord (fst p) (snd p)))
                    properties)).
  rewrite H; reflexivity.
Qed.

Lemma redactValue_toJSON (redactedWord v : jsvalue) :
  JSON.hasToJSON v = true -> redactValue redactedWord v = v.
Proof.
  intros H; destruct v as [| | b | n | s | l | ps | f | d | z];
    try discriminate H.
  change (redactValue redactedWord (VObject ps))
    with (if JSON.hasToJSON (VObject ps) then VObject ps
          else VObject
                 (List.map
                    (fun p =>
                       (fst p, redactMember redactedWord (fst p) (snd p)))
                    ps)).
  rewrite H; reflexivity.
Qed.

Lemma isCallable_redactValue (redactedWord v : jsvalue) :
  isCallable (redactValue redactedWord v) = isCallable v.
Proof.
  destruct v as [| | b | n | s | l | ps | f | d | z]; try reflexivity.
  destruct (JSON.hasToJSON (VObject ps)) eqn:H;
    [rewrite redactValue_toJSON | rewrite redactValue_object];
    trivial.
Qed.

Lemma omitted_redactValue (redactedWord v : jsvalue) :
  omitted (redactValue redactedWord v) = omitted v.
Proof.
  destruct v as [| | b | n | s | l | ps | f | d | z]; try reflexivity.
  destruct (JSON.hasToJSON (VObject ps)) eqn:H;
    [rewrite redactValue_toJSON | rewrite redactValue_object];
    trivial.
Qed.

Lemma isCallable_redactMember (redactedWord : jsvalue) (key : jsstring)
    (x : jsvalue) :
  isCallable (redactMember redactedWord key x) = true -> isCallable x = true.
Proof.
  unfold redactMember; destruct (JSON.hasToJSON x); [trivial |].
  unfold replacer; destruct (sensitiveKey redactedWord key); [discriminate |].
  rewrite isCallable_redactValue; trivial.
Qed.

Lemma hasToJSON_redactValue (redactedWord v : jsvalue) :
  JSON.hasToJSON (redactValue redactedWord v) = JSON.hasToJSON v.
Proof.
  destruct (JSON.hasToJSON v) eqn:H;
    [rewrite redactValue_toJSON; assumption |].
  destruct v as [| | b | n | s | l | ps | f | d | z]; try reflexivity.
  rewrite redactValue_object by exact H.
  cbn [JSON.hasToJSON] in *.
  induction ps as [|[k x] ps IH]; [reflexivity |].
  cbn [List.map existsb fst snd] in *.
  apply orb_false_elim in H as [Hx Hps].
  rewrite (IH Hps), orb_false_r.
  destruct (eqb k (u "toJSON")); [| reflexivity].
  cbn [andb] in *.
  destruct (isCallable (redactMember redactedWord k x)) eqn:E; [| reflexivity].
  apply isCallable_redactMember in E; congruence.
Qed.

Lemma height_replacer (redactedWord : jsvalue) (key : jsstring) (v : jsvalue) :
  (height (replacer redactedWord key v) <= height v)%nat.
Proof. unfold replacer; destruct (sensitiveKey _ _); simpl; lia. Qed.

Lemma height_mapIndex (f : N -> jsvalue -> jsvalue) (l : list jsvalue)
    (index : N) :
  (forall i x, In x l -> (height (f i x) <= height x)%nat) ->
  (fold_right (fun x acc => Nat.max (height x) acc) 0 (mapIndex f index l)
   <= fold_right (fun x acc => Nat.max (height x) acc) 0 l)%nat.
Proof.
  revert index; induction l as [|x l IH]; intros index H; [reflexivity |].
  cbn [mapIndex fold_right].
  specialize (IH (index + 1) (fun i y Hy => H i y (or_intror Hy))).
  specialize (H index x (or_introl eq_refl)); lia.
Qed.

Lemma height_map (f : jsstring -> jsvalue -> jsvalue)
    (ps : list (jsstring * jsvalue)) :
  (forall k x, In (k, x) ps -> (height (f k x) <= height x)%nat) ->
  (fold_right (fun p acc => Nat.max (height (snd p)) acc) 0
     (List.map (fun p => (fst p, f (fst p) (snd p))) ps)
   <= fold_right (fun p acc => Nat.max (height (snd p)) acc) 0 ps)%nat.
Proof.
  induction ps as [|[k x] ps IH]; intros H; [reflexivity |].
  cbn [List.map fold_right fst snd].
  specialize (IH (fun k' y Hy => H k' y (or_intror Hy))).
  specialize (H k x (or_introl eq_refl)); lia.
Qed.

(** The redacted value is no deeper than the value. *)
Lemma height_redactValue (redactedWord v : jsvalue) :
  (height (redactValue redactedWord v) <= height v)%nat.
Proof.
  induction v as [v IH] using jsvalue_height_ind.
  assert (Hmember : forall key x,
             (height x < height v)%nat ->
             (height (redactMember redactedWord key x) <= height x)%nat).
  { intros key x Hx; unfold redactMember.
    destruct (JSON.hasToJSON x); [lia |].
    pose proof (height_replacer redactedWord key (redactValue redactedWord x)).
    specialize (IH x Hx); lia. }
  destruct (JSON.hasToJSON v) eqn:Hj; [rewrite redactValue_toJSON by exact Hj; lia |].
  destruct v as [| | b | n | s | l | ps | f | d | z]; try (cbn; lia).
  - rewrite redactValue_array; cbn [height]; apply le_n_S.
    apply height_mapIndex; intros i x Hin.
    apply Hmember, height_element, Hin.
  - rewrite redactValue_object by exact Hj; cbn [height]; apply le_n_S.
    apply (height_map (redactMember redactedWord)); intros k x Hin.
    apply Hmember, (height_member k), Hin.
Qed.

Section Redaction.

Variable redactedWord : jsvalue.
Variable gap : jsstring.

Local Abbreviation withReplacer :=
  (JSON.SerializeJSONProperty (Some (replacer redactedWord)) gap).
Local Abbreviation plain := (JSON.SerializeJSONProperty None gap).

Lemma items_redact (fuel : nat) (indent : jsstring) (elements : list jsvalue)
    (index : N) :
  (forall ind key v,
      withReplacer fuel ind key v =
        plain fuel ind key (redactMember redactedWord key v)) ->
  JSON.items (withReplacer fuel) indent index elements =
    JSON.items (plain fuel) indent index
      (mapIndex
         (fun index x => redactMember redactedWord (decimal index) x)
         index elements).
Proof.
  intros IH; revert index; induction elements as [|x l IHl]; intros index;
    cbn [JSON.items mapIndex]; [reflexivity |].
  rewrite IH, IHl; reflexivity.
Qed.

Lemma members_redact (fuel : nat) (indent : jsstring)
    (properties : list (jsstring * jsvalue)) :
  (forall ind key v,
      withReplacer fuel ind key v =
        plain fuel ind key (redactMember redactedWord key v)) ->
  JSON.members gap (withReplacer fuel) indent properties =
    JSON.members gap (plain fuel) indent
      (List.map
         (fun p => (fst p, redactMember redactedWord (fst p) (snd p)))
         properties).
Proof.
  intros IH; induction properties as [|[k x] l IHl];
    cbn [JSON.members List.map fst snd]; [reflexivity |].
  rewrite IH, IHl; reflexivity.
Qed.

(** Serializing with the replacer is serializing the redacted value
    without one, with any fuel. *)
Lemma SerializeJSONProperty_redact (fuel : nat) (indent key : jsstring)
    (v : jsvalue) :
  withReplacer fuel indent key v =
    plain fuel indent key (redactMember redactedWord key v).
Proof.
  revert indent key v; induction fuel as [|fuel IH]; intros indent key v;
    [reflexivity |].
  cbn [JSON.SerializeJSONProperty]; unfold redactMember.
  destruct (JSON.hasToJSON v) eqn:Hj.
  { unfold JSON.serializeValue; rewrite Hj; reflexivity. }
  unfold JSON.serializeValue at 1; rewrite Hj; unfold replacer.
  destruct (sensitiveKey redactedWord key); [reflexivity |].
  unfold JSON.serializeValue; rewrite hasToJSON_redactValue, Hj.
  destruct v as [| | [|] | n | s | elements | properties | f | d | z];
    try reflexivity.
  - rewrite redactValue_array; unfold JSON.SerializeJSONArray.
    rewrite (items_redact fuel _ _ 0 IH); reflexivity.
  - rewrite redactValue_object by exact Hj; unfold JSON.SerializeJSONObject.
    rewrite (members_redact fuel _ _ IH); reflexivity.
Qed.

End Redaction.

Lemma mapIndex_app {A B : Type} (f : N -> A -> B) (index : N)
    (before : list A) (x : A) (after : list A) :
  mapIndex f index (before ++ x :: after) =
    mapIndex f index before
      ++ f (index + N.of_nat (length before)) x
      :: mapIndex f (index + N.of_nat (length before) + 1) after.
Proof.
  revert index; induction before as [|y l IH]; intros index.
  - simpl; rewrite N.add_0_r; reflexivity.
  - cbn [app mapIndex length]; rewrite IH.
    replace (index + 1 + N.of_nat (length l))
      with (index + N.of_nat (S (length l))) by lia.
    reflexivity.
Qed.

(** At the key of the wrapper object, the empty string, there is no
    redaction. *)
Lemma redactMember_root (redactedWord obj : jsvalue) :
  invalidRedactedWord redactedWord = false ->
  redactMember redactedWord (u "") obj = redactValue redactedWord obj.
Proof.
  intros Hvalid; unfold redactMember.
  destruct (JSON.hasToJSON obj) eqn:Hj;
    [rewrite redactValue_toJSON by exact Hj; reflexivity |].
  unfold replacer; rewrite (sensitiveKey_root _ Hvalid); reflexivity.
Qed.

Lemma safeStringify_redact (fuel : nat) (obj redactedWord : jsvalue) :
  invalidRedactedWord redactedWord = false ->
  safeStringify fuel obj redactedWord =
    JSON.stringify fuel (redactValue redactedWord obj) None 2.
Proof.
  intros Hvalid; unfold safeStringify, JSON.stringify; rewrite Hvalid.
  rewrite SerializeJSONProperty_redact.
  change (@nil N) with (u "") at 2.
  rewrite (redactMember_root _ _ Hvalid); reflexivity.
Qed.

Lemma safeStringify_invalid (fuel : nat) (obj redactedWord : jsvalue) :
  invalidRedactedWord redactedWord = true ->
  safeStringify fuel obj redactedWord = Some (Throw invalidArgument).
Proof. intros H; unfold safeStringify; rewrite H; reflexivity. Qed.

(** The two exceptions of [safeStringify]: the one of line 87, and the
    one of [JSON.stringify] for a BigInt. *)
Lemma safeStringify_throws (fuel : nat) (obj redactedWord : jsvalue) (e : error) :
  safeStringify fuel obj redactedWord = Some (Throw e) ->
  (invalidRedactedWord redactedWord = true /\ e = invalidArgument)
  \/ (invalidRedactedWord redactedWord = false
      /\ e = JSON.bigIntError
      /\ serializable (redactValue redactedWord obj) = false).
Proof.
  destruct (invalidRedactedWord redactedWord) eqn:Hvalid.
  - rewrite safeStringify_invalid by exact Hvalid.
    intros H; injection H as <-; left; split; reflexivity.
  - rewrite safeStringify_redact by exact Hvalid; unfold JSON.stringify.
    destruct (JSON.SerializeJSONProperty None _ fuel [] [] _)
      as [[r | e'] |] eqn:Hser; cbn [JSON.andThen]; try discriminate.
    intros H; injection H as <-.
    apply SerializeJSONProperty_throws in Hser as [-> Hs].
    right; repeat split; exact Hs.
Qed.

(** Without a replacer, only [undefined], a function and a symbol are
    serialized to [undefined]. *)
Lemma SerializeJSONProperty_undefined (gap : jsstring) (fuel : nat)
    (indent key : jsstring) (v : jsvalue) :
  JSON.SerializeJSONProperty None gap fuel indent key v = Some (Return None) ->
  omitted v = true.
Proof.
  destruct fuel as [|fuel]; [discriminate |]; simpl.
  unfold JSON.serializeValue.
  destruct (JSON.hasToJSON v); [discriminate |].
  destruct v as [| | [|] | n | s | elements | properties | f | d | z];
    try discriminate; try reflexivity.
  - destruct (JSON.SerializeJSONArray _ _ _ _) as [[str | e] |]; discriminate.
  - destruct (JSON.SerializeJSONObject _ _ _ _) as [[str | e] |]; discriminate.
Qed.

Lemma safeStringify_string (fuel : nat) (obj redactedWord : jsvalue) :
  invalidRedactedWord redactedWord = false ->
  serializable (redactValue redactedWord obj) = true ->
  omitted obj = false ->
  (height obj < fuel)%nat ->
  exists s, safeStringify fuel obj redactedWord = Some (Return (VString s)).
Proof.
  intros Hvalid Hs Hobj Hfuel.
  rewrite safeStringify_redact by exact Hvalid; unfold JSON.stringify.
  destruct (SerializeJSONProperty_serializable
              (repeat 32 (N.to_nat (N.min 10 2))) fuel [] []
              (redactValue redactedWord obj) Hs)
    as (r & -> & Hr).
  { pose proof (height_redactValue redactedWord obj); lia. }
  rewrite omitted_redactValue, Hobj in Hr.
  destruct r as [s |]; [exists s; reflexivity |].
  destruct Hr as [Hr _]; discriminate (Hr eq_refl).
Qed.



Lemma decimal_not_includes (index : N) (c : N) (p : jsstring) :
  isDigit c = false -> includes (decimal index) (c :: p) = false.
Proof.
  intros Hc; destruct (includes _ _) eqn:H; [| reflexivity].
  apply includes_head in H.
  pose proof (decimal_digits index) as Hd.
  rewrite List.Forall_forall in Hd; rewrite (Hd _ H) in Hc; discriminate.
Qed.

(** *** One member or one element among the others *)

Section Members.

Variable gap : jsstring.
Variable rec : jsstring -> jsstring -> jsvalue -> JSON.outcome JSON.serialized.

Lemma members_replace (indent k : jsstring) (v1 v2 : jsvalue)
    (before after : list (jsstring * jsvalue)) :
  rec indent k v1 = rec indent k v2 ->
  JSON.members gap rec indent (before ++ (k, v1) :: after)
  = JSON.members gap rec indent (before ++ (k, v2) :: after).
Proof.
  intros H; induction before as [|[k' v'] before IH]; cbn [app JSON.members].
  - rewrite H; reflexivity.
  - rewrite IH; reflexivity.
Qed.

Lemma members_skip (indent k : jsstring) (v : jsvalue)
    (before after : list (jsstring * jsvalue)) :
  rec indent k v = Some (Return None) ->
  JSON.members gap rec indent (before ++ (k, v) :: after)
  = JSON.members gap rec indent (before ++ after).
Proof.
  intros H; induction before as [|[k' v'] before IH]; cbn [app JSON.members].
  - rewrite H; cbn [JSON.andThen].
    destruct (JSON.members gap rec indent after) as [[partial | e] |];
      reflexivity.
  - rewrite IH; reflexivity.
Qed.

Lemma items_replace (indent : jsstring) (v1 v2 : jsvalue)
    (before after : list jsvalue) (index : N) :
  itemText (rec indent (decimal (index + N.of_nat (length before))) v1)
  = itemText (rec indent (decimal (index + N.of_nat (length before))) v2) ->
  JSON.items rec indent index (before ++ v1 :: after)
  = JSON.items rec indent index (before ++ v2 :: after).
Proof.
  revert index; induction before as [|v' before IH]; intros index H;
    cbn [app JSON.items].
  - cbn [length N.of_nat] in H; rewrite N.add_0_r in H.
    destruct (rec indent (decimal index) v1) as [[[s1 |] | e1] |],
             (rec indent (decimal index) v2) as [[[s2 |] | e2] |];
      cbn [itemText JSON.andThen] in H; try discriminate H;
      try (injection H as ->); reflexivity.
  - rewrite (IH (index + 1)); [reflexivity |].
    replace (index + 1 + N.of_nat (length before))
      with (index + N.of_nat (length (v' :: before)))
      by (cbn [length]; lia).
    exact H.
Qed.



End Members.

Lemma isCallable_plug (c : context) (a b : jsvalue) :
  isCallable a = isCallable b -> isCallable (plug c a) = isCallable (plug c b).
Proof. destruct c; trivial. Qed.

Lemma hasToJSON_member (before after : list (jsstring * jsvalue))
    (k : jsstring) (a b : jsvalue) :
  isCallable a = isCallable b ->
  JSON.hasToJSON (VObject (before ++ (k, a) :: after))
  = JSON.hasToJSON (VObject (before ++ (k, b) :: after)).
Proof.
  intros H; cbn [JSON.hasToJSON]; rewrite !existsb_app.
  cbn [existsb fst snd]; rewrite H; reflexivity.
Qed.

Section Congruence.

Variable redactedWord : jsvalue.
Variable gap : jsstring.

(** What is asked of the fuel for a value: nothing, or enough for its
    depth. *)
Variable guard : jsvalue -> nat -> Prop.
Hypothesis guard_member :
  forall k x ps fuel,
    In (k, x) ps -> guard (VObject ps) (S fuel) -> guard x fuel.
Hypothesis guard_element :
  forall x l fuel, In x l -> guard (VArray l) (S fuel) -> guard x fuel.

Local Abbreviation serial :=
  (JSON.SerializeJSONProperty (Some (replacer redactedWord)) gap).

(** Two values with the same serialization have it at every place of a
    value. *)
Lemma plug_congruence (a b : jsvalue) :
  isCallable a = isCallable b ->
  (forall fuel indent key,
      guard a fuel -> serial fuel indent key a = serial fuel indent key b) ->
  forall c fuel indent key,
    guard (plug c a) fuel ->
    serial fuel indent key (plug c a) = serial fuel indent key (plug c b).
Proof.
  intros Hcall Hab c; induction c as [| bef k c IH aft | bef c IH aft];
    intros fuel indent key Hfuel; cbn [plug] in *.
  - apply Hab; exact Hfuel.
  - destruct fuel as [|fuel]; [reflexivity |].
    cbn [JSON.SerializeJSONProperty]; unfold JSON.serializeValue.
    rewrite (hasToJSON_member bef aft k (plug c a) (plug c b))
      by (apply isCallable_plug; exact Hcall).
    destruct (JSON.hasToJSON _); [reflexivity |].
    unfold replacer.
    destruct (sensitiveKey redactedWord key); [reflexivity |].
    unfold JSON.SerializeJSONObject.
    rewrite (members_replace gap _ _ k (plug c a) (plug c b)); [reflexivity |].
    apply IH, (guard_member k _ (bef ++ (k, plug c a) :: aft));
      [apply in_or_app; right; left; reflexivity | exact Hfuel].
  - destruct fuel as [|fuel]; [reflexivity |].
    cbn [JSON.SerializeJSONProperty]; unfold JSON.serializeValue, replacer.
    cbn [JSON.hasToJSON].
    destruct (sensitiveKey redactedWord key); [reflexivity |].
    unfold JSON.SerializeJSONArray.
    rewrite (items_replace _ _ (plug c a) (plug c b)); [reflexivity |].
    f_equal; apply IH, (guard_element _ (bef ++ plug c a :: aft));
      [apply in_or_app; right; left; reflexivity | exact Hfuel].
Qed.

End Congruence.

Lemma safeStringify_congruence (redactedWord a b : jsvalue) (c : context)
    (fuel : nat) :
  isCallable a = isCallable b ->
  (forall gap fuel indent key,
      (height a < fuel)%nat ->
      JSON.SerializeJSONProperty (Some (replacer redactedWord)) gap fuel indent key a
      = JSON.SerializeJSONProperty (Some (replacer redactedWord)) gap fuel indent key b) ->
  (height (plug c a) < fuel)%nat ->
  safeStringify fuel (plug c a) redactedWord
  = safeStringify fuel (plug c b) redactedWord.
Proof.
  intros Hcall Hab Hfuel; unfold safeStringify, JSON.stringify.
  destruct (invalidRedactedWord redactedWord); [reflexivity |].
  rewrite (plug_congruence redactedWord _ (fun v fuel => (height v < fuel)%nat)
             ltac:(intros k x ps f Hin H; cbv beta in *;
                   pose proof (height_member _ _ _ Hin); lia)
             ltac:(intros x l f Hin H; cbv beta in *;
                   pose proof (height_element _ _ Hin); lia)
             a b Hcall (Hab _) c fuel [] [] Hfuel).
  reflexivity.
Qed.


(** *** The text of a member inside the text of the value *)









(** C5, as the code has it: [safeStringify] throws the error of line 87
    exactly when [redactedWord] is given and is not a string with
    something left after trimming, with any fuel, so before the
    serializer takes a step.  The only other exception is the TypeError
    of [JSON.stringify] for a BigInt, with a valid word and a redacted
    value that is not serializable; on a serializable one nothing is
    thrown; and [env] and [safeArray] throw nothing. *)
Theorem safeStringify_invalid_argument
    (fuel : nat) (obj redactedWord : jsvalue) :
  (safeStringify fuel obj redactedWord = Some (Throw invalidArgument)
   <-> redactedWord <> VUndefined
       /\ ~ (exists w, redactedWord = VString w /\ trim w <> u ""))
  /\ (forall e, safeStringify fuel obj redactedWord = Some (Throw e) ->
                e = invalidArgument
                \/ (e = JSON.bigIntError
                    /\ invalidRedactedWord redactedWord = false
                    /\ serializable (redactValue redactedWord obj) = false))
  /\ (invalidRedactedWord redactedWord = false ->
      serializable (redactValue redactedWord obj) = true ->
      forall e, safeStringify fuel obj redactedWord <> Some (Throw e))
  /\ (forall process_env key defaultValue e,
        env process_env key defaultValue <> Throw e)
  /\ (forall args e, safeArray args <> Throw e).
Proof.
  split; [| split; [| split; [| split]]].
  - split.
    + intros H; apply safeStringify_throws in H as [[H _] | (_ & H & _)];
        [| discriminate H].
      split.
      * intros ->; discriminate.
      * intros Hw.
        assert (Hf : invalidRedactedWord redactedWord = false)
          by (apply invalidRedactedWord_false; right; exact Hw).
        congruence.
    + intros [Hu Hw]; apply safeStringify_invalid.
      destruct (invalidRedactedWord redactedWord) eqn:Hinv; [reflexivity |].
      apply invalidRedactedWord_false in Hinv as [H | H]; contradiction.
  - intros e H; apply safeStringify_throws in H as [[_ H] | (Hv & H & Hs)];
      [left; exact H | right; repeat split; assumption].
  - intros Hvalid Hs e H.
    apply safeStringify_throws in H as [[H _] | (_ & _ & H)]; congruence.
  - intros process_env key defaultValue e H.
    destruct (env_returns process_env key defaultValue) as [v Hv]; congruence.
  - intros args e H.
    destruct (safeArray_returns args) as [l Hl]; congruence.
Qed.

Lemma safeStringify_invalid_argument_witness :
  safeStringify 0 (VObject []) (VString (u "   ")) = Some (Throw invalidArgument)
  /\ safeStringify 0 (VObject []) (VString (u "")) = Some (Throw invalidArgument)
  /\ safeStringify 0 (VObject []) VNull = Some (Throw invalidArgument).
Proof.
  split; [| split].
  - apply (safeStringify_invalid_argument 0 (VObject []) (VString (u "   "))).
    split; [discriminate |].
    intros (w & H & Hw); injection H as <-; apply Hw; reflexivity.
  - apply (safeStringify_invalid_argument 0 (VObject []) (VString (u ""))).
    split; [discriminate |].
    intros (w & H & Hw); injection H as <-; apply Hw; reflexivity.
  - apply (safeStringify_invalid_argument 0 (VObject []) VNull).
    split; [discriminate |].
    intros (w & H & Hw); discriminate.
Defined.

(** C5 as stated fails in its last part: with a valid word and without
    a circular reference, a BigInt in the value makes [JSON.stringify]
    throw a TypeError, which [safeStringify] lets through. *)
Lemma safeStringify_bigint_counterexample :
  safeStringify 2 (VObject [(u "id", VBigInt 10)]) (VString (u "KEY"))
  = Some (Throw (TypeError (u "Do not know how to serialize a BigInt")))
  /\ ~ (forall fuel obj redactedWord e,
           safeStringify fuel obj redactedWord = Some (Throw e) ->
           e = invalidArgument).
Proof.
  split; [vm_compute; reflexivity |].
  intros H.
  specialize (H 2%nat (VObject [(u "id", VBigInt 10)]) (VString (u "KEY"))
                (TypeError (u "Do not know how to serialize a BigInt"))
                ltac:(vm_compute; reflexivity)).
  discriminate H.
Qed.




(** C10: the replacer is also called on the elements of an array, with
    the decimal index as key.  With the word ["1"] the element at index 1
    of [["a", "b"]] is replaced by the marker; the serialization of an
    array is that of its elements after the replacer; [SECRET] and
    [PASSWORD] occur in no index, so that without a word no element is
    replaced. *)
Theorem safeStringify_redacts_array_elements :
  safeStringify 2 (VArray [VString (u "a"); VString (u "b")]) (VString (u "1"))
  = Some (Return (VString
      (lines [u "[";
              u "  " ++ quoted "a" ++ u ",";
              u "  " ++ quoted "[REDACTED]";
              u "]"])))
  /\ safeStringify 2 (VArray [VString (u "a"); VString (u "b")]) VUndefined
     = Some (Return (VString
         (lines [u "[";
                 u "  " ++ quoted "a" ++ u ",";
                 u "  " ++ quoted "b";
                 u "]"])))
  /\ (forall redactedWord gap fuel indent elements,
        JSON.SerializeJSONArray gap
          (JSON.SerializeJSONProperty (Some (replacer redactedWord)) gap fuel)
          indent elements
        = JSON.SerializeJSONArray gap
            (JSON.SerializeJSONProperty None gap fuel) indent
            (mapIndex
               (fun index x => redactMember redactedWord (decimal index) x)
               0 elements))
  /\ (forall redactedWord index x,
        JSON.hasToJSON x = false ->
        redactMember redactedWord (decimal index) x
        = replacer redactedWord (decimal index) (redactValue redactedWord x))
  /\ (forall index,
        includes (decimal index) (u "SECRET") = false
        /\ includes (decimal index) (u "PASSWORD") = false)
  /\ (forall index x, replacer VUndefined (decimal index) x = x).
Proof.
  split; [vm_compute; reflexivity |].
  split; [vm_compute; reflexivity |].
  split; [| split; [| split]].
  - intros redactedWord gap fuel indent elements.
    unfold JSON.SerializeJSONArray.
    rewrite (items_redact redactedWord gap fuel _ _ 0); [reflexivity |].
    intros; apply SerializeJSONProperty_redact.
  - intros redactedWord index x H; unfold redactMember; rewrite H; reflexivity.
  - intros index; split; apply decimal_not_includes; reflexivity.
  - intros index x; unfold replacer, sensitiveKey.
    change (u "SECRET") with (83 :: u "ECRET").
    change (u "PASSWORD") with (80 :: u "ASSWORD").
    rewrite !decimal_not_includes by reflexivity; reflexivity.
Qed.

(** ** The examples of the documentation and of the tests *)

(** The example in the documentation of [safeStringify]. *)
Example safeStringify_documentation :
  let data :=
    VObject [(u "username", VString (u "nasr"));
             (u "PASSWORD", VString (u "secret123"));
             (u "API_KEY", VString (u "abc123"))] in
  safeStringify 2 data VUndefined
  = Some (Return (VString
      (lines [u "{";
              u "  " ++ quoted "username" ++ u ": " ++ quoted "nasr" ++ u ",";
              u "  " ++ quoted "PASSWORD" ++ u ": " ++ quoted "[REDACTED]" ++ u ",";
              u "  " ++ quoted "API_KEY" ++ u ": " ++ quoted "abc123";
              u "}"])))
  /\ safeStringify 2 data (VString (u "KEY"))
     = Some (Return (VString
         (lines [u "{";
                 u "  " ++ quoted "username" ++ u ": " ++ quoted "nasr" ++ u ",";
                 u "  " ++ quoted "PASSWORD" ++ u ": " ++ quoted "[REDACTED]" ++ u ",";
                 u "  " ++ quoted "API_KEY" ++ u ": " ++ quoted "[REDACTED]";
                 u "}"]))).
Proof. split; vm_compute; reflexivity. Qed.

(** "should stringify regular objects normally": the text is parsed back
    to the object. *)
Example safeStringify_regular_object :
  let testObj :=
    VObject [(u "name", VString (u "test"));
             (u "value", VNumber (Num.ofN 123));
             (u "nested", VObject [(u "foo", VString (u "bar"))])] in
  let text :=
    lines [u "{";
           u "  " ++ quoted "name" ++ u ": " ++ quoted "test" ++ u ",";
           u "  " ++ quoted "value" ++ u ": 123,";
           u "  " ++ quoted "nested" ++ u ": {";
           u "    " ++ quoted "foo" ++ u ": " ++ quoted "bar";
           u "  }";
           u "}"] in
  safeStringify 3 testObj VUndefined = Some (Return (VString text))
  /\ JSON.parse text = Return testObj.
Proof. split; vm_compute; reflexivity. Qed.

(** "should redact values with PASSWORD in the key", with its nested
    object. *)
Example safeStringify_nested_password :
  let text :=
    lines [u "{";
           u "  " ++ quoted "user" ++ u ": " ++ quoted "nasr" ++ u ",";
           u "  " ++ quoted "PASSWORD" ++ u ": " ++ quoted "[REDACTED]" ++ u ",";
           u "  " ++ quoted "DB_PASSWORD" ++ u ": " ++ quoted "[REDACTED]" ++ u ",";
           u "  " ++ quoted "nested" ++ u ": {";
           u "    " ++ quoted "USER_PASSWORD" ++ u ": " ++ quoted "[REDACTED]";
           u "  }";
           u "}"] in
  safeStringify 3
    (VObject [(u "user", VString (u "nasr"));
              (u "PASSWORD", VString (u "12345"));
              (u "DB_PASSWORD", VString (u "db-pass"));
              (u "nested",
               VObject [(u "USER_PASSWORD", VString (u "secret-pass"))])])
    VUndefined
  = Some (Return (VString text))
  /\ JSON.parse text =
       Return
         (VObject [(u "user", VString (u "nasr"));
                   (u "PASSWORD", VString REDACTED);
                   (u "DB_PASSWORD", VString REDACTED);
                   (u "nested",
                    VObject [(u "USER_PASSWORD", VString REDACTED)])]).
Proof. split; vm_compute; reflexivity. Qed.

(** "should handle null and undefined values": the member that is
    [undefined] is left out, [null] is kept. *)
Example safeStringify_null_and_undefined :
  safeStringify 2
    (VObject [(u "nullValue", VNull);
              (u "undefinedValue", VUndefined);
              (u "API_SECRET", VString (u "secret"))])
    VUndefined
  = Some (Return (VString
      (lines [u "{";
              u "  " ++ quoted "nullValue" ++ u ": null,";
              u "  " ++ quoted "API_SECRET" ++ u ": " ++ quoted "[REDACTED]";
              u "}"]))).
Proof. vm_compute; reflexivity. Qed.

(** A sensitive key is written with the marker even when its value is
    [undefined] or an array. *)
Example safeStringify_any_value :
  safeStringify 2
    (VObject [(u "SECRET", VUndefined);
              (u "PASSWORDS", VArray [VBool true; VNull])])
    VUndefined
  = Some (Return (VString
      (lines [u "{";
              u "  " ++ quoted "SECRET" ++ u ": " ++ quoted "[REDACTED]" ++ u ",";
              u "  " ++ quoted "PASSWORDS" ++ u ": " ++ quoted "[REDACTED]";
              u "}"]))).
Proof. vm_compute; reflexivity. Qed.

(** The boolean words in any case, and the JSON texts of the
    specification. *)
Example env_booleans_and_json (defaultValue : jsvalue) :
  let process_env : gmap jsstring jsstring :=
    <[u "A" := u "TRUE"]>
      (<[u "B" := u "True"]>
         (<[u "C" := u "FALSE"]>
            (<[u "D" := u "[1,2,3]"]>
               (<[u "E" := u "{" ++ quoted "a" ++ u ":1}"]> ∅)))) in
  env process_env (u "A") defaultValue = Return (VBool true)
  /\ env process_env (u "B") defaultValue = Return (VBool true)
  /\ env process_env (u "C") defaultValue = Return (VBool false)
  /\ env process_env (u "D") defaultValue
     = Return (VArray [VNumber (Num.ofN 1); VNumber (Num.ofN 2);
                       VNumber (Num.ofN 3)])
  /\ env process_env (u "E") defaultValue
     = Return (VObject [(u "a", VNumber (Num.ofN 1))]).
Proof. repeat split; vm_compute; reflexivity. Qed.

(** The comma-separated strings in the documentation of [safeArray]. *)
Example safeArray_documentation :
  safeArray (VString (u "1, 2, 3"))
  = Return (VArray [VString (u "1"); VString (u "2"); VString (u "3")])
  /\ safeArray (VString (u "apple,banana, orange"))
     = Return (VArray [VString (u "apple"); VString (u "banana");
                       VString (u "orange")])
  /\ safeArray (VString (u " , ,")) = Return (VArray [])
  /\ safeArray (VNumber (Num.ofN 42)) = Return (VArray [VNumber (Num.ofN 42)]).
Proof. repeat split. Qed.

(** * Further properties *)

(** ** Words in any case *)

Ltac nbool :=
  repeat match goal with
    | H : (_ <=? _) = true |- _ => apply N.leb_le in H
    | H : (_ <=? _) = false |- _ => apply N.leb_gt in H
    | H : (_ <? _) = true |- _ => apply N.ltb_lt in H
    | H : (_ <? _) = false |- _ => apply N.ltb_ge in H
    | H : (_ =? _) = true |- _ => apply N.eqb_eq in H
    | H : (_ =? _) = false |- _ => apply N.eqb_neq in H
    end.

Lemma lowerUnit_cases (c : N) :
  (65 <= c <= 90 /\ lowerUnit c = [c + 32])
  \/ (192 <= c /\ lowerUnit c = [c + 32])
  \/ (c = 8490 /\ lowerUnit c = [107])
  \/ (c = 304 /\ lowerUnit c = [105; 775])
  \/ (~ 65 <= c <= 90 /\ lowerUnit c = [c]).
Proof.
  unfold lowerUnit.
  destruct (65 <=? c) eqn:H1, (c <=? 90) eqn:H2; cbn [andb];
    try (left; nbool; split; [lia | reflexivity]).
  all: destruct (192 <=? c) eqn:H3, (c <=? 222) eqn:H4, (c =? 215) eqn:H5;
    cbn [andb negb];
    try (right; left; nbool; split; [lia | reflexivity]).
  all: destruct (c =? 8490) eqn:H6;
    try (right; right; left; nbool; split; [lia | reflexivity]).
  all: destruct (c =? 304) eqn:H7;
    try (right; right; right; left; nbool; split; [lia | reflexivity]).
  all: right; right; right; right; nbool; split; [lia | reflexivity].
Qed.

(** For a word of ASCII lower-case letters without [k], the strings
    that [toLowerCase] maps to it are its variants in case. *)
Lemma toLowerCase_word (s w : jsstring) :
  Forall (fun l => 97 <= l <= 122 /\ l <> 107) w ->
  toLowerCase s = w <-> caseVariant s w.
Proof.
  intros Hw; revert s; induction Hw as [|l w [Hl Hk] Hw IH]; intros s.
  - split.
    + intros H; destruct s as [|c s]; [constructor |].
      unfold toLowerCase in H; cbn [flat_map] in H.
      destruct (lowerUnit_cases c) as [[_ E] | [[_ E] | [[_ E] | [[_ E] | [_ E]]]]];
        rewrite E in H; discriminate.
    + intros H; inversion H; reflexivity.
  - split.
    + intros H; destruct s as [|c s]; [discriminate |].
      unfold toLowerCase in H; cbn [flat_map] in H.
      destruct (lowerUnit_cases c) as [[Hc E] | [[Hc E] | [[Hc E] | [[Hc E] | [Hc E]]]]];
        rewrite E in H; cbn [app] in H; injection H as Hhead Htail.
      * constructor; [right; exact Hhead | apply IH; exact Htail].
      * lia.
      * lia.
      * subst; inversion Hw as [|? ? [Hl' _] _]; lia.
      * constructor; [left; exact Hhead | apply IH; exact Htail].
    + intros H; inversion H as [|c l' s' w' Hc Hs]; subst.
      unfold toLowerCase; cbn [flat_map].
      apply IH in Hs; unfold toLowerCase in Hs; rewrite Hs.
      destruct (lowerUnit_cases c) as [[Hc' E] | [[Hc' E] | [[Hc' E] | [[Hc' E] | [Hc' E]]]]];
        rewrite E; cbn [app]; destruct Hc as [Hc | Hc]; f_equal; lia.
Qed.

Lemma word_true : Forall (fun l => 97 <= l <= 122 /\ l <> 107) (u "true").
Proof. repeat constructor; (lia || discriminate). Qed.

Lemma word_false : Forall (fun l => 97 <= l <= 122 /\ l <> 107) (u "false").
Proof. repeat constructor; (lia || discriminate). Qed.

Lemma caseVariant_not_json (s w : jsstring) (l : N) :
  97 <= l <= 122 -> caseVariant s (l :: w) ->
  s <> u "" /\ looksLikeJSON s = false.
Proof.
  intros Hl H; inversion H as [|c l' s' w' Hc Hs]; subst.
  split; [discriminate |].
  unfold looksLikeJSON; cbn [startsWith u List.map list_ascii_of_string].
  replace (c =? N_of_ascii "{") with false
    by (symmetry; apply N.eqb_neq; cbn; lia).
  replace (c =? N_of_ascii "[") with false
    by (symmetry; apply N.eqb_neq; cbn; lia).
  reflexivity.
Qed.

(** ** isBoolean *)

(** [isBoolean] always returns a boolean, and [true] exactly for the
    boolean [true] and for the strings that are the word [true] in any
    mix of upper and lower case. *)
Theorem isBoolean_accepts (value : jsvalue) :
  exists b,
    isBoolean value = Return (VBool b)
    /\ (b = true <->
        value = VBool true
        \/ exists s, value = VString s /\ caseVariant s (u "true")).
Proof.
  destruct value as [| | b | n | s | l | ps | f | d | z];
    try (exists false; split; [reflexivity |];
         split; [discriminate | intros [H | (s & H & _)]; discriminate]).
  - exists b; split; [reflexivity |]; split.
    + intros ->; left; reflexivity.
    + intros [H | (s & H & _)]; [congruence | discriminate].
  - exists (eqb (toLowerCase s) (u "true")); split; [reflexivity |].
    rewrite eqb_eq, (toLowerCase_word _ _ word_true); split.
    + intros H; right; exists s; split; [reflexivity | exact H].
    + intros [H | (s' & H & Hs)]; [discriminate | congruence].
Qed.

(** ** env, isEnvVarDefined and validateRequiredEnv *)

(** The words [true] and [false] in any mix of upper and lower case are
    returned as booleans, and [env] returns [true] on every string that
    [isBoolean] accepts. *)
Theorem env_boolean_words
    (process_env : gmap jsstring jsstring) (key s : jsstring)
    (defaultValue : jsvalue) :
  key <> u "" ->
  process_env !! key = Some s ->
  (caseVariant s (u "true") ->
   env process_env key defaultValue = Return (VBool true))
  /\ (caseVariant s (u "false") ->
      env process_env key defaultValue = Return (VBool false))
  /\ (isBoolean (VString s) = Return (VBool true) ->
      env process_env key defaultValue = Return (VBool true)).
Proof.
  intros Hkey Hget.
  assert (Htrue : caseVariant s (u "true") ->
                  env process_env key defaultValue = Return (VBool true)).
  { intros H.
    destruct (caseVariant_not_json s (u "rue") 116) as [Hs Hj]; [lia | exact H |].
    apply (toLowerCase_word _ _ word_true) in H.
    rewrite (env_found _ _ s) by assumption.
    unfold envTry; rewrite Hj, H; reflexivity. }
  split; [exact Htrue | split].
  - intros H.
    destruct (caseVariant_not_json s (u "alse") 102) as [Hs Hj]; [lia | exact H |].
    apply (toLowerCase_word _ _ word_false) in H.
    rewrite (env_found _ _ s) by assumption.
    unfold envTry; rewrite Hj, H; reflexivity.
  - intros H; apply Htrue.
    apply (toLowerCase_word _ _ word_true), eqb_eq.
    change (isBoolean (VString s))
      with (Return (VBool (eqb (toLowerCase s) (u "true")))) in H.
    injection H as H; exact H.
Qed.

Lemma env_boolean_words_witness :
  env (<[u "DEBUG" := u "tRuE"]> scenario) (u "DEBUG") VNull
    = Return (VBool true).
Proof.
  destruct (env_boolean_words (<[u "DEBUG" := u "tRuE"]> scenario)
              (u "DEBUG") (u "tRuE") VNull) as (H & _ & _).
  - discriminate.
  - vm_compute; reflexivity.
  - apply H.
    repeat (constructor; [(left; reflexivity) || (right; reflexivity) |]).
    constructor.
Defined.

Lemma inheritedMethod_inherited (key : jsstring) :
  inheritedMethod key -> inherited key.
Proof.
  intros H; unfold inherited, ObjectPrototype.members.
  rewrite map_app, map_map; apply in_or_app; left; exact H.
Qed.

Lemma isEnvVarDefined_spec (process_env : gmap jsstring jsstring)
    (key : jsstring) :
  isEnvVarDefined process_env key = true <-> hasValue process_env key.
Proof.
  unfold isEnvVarDefined, hasValue, lookupEnv.
  destruct key as [|c key]; cbn [isEmpty].
  { split; [discriminate | intros [H _]; contradiction]. }
  destruct (process_env !! (c :: key)) as [[|c' s] |].
  - split; [discriminate |].
    intros (_ & [(s & H & Hs) | (H & _)]); [| discriminate H].
    injection H as <-; contradiction.
  - split; [| reflexivity].
    intros _; split; [discriminate |]; left; exists (c' :: s); split;
      [reflexivity | discriminate].
  - destruct (get_cases (c :: key)) as [[-> Hn] | [(f & -> & Hf) | [-> Hk]]].
    + split; [discriminate |].
      intros (_ & [(s & H & _) | (_ & H)]); [discriminate H | contradiction].
    + split; [| reflexivity].
      intros _; split; [discriminate |]; right; split; [reflexivity |].
      apply inheritedMethod_inherited, (inheritedMethod_In _ f), Hf.
    + split; [| reflexivity].
      intros _; split; [discriminate |]; right; split; [reflexivity |].
      rewrite Hk; unfold inherited, ObjectPrototype.members.
      rewrite map_app; apply in_or_app; right; left; reflexivity.
Qed.

Lemma not_hasValue (process_env : gmap jsstring jsstring) (key : jsstring) :
  ~ hasValue process_env key ->
  key = u ""
  \/ (process_env !! key = None /\ ~ inherited key)
  \/ process_env !! key = Some (u "").
Proof.
  intros H; destruct key as [|c key]; [left; reflexivity | right].
  destruct (process_env !! (c :: key)) as [[|c' s] |] eqn:Hget; auto.
  - exfalso; apply H; split; [discriminate |].
    left; exists (c' :: s); split; [exact Hget | discriminate].
  - left; split; [reflexivity |].
    intros Hin; apply H; split; [discriminate | right; split; trivial].
Qed.

Lemma env_without_value (process_env : gmap jsstring jsstring)
    (key : jsstring) (defaultValue : jsvalue) :
  ~ hasValue process_env key ->
  env process_env key defaultValue = Return defaultValue.
Proof.
  intros H; destruct (not_hasValue _ _ H) as [-> | [[H1 H2] | H']];
    [reflexivity | | apply env_not_found; right; exact H'].
  apply env_not_found; left; split; [exact H1 |].
  intros Hm; apply H2, inheritedMethod_inherited, Hm.
Qed.

(** [isEnvVarDefined] holds exactly for a key that is not empty and
    gives something in the source, a variable with a value that is not
    empty or, without a variable of that name, an inherited member; and
    where it does not hold [env] returns the default. *)
Theorem env_of_undefined_variable
    (process_env : gmap jsstring jsstring) (key : jsstring) :
  (isEnvVarDefined process_env key = true <-> hasValue process_env key)
  /\ (isEnvVarDefined process_env key = false ->
      forall defaultValue,
        env process_env key defaultValue = Return defaultValue).
Proof.
  split; [apply isEnvVarDefined_spec |].
  intros H defaultValue; apply env_without_value.
  intros Hv; apply isEnvVarDefined_spec in Hv; congruence.
Qed.

Lemma env_of_undefined_variable_witness :
  env scenario (u "HOST") (VBool false) = Return (VBool false).
Proof.
  apply (proj2 (env_of_undefined_variable scenario (u "HOST"))).
  vm_compute; reflexivity.
Defined.

(** For a defined variable whose value does not look like JSON, the
    result of [env] does not depend on the default. *)
Theorem env_default_unused
    (process_env : gmap jsstring jsstring) (key s : jsstring)
    (d1 d2 : jsvalue) :
  isEnvVarDefined process_env key = true ->
  process_env !! key = Some s ->
  looksLikeJSON s = false ->
  env process_env key d1 = env process_env key d2.
Proof.
  intros Hdef Hget Hj.
  apply isEnvVarDefined_spec in Hdef
    as (Hkey & [(s' & Hget' & Hs) | (Hnone & _)]); [| congruence].
  rewrite Hget in Hget'; injection Hget' as <-.
  rewrite !(env_found _ _ s) by assumption.
  unfold envTry; rewrite Hj.
  destruct (eqb (toLowerCase s) (u "true")); [reflexivity |].
  destruct (eqb (toLowerCase s) (u "false")); [reflexivity |].
  destruct (Num.isNaN (Num.Number s)); reflexivity.
Qed.

Lemma env_default_unused_witness :
  env scenario (u "TAGS") VNull = env scenario (u "TAGS") (VBool true).
Proof.
  apply (env_default_unused scenario (u "TAGS") (u "a,b,c")).
  - vm_compute; reflexivity.
  - vm_compute; reflexivity.
  - reflexivity.
Defined.

Lemma filter_nil_iff {A : Type} (f : A -> bool) (l : list A) :
  List.filter f l = [] <-> Forall (fun x => f x = false) l.
Proof.
  induction l as [|x l IH]; simpl.
  - split; [constructor | reflexivity].
  - destruct (f x) eqn:Hx; split.
    + discriminate.
    + intros H; inversion H; congruence.
    + intros H; constructor; [exact Hx | apply IH; exact H].
    + intros H; inversion H; apply IH; assumption.
Qed.

Lemma validateRequiredEnv_isValid (process_env : gmap jsstring jsstring)
    (required : list jsstring) :
  isValid (validateRequiredEnv process_env required) = true
  <-> missing (validateRequiredEnv process_env required) = [].
Proof.
  cbn [validateRequiredEnv isValid missing].
  rewrite Nat.eqb_eq; destruct (List.filter _ required); simpl; split;
    congruence || discriminate.
Qed.

(** The validation succeeds exactly when every required key is not
    empty and gives something in the source (a variable with a value
    that is not empty, or an inherited member), and exactly when nothing
    is reported missing. *)
Theorem validateRequiredEnv_valid_iff
    (process_env : gmap jsstring jsstring) (required : list jsstring) :
  (isValid (validateRequiredEnv process_env required) = true
   <-> Forall (hasValue process_env) required)
  /\ (isValid (validateRequiredEnv process_env required) = true
      <-> missing (validateRequiredEnv process_env required) = []).
Proof.
  split; [| apply validateRequiredEnv_isValid].
  rewrite validateRequiredEnv_isValid; cbn [validateRequiredEnv missing].
  rewrite filter_nil_iff; split; intros H;
    (eapply List.Forall_impl; [| exact H]); cbv beta; intros key Hkey.
  - apply isEnvVarDefined_spec; destruct (isEnvVarDefined _ _);
      [reflexivity | discriminate].
  - apply isEnvVarDefined_spec in Hkey; rewrite Hkey; reflexivity.
Qed.

Lemma filter_sublist {A : Type} (f : A -> bool) (l : list A) :
  sublist (List.filter f l) l.
Proof.
  induction l as [|x l IH]; simpl; [constructor |].
  destruct (f x); [apply sublist_skip | apply sublist_cons]; exact IH.
Qed.

Lemma missing_In (process_env : gmap jsstring jsstring)
    (required : list jsstring) (key : jsstring) :
  In key (missing (validateRequiredEnv process_env required))
  <-> In key required /\ ~ hasValue process_env key.
Proof.
  cbn [validateRequiredEnv missing].
  rewrite filter_In, <- isEnvVarDefined_spec.
  destruct (isEnvVarDefined process_env key); simpl; intuition congruence.
Qed.

(** The missing keys are the required keys without a value, in the order
    and with the repetitions of [required]: the list that any test of
    "has no value" filters out of [required]; and [env] returns the
    default for each of them. *)
Theorem validateRequiredEnv_missing
    (process_env : gmap jsstring jsstring) (required : list jsstring) :
  (forall noValue : jsstring -> bool,
      (forall key, noValue key = true <-> ~ hasValue process_env key) ->
      missing (validateRequiredEnv process_env required)
      = List.filter noValue required)
  /\ sublist (missing (validateRequiredEnv process_env required)) required
  /\ (forall key,
        In key (missing (validateRequiredEnv process_env required))
        <-> In key required /\ ~ hasValue process_env key)
  /\ (forall key defaultValue,
        In key (missing (validateRequiredEnv process_env required)) ->
        env process_env key defaultValue = Return defaultValue).
Proof.
  split; [| split; [apply filter_sublist | split; [apply missing_In |]]].
  - intros noValue Hno; cbn [validateRequiredEnv missing].
    apply filter_ext; intros key.
    specialize (Hno key); rewrite <- isEnvVarDefined_spec in Hno.
    destruct (isEnvVarDefined process_env key), (noValue key);
      try reflexivity; cbn [negb].
    + destruct Hno as [Hno _]; exfalso; apply (Hno eq_refl); reflexivity.
    + destruct Hno as [_ Hno]; symmetry; apply Hno; discriminate.
  - intros key defaultValue H.
    apply env_without_value, (missing_In _ required), H.
Qed.

Lemma validateRequiredEnv_missing_witness :
  env scenario (u "HOST") VNull = Return VNull.
Proof.
  destruct (validateRequiredEnv_missing scenario [u "PORT"; u "HOST"])
    as (_ & _ & _ & H).
  apply H; vm_compute; left; reflexivity.
Defined.

Lemma isEnvVarDefined_insert (process_env : gmap jsstring jsstring)
    (key s k : jsstring) :
  key <> u "" -> s <> u "" ->
  isEnvVarDefined (<[key := s]> process_env) k
  = eqb k key || isEnvVarDefined process_env k.
Proof.
  intros Hkey Hs.
  destruct (eqb k key) eqn:Hk.
  - apply eqb_eq in Hk; subst k; cbn [orb].
    apply isEnvVarDefined_spec; split; [exact Hkey |].
    left; exists s; split; [apply lookup_insert_eq | exact Hs].
  - cbn [orb]; unfold isEnvVarDefined, lookupEnv.
    rewrite lookup_insert_ne; [reflexivity |].
    intros ->; rewrite (proj2 (eqb_eq k k) eq_refl) in Hk; discriminate.
Qed.

(** Giving a non-empty value to a non-empty key removes that key, and
    nothing else, from the missing keys. *)
Theorem validateRequiredEnv_insert
    (process_env : gmap jsstring jsstring) (key s : jsstring)
    (required : list jsstring) :
  key <> u "" -> s <> u "" ->
  missing (validateRequiredEnv (<[key := s]> process_env) required)
  = List.filter (fun k => negb (eqb k key))
      (missing (validateRequiredEnv process_env required)).
Proof.
  intros Hkey Hs; cbn [validateRequiredEnv missing].
  induction required as [|k required IH]; [reflexivity |].
  cbn [List.filter]; rewrite (isEnvVarDefined_insert _ _ _ _ Hkey Hs), IH.
  destruct (eqb k key) eqn:Hk; cbn [orb negb].
  - destruct (isEnvVarDefined process_env k); cbn [negb List.filter];
      [| rewrite Hk]; reflexivity.
  - destruct (isEnvVarDefined process_env k); cbn [negb List.filter];
      [| rewrite Hk]; reflexivity.
Qed.

Lemma validateRequiredEnv_insert_witness :
  missing (validateRequiredEnv (<[u "HOST" := u "localhost"]> scenario)
             [u "PORT"; u "HOST"; u "USER"])
  = List.filter (fun k => negb (eqb k (u "HOST")))
      (missing (validateRequiredEnv scenario [u "PORT"; u "HOST"; u "USER"])).
Proof.
  apply (validateRequiredEnv_insert scenario (u "HOST") (u "localhost"));
    discriminate.
Defined.

(** A list of required keys that contains the empty string is never
    valid, whatever the environment. *)
Theorem validateRequiredEnv_empty_key
    (process_env : gmap jsstring jsstring) (required : list jsstring) :
  In (u "") required ->
  isValid (validateRequiredEnv process_env required) = false
  /\ In (u "") (missing (validateRequiredEnv process_env required)).
Proof.
  intros Hin.
  assert (Hm : In (u "") (missing (validateRequiredEnv process_env required))).
  { apply missing_In; split; [exact Hin |].
    intros [H _]; contradiction. }
  split; [| exact Hm].
  destruct (isValid _) eqn:Hv; [| reflexivity].
  apply validateRequiredEnv_isValid in Hv; rewrite Hv in Hm; destruct Hm.
Qed.

Lemma validateRequiredEnv_empty_key_witness :
  isValid (validateRequiredEnv (<[u "" := u "x"]> scenario) [u "PORT"; u ""])
  = false.
Proof.
  apply (validateRequiredEnv_empty_key (<[u "" := u "x"]> scenario)
           [u "PORT"; u ""]).
  right; left; reflexivity.
Defined.

(** ** JSON.parse: the kind of the result *)

Lemma lexStep_extends (st st' : JSON.lexState) (c : N)
    (out out' : list JSON.token) :
  JSON.lexStep st c out = Some (st', out') -> exists new, out' = new ++ out.
Proof.
  assert (Hstart : forall o st1 o1,
             JSON.lexStart c o = Some (st1, o1) -> exists new, o1 = new ++ o).
  { intros o st1 o1; unfold JSON.lexStart.
    repeat match goal with
      | |- context [if ?b then _ else _] => destruct b
      end;
      intros H; try discriminate; injection H as <- <-;
      solve [exists []; reflexivity | eexists [_]; reflexivity]. }
  destruct st as [| acc | acc | acc hex | acc]; simpl.
  - apply Hstart.
  - repeat match goal with
      | |- context [if ?b then _ else _] => destruct b
      end;
      intros H; try discriminate; injection H as <- <-;
      solve [exists []; reflexivity | eexists [_]; reflexivity].
  - destruct (c =? 117); [intros H; injection H as <- <-; exists []; reflexivity |].
    destruct (JSON.escapedUnit c); intros H; [| discriminate].
    injection H as <- <-; exists []; reflexivity.
  - destruct (Num.isHexDigit c); [| discriminate].
    destruct (length hex =? 3)%nat; intros H; injection H as <- <-;
      exists []; reflexivity.
  - destruct (JSON.isWordUnit c);
      [intros H; injection H as <- <-; exists []; reflexivity |].
    destruct (JSON.wordToken (rev acc)) as [t |]; [| discriminate].
    intros H; apply Hstart in H as [new ->].
    exists (new ++ [t]); rewrite <- app_assoc; reflexivity.
Qed.

(** The tokens that were read stay at the front of the result. *)
Lemma lex_prefix (st : JSON.lexState) (input : jsstring)
    (out ts : list JSON.token) :
  JSON.lex st input out = Some ts -> exists ts', ts = rev out ++ ts'.
Proof.
  revert st out; induction input as [|c input IH]; intros st out; simpl.
  - destruct st; try discriminate.
    + intros H; injection H as <-; exists []; rewrite app_nil_r; reflexivity.
    + destruct (JSON.wordToken (rev acc)) as [t |]; [| discriminate].
      intros H; injection H as <-; exists [t]; reflexivity.
  - destruct (JSON.lexStep st c out) as [[st' out'] |] eqn:Hstep; [| discriminate].
    intros H; apply IH in H as [ts' ->].
    apply lexStep_extends in Hstep as [new ->].
    rewrite rev_app_distr, <- app_assoc; eauto.
Qed.

Lemma bottom_cons (f : JSON.frame) (stack : list JSON.frame) :
  stack <> [] -> bottom (f :: stack) = bottom stack.
Proof. destruct stack; [contradiction | reflexivity]. Qed.

Lemma complete_parsing (k : kind) (v : jsvalue) (stack : list JSON.frame)
    (f : JSON.frame) (st' : JSON.parseState) (stack' : list JSON.frame) :
  bottom stack = Some f -> frameKind f = k ->
  JSON.complete v stack = (st', stack') ->
  parsing k st' stack'.
Proof.
  intros Hb Hk; destruct stack as [|[es | ps key] stack]; [discriminate | |];
    cbn [JSON.complete]; intros H; injection H as <- <-; cbn [parsing].
  - destruct stack; [injection Hb as <- |];
      [exists (JSON.FArray (v :: es)) | exists f]; split; auto.
  - destruct stack; [injection Hb as <- |];
      [eexists (JSON.FObject _ key) | exists f]; split; auto.
Qed.

Lemma close_parsing (k : kind) (stack : list JSON.frame) (f : JSON.frame)
    (st' : JSON.parseState) (stack' : list JSON.frame) :
  bottom stack = Some f -> frameKind f = k ->
  JSON.close stack = Some (st', stack') ->
  parsing k st' stack'.
Proof.
  intros Hb Hk; destruct stack as [|top stack]; [discriminate |].
  destruct stack as [|next stack].
  - injection Hb as <-.
    destruct top; cbn; intros H; injection H as <- <-; subst k;
      split; reflexivity.
  - rewrite bottom_cons in Hb by discriminate.
    destruct top; cbn [JSON.close]; intros H.
    + apply (complete_parsing k (VArray (rev elements)) (next :: stack) f);
        [assumption | assumption | congruence].
    + apply (complete_parsing k (VObject properties) (next :: stack) f);
        [assumption | assumption | congruence].
Qed.

Lemma parseStep_parsing (k : kind) (st st' : JSON.parseState)
    (stack stack' : list JSON.frame) (t : JSON.token) :
  parsing k st stack ->
  JSON.parseStep st stack t = Some (st', stack') ->
  parsing k st' stack'.
Proof.
  intros Hp Hstep.
  destruct st as [mayClose | mayClose | | | v]; [| | | | discriminate];
    destruct Hp as (f & Hb & Hk).
  - assert (Hne : stack <> []) by (intros ->; discriminate).
    assert (Hc : forall v, Some (JSON.complete v stack) = Some (st', stack') ->
                           parsing k st' stack').
    { intros v H; apply (complete_parsing k v stack f);
        [assumption | assumption | congruence]. }
    destruct t; cbn [JSON.parseStep] in Hstep; try discriminate;
      try (eapply Hc; eassumption).
    + injection Hstep as <- <-; exists f; split; [| exact Hk].
      rewrite bottom_cons; assumption.
    + injection Hstep as <- <-; exists f; split; [| exact Hk].
      rewrite bottom_cons; assumption.
    + destruct mayClose; [| discriminate].
      eapply close_parsing; eassumption.
  - destruct t; cbn [JSON.parseStep] in Hstep;
      try (destruct stack as [|[|]]; discriminate).
    + destruct mayClose; [| destruct stack as [|[|]]; discriminate].
      apply (close_parsing k stack f); [assumption | assumption |].
      destruct stack as [|[|]]; exact Hstep.
    + destruct stack as [|[es | ps key] stack]; try discriminate.
      injection Hstep as <- <-.
      destruct stack; [injection Hb as <- |];
        [eexists (JSON.FObject ps s) | exists f]; split; auto.
  - destruct t; cbn [JSON.parseStep] in Hstep; try discriminate.
    injection Hstep as <- <-; exists f; split; assumption.
  - destruct stack as [|[es | ps key] stack]; [discriminate | |];
      destruct t; cbn [JSON.parseStep] in Hstep; try discriminate;
      try (injection Hstep as <- <-; exists f; split; assumption);
      eapply close_parsing; eassumption.
Qed.

Lemma parseTokens_kind (k : kind) (st : JSON.parseState)
    (stack : list JSON.frame) (ts : list JSON.token) (v : jsvalue) :
  parsing k st stack ->
  JSON.parseTokens st stack ts = Some v ->
  kindOf v = Some k.
Proof.
  revert st stack; induction ts as [|t ts IH]; intros st stack Hp; simpl.
  - destruct st; try discriminate.
    intros H; injection H as <-; apply Hp.
  - destruct (JSON.parseStep st stack t) as [[st' stack'] |] eqn:Hstep;
      [| discriminate].
    apply IH; eapply parseStep_parsing; eassumption.
Qed.

(** A text that begins with a brace is parsed to an object or not at
    all, and a text that begins with a bracket to an array or not at
    all. *)
Lemma parse_kind (s : jsstring) (v : jsvalue) :
  JSON.parse s = Return v ->
  (startsWith s (u "{") = true -> kindOf v = Some KObject)
  /\ (startsWith s (u "[") = true -> kindOf v = Some KArray).
Proof.
  unfold JSON.parse.
  destruct (JSON.lex JSON.LStart s []) as [ts |] eqn:Hlex; [| discriminate].
  destruct (JSON.parseTokens _ _ ts) as [v' |] eqn:Hparse; [| discriminate].
  intros H; injection H as ->.
  split; intros Hs; apply startsWith_spec in Hs as [rest ->];
    cbn in Hlex; apply lex_prefix in Hlex as [ts' ->];
    cbn in Hparse;
    (eapply parseTokens_kind; [| exact Hparse]);
    eexists; split; reflexivity.
Qed.

(** ** env: the kinds of results *)

Lemma looksLikeJSON_start (s : jsstring) :
  looksLikeJSON s = true ->
  startsWith s (u "{") = true \/ startsWith s (u "[") = true.
Proof.
  unfold looksLikeJSON; intros H; apply orb_prop in H as [H | H];
    apply andb_prop in H as [H _]; auto.
Qed.

(** A value that looks like JSON gives the object or the array that
    [JSON.parse] returns, an object for a text in braces and an array for
    a text in brackets, or the default when [JSON.parse] throws; nothing
    else. *)
Theorem env_json_value
    (process_env : gmap jsstring jsstring) (key s : jsstring)
    (defaultValue : jsvalue) :
  key <> u "" ->
  process_env !! key = Some s ->
  looksLikeJSON s = true ->
  (exists v,
      JSON.parse s = Return v
      /\ env process_env key defaultValue = Return v
      /\ kindOf v
         = Some (if startsWith s (u "{") then KObject else KArray))
  \/ (exists e,
         JSON.parse s = Throw e
         /\ env process_env key defaultValue = Return defaultValue).
Proof.
  intros Hkey Hget Hj.
  rewrite (env_found _ _ s);
    [| exact Hkey | apply looksLikeJSON_not_empty; exact Hj | exact Hget].
  rewrite envTry_json by exact Hj.
  destruct (JSON.parse s) as [v | e] eqn:Hparse; [left | right].
  - exists v; repeat split.
    destruct (parse_kind s v Hparse) as [Hobj Harr].
    destruct (startsWith s (u "{")) eqn:Hs; [apply Hobj; reflexivity |].
    apply Harr; destruct (looksLikeJSON_start s Hj); congruence.
  - exists e; split; reflexivity.
Qed.

Lemma env_json_value_witness :
  (exists v,
      JSON.parse (u "[1,2,3]") = Return v
      /\ env (<[u "IDS" := u "[1,2,3]"]> scenario) (u "IDS") VNull = Return v
      /\ kindOf v = Some KArray)
  \/ (exists e,
         JSON.parse (u "[1,2,3]") = Throw e
         /\ env (<[u "IDS" := u "[1,2,3]"]> scenario) (u "IDS") VNull
            = Return VNull).
Proof.
  apply (env_json_value (<[u "IDS" := u "[1,2,3]"]> scenario) (u "IDS")
           (u "[1,2,3]") VNull).
  - discriminate.
  - vm_compute; reflexivity.
  - reflexivity.
Defined.

(** A value that is not empty, does not look like JSON, is neither of
    the boolean words in any case and is not numeric is returned as it
    is. *)
Theorem env_raw_string
    (process_env : gmap jsstring jsstring) (key s : jsstring)
    (defaultValue : jsvalue) :
  key <> u "" ->
  process_env !! key = Some s ->
  s <> u "" ->
  looksLikeJSON s = false ->
  ~ caseVariant s (u "true") ->
  ~ caseVariant s (u "false") ->
  Num.isNaN (Num.Number s) = true ->
  env process_env key defaultValue = Return (VString s).
Proof.
  intros Hkey Hget Hs Hj Ht Hf Hn.
  rewrite (env_found _ _ s) by assumption.
  unfold envTry; rewrite Hj, Hn.
  destruct (eqb (toLowerCase s) (u "true")) eqn:Et.
  { apply eqb_eq, (toLowerCase_word _ _ word_true) in Et; contradiction. }
  destruct (eqb (toLowerCase s) (u "false")) eqn:Ef.
  { apply eqb_eq, (toLowerCase_word _ _ word_false) in Ef; contradiction. }
  reflexivity.
Qed.

Lemma env_raw_string_witness :
  env scenario (u "TAGS") VNull = Return (VString (u "a,b,c")).
Proof.
  apply (env_raw_string scenario (u "TAGS") (u "a,b,c") VNull).
  - discriminate.
  - vm_compute; reflexivity.
  - discriminate.
  - reflexivity.
  - intros H; inversion H as [|? ? ? ? [E | E] _]; discriminate E.
  - intros H; inversion H as [|? ? ? ? [E | E] _]; discriminate E.
  - reflexivity.
Defined.

(** Whatever the source, the key and the default, [env] returns the
    default, a boolean, a number that is not [NaN], an array, an object,
    the value of the variable itself as a string, or, for a key without
    a variable that names a method of [Object.prototype], that method;
    so never [NaN], [null] or [undefined] unless that is the default. *)
Theorem env_result_cases
    (process_env : gmap jsstring jsstring) (key : jsstring)
    (defaultValue v : jsvalue) :
  env process_env key defaultValue = Return v ->
  v = defaultValue
  \/ (exists b, v = VBool b)
  \/ (exists n, v = VNumber n /\ Num.isNaN n = false)
  \/ (exists l, v = VArray l)
  \/ (exists ps, v = VObject ps)
  \/ (exists s, v = VString s /\ process_env !! key = Some s)
  \/ (exists f,
         v = VFunction f
         /\ process_env !! key = None
         /\ In (key, f) ObjectPrototype.methods).
Proof.
  unfold env; destruct (isEmpty key) eqn:Hkey.
  { intros H; injection H as <-; auto. }
  unfold lookupEnv; destruct (process_env !! key) as [s |] eqn:Hget.
  2:{ destruct (get_cases key) as [[-> _] | [(f & -> & Hf) | [-> _]]];
        cbn; intros H; injection H as <-; eauto 12. }
  destruct s as [|c s]; [intros H; injection H as <-; auto |].
  cbn [isUndefined isString eqb orb]; unfold envTry.
  destruct (looksLikeJSON (c :: s)) eqn:Hj.
  - unfold when, seq.
    destruct (JSON.parse (c :: s)) as [v' | e] eqn:Hparse; cbn;
      intros H; injection H as <-; [| auto].
    destruct (parse_kind _ _ Hparse) as [Hobj Harr].
    destruct (looksLikeJSON_start _ Hj) as [Hs | Hs];
      [apply Hobj in Hs | apply Harr in Hs];
      destruct v'; try discriminate Hs; eauto 10.
  - destruct (eqb (toLowerCase (c :: s)) (u "true"));
      [intros H; injection H as <-; eauto |].
    destruct (eqb (toLowerCase (c :: s)) (u "false"));
      [intros H; injection H as <-; eauto |].
    destruct (Num.isNaN (Num.Number (c :: s))) eqn:Hn;
      intros H; injection H as <-; eauto 10.
Qed.

Lemma env_result_cases_witness :
  VNumber (Num.ofN 8080) = VNull
  \/ (exists b, VNumber (Num.ofN 8080) = VBool b)
  \/ (exists n, VNumber (Num.ofN 8080) = VNumber n /\ Num.isNaN n = false)
  \/ (exists l, VNumber (Num.ofN 8080) = VArray l)
  \/ (exists ps, VNumber (Num.ofN 8080) = VObject ps)
  \/ (exists s, VNumber (Num.ofN 8080) = VString s
                /\ scenario !! u "PORT" = Some s)
  \/ (exists f,
         VNumber (Num.ofN 8080) = VFunction f
         /\ scenario !! u "PORT" = None
         /\ In (u "PORT", f) ObjectPrototype.methods).
Proof.
  apply (env_result_cases scenario (u "PORT") VNull (VNumber (Num.ofN 8080))).
  vm_compute; reflexivity.
Defined.

(** ** env: integers *)

Lemma valueOfDigits_acc (d : Decimal.uint) (acc : positive) :
  fold_left (fun a c => a * 10 + digitValue c) (digitsOfUint d) (N.pos acc)
  = N.pos (Pos.of_uint_acc d acc).
Proof.
  revert acc; induction d; intros acc;
    cbn [digitsOfUint fold_left Pos.of_uint_acc]; [reflexivity | ..];
    rewrite <- IHd; f_equal;
    match goal with
    | |- context [digitValue ?c] =>
        let v := eval vm_compute in (digitValue c) in
        change (digitValue c) with v
    end;
    lia.
Qed.

Lemma valueOfDigits_uint (d : Decimal.uint) :
  valueOfDigits 10 (digitsOfUint d) = Pos.of_uint d.
Proof.
  unfold valueOfDigits; induction d;
    cbn [digitsOfUint fold_left Pos.of_uint]; [reflexivity | exact IHd | ..];
    match goal with
    | |- context [digitValue ?c] =>
        let v := eval vm_compute in (0 * 10 + digitValue c) in
        change (0 * 10 + digitValue c) with v
    end;
    apply valueOfDigits_acc.
Qed.

Lemma valueOfDigits_decimal (n : N) : valueOfDigits 10 (decimal n) = n.
Proof.
  unfold decimal; rewrite valueOfDigits_uint; apply DecimalN.Unsigned.of_to.
Qed.

Lemma decimal_not_nil (n : N) : decimal n <> [].
Proof.
  unfold decimal; destruct n as [|p]; [discriminate |].
  cbn [N.to_uint]; pose proof (DecimalPos.Unsigned.to_uint_nonnil p) as H.
  destruct (Pos.to_uint p); [contradiction | discriminate ..].
Qed.

Lemma isDigit_range (c : N) : isDigit c = true <-> 48 <= c <= 57.
Proof.
  unfold isDigit; rewrite andb_true_iff, !N.leb_le; reflexivity.
Qed.

Lemma isDigit_not_space (c : N) : isDigit c = true -> isWhiteSpace c = false.
Proof.
  intros H; apply isDigit_range in H.
  destruct (isWhiteSpace c) eqn:E; [| reflexivity].
  unfold isWhiteSpace in E.
  repeat (apply orb_prop in E as [E | E]);
    try (apply andb_prop in E as [E _]); nbool; lia.
Qed.

(** A string without white space at its ends is its own [trim]. *)
Lemma trim_id (s : jsstring) :
  noLeadingSpace s -> noLeadingSpace (rev s) -> trim s = s.
Proof.
  intros H1 H2; unfold trim, trimEnd.
  assert (Hs : forall t, noLeadingSpace t -> trimStart t = t).
  { intros [|c t]; simpl; [reflexivity | intros ->; reflexivity]. }
  rewrite (Hs s H1), (Hs (rev s) H2); apply rev_involutive.
Qed.

Lemma digits_noLeadingSpace (s : jsstring) :
  Forall (fun c => isDigit c = true) s -> noLeadingSpace s.
Proof.
  intros H; destruct s as [|c s]; [exact I |].
  inversion H; subst; apply isDigit_not_space; assumption.
Qed.

Lemma span_all (p : N -> bool) (s : jsstring) :
  Forall (fun c => p c = true) s -> span p s = (s, []).
Proof.
  induction 1 as [|c s Hc Hs IH]; simpl; [reflexivity |].
  rewrite Hc, IH; reflexivity.
Qed.

(** [Number] on the decimal digits of a natural number is that number. *)
Lemma Number_decimal (n : N) : Num.Number (decimal n) = Num.ofN n.
Proof.
  pose proof (decimal_digits n) as Hd.
  pose proof (decimal_not_nil n) as Hne.
  pose proof (valueOfDigits_decimal n) as Hv.
  assert (Hrev : Forall (fun c => isDigit c = true) (rev (decimal n)))
    by (apply Forall_rev; exact Hd).
  unfold Num.Number.
  rewrite trim_id by (apply digits_noLeadingSpace; assumption).
  destruct (decimal n) as [|c s] eqn:Hs; [contradiction |].
  cbn [isEmpty].
  pose proof (List.Forall_inv Hd) as Hc; cbv beta in Hc.
  pose proof (List.Forall_inv_tail Hd) as Hds.
  apply isDigit_range in Hc.
  assert (Hnd : Num.strNonDecimal (c :: s) = None).
  { unfold Num.strNonDecimal; destruct s as [|x ds]; [reflexivity |].
    pose proof (List.Forall_inv Hds) as Hx; cbv beta in Hx.
    apply isDigit_range in Hx.
    destruct (c =? 48); [| reflexivity].
    replace (x =? 120) with false by (symmetry; apply N.eqb_neq; lia).
    replace (x =? 88) with false by (symmetry; apply N.eqb_neq; lia).
    replace (x =? 111) with false by (symmetry; apply N.eqb_neq; lia).
    replace (x =? 79) with false by (symmetry; apply N.eqb_neq; lia).
    replace (x =? 98) with false by (symmetry; apply N.eqb_neq; lia).
    replace (x =? 66) with false by (symmetry; apply N.eqb_neq; lia).
    reflexivity. }
  rewrite Hnd.
  replace (c =? 43) with false by (symmetry; apply N.eqb_neq; lia).
  replace (c =? 45) with false by (symmetry; apply N.eqb_neq; lia).
  unfold Num.strUnsignedDecimal.
  replace (eqb (c :: s) (u "Infinity")) with false.
  2:{ cbn [eqb u List.map list_ascii_of_string].
      replace (c =? N_of_ascii "I") with false; [reflexivity |].
      symmetry; apply N.eqb_neq; cbn; lia. }
  rewrite (span_all isDigit (c :: s)) by (constructor; [apply isDigit_range |]; assumption).
  cbn [isEmpty andb Num.exponentPart length app].
  rewrite app_nil_r; unfold Num.ofDecimal; cbn [Z.of_nat Z.sub Z.leb Z.compare Z.opp Z.add Z.to_N].
  rewrite Hv; unfold Num.ofN; f_equal.
  change (10 ^ Z.to_N (0 - Z.of_nat 0)) with 1; lia.
Qed.

Lemma digits_not_word (s w : jsstring) (l : N) :
  Forall (fun c => isDigit c = true) s -> 97 <= l ->
  eqb (toLowerCase s) (l :: w) = false.
Proof.
  intros H Hl; destruct H as [|c s Hc Hs]; [reflexivity |].
  apply isDigit_range in Hc.
  unfold toLowerCase; cbn [flat_map].
  destruct (lowerUnit_cases c) as [[Hc' E] | [[Hc' E] | [[Hc' E] | [[Hc' E] | [Hc' E]]]]];
    try lia.
  rewrite E; cbn [app eqb].
  replace (c =? l) with false by (symmetry; apply N.eqb_neq; lia).
  reflexivity.
Qed.

Lemma digits_not_json (s : jsstring) :
  Forall (fun c => isDigit c = true) s -> looksLikeJSON s = false.
Proof.
  intros H; destruct H as [|c s Hc Hs]; [reflexivity |].
  apply isDigit_range in Hc.
  unfold looksLikeJSON; cbn [startsWith u List.map list_ascii_of_string].
  replace (c =? N_of_ascii "{") with false
    by (symmetry; apply N.eqb_neq; cbn; lia).
  replace (c =? N_of_ascii "[") with false
    by (symmetry; apply N.eqb_neq; cbn; lia).
  reflexivity.
Qed.

(** A variable whose value is the decimal writing of a natural number
    is read as that number, for every number up to [2^53], the numbers
    that a Number holds exactly. *)
Theorem env_decimal_integer
    (process_env : gmap jsstring jsstring) (key : jsstring) (n : N)
    (defaultValue : jsvalue) :
  key <> u "" ->
  n <= 2 ^ 53 ->
  process_env !! key = Some (decimal n) ->
  env process_env key defaultValue = Return (VNumber (Num.ofN n))
  /\ Num.Number (decimal n) = Num.ofN n.
Proof.
  intros Hkey Hn Hget; split; [| apply Number_decimal].
  pose proof (decimal_digits n) as Hd.
  rewrite (env_numeric _ _ (decimal n)); try assumption.
  - rewrite Number_decimal; reflexivity.
  - apply decimal_not_nil.
  - apply digits_not_json; exact Hd.
  - apply (digits_not_word _ (u "rue") 116); [exact Hd | lia].
  - apply (digits_not_word _ (u "alse") 102); [exact Hd | lia].
  - rewrite Number_decimal; reflexivity.
Qed.

Lemma env_decimal_integer_witness :
  env (<[u "TIMEOUT" := decimal 30000]> scenario) (u "TIMEOUT") VNull
    = Return (VNumber (Num.ofN 30000))
  /\ Num.Number (decimal 30000) = Num.ofN 30000.
Proof.
  apply (env_decimal_integer (<[u "TIMEOUT" := decimal 30000]> scenario)
           (u "TIMEOUT") 30000 VNull).
  - discriminate.
  - vm_compute; discriminate.
  - vm_compute; reflexivity.
Defined.

(** ** safeArray: the items of a string *)

Lemma trimStart_space (l x : jsstring) :
  allSpace l -> trimStart (l ++ x) = trimStart x.
Proof.
  induction 1 as [|c l Hc Hl IH]; simpl; [reflexivity |].
  rewrite Hc; exact IH.
Qed.

Lemma trimStart_id (x : jsstring) : noLeadingSpace x -> trimStart x = x.
Proof. destruct x as [|c x]; simpl; [reflexivity | intros ->; reflexivity]. Qed.

Lemma trimStart_allSpace (l : jsstring) : allSpace l -> trimStart l = [].
Proof.
  intros H; rewrite <- (app_nil_r l), trimStart_space; [reflexivity | exact H].
Qed.

Lemma allSpace_rev (l : jsstring) : allSpace l -> allSpace (rev l).
Proof. apply Forall_rev. Qed.

(** White space around a string without white space at its ends is what
    [trim] removes. *)
Lemma trim_pad (l m r : jsstring) :
  allSpace l -> allSpace r ->
  noLeadingSpace m -> noLeadingSpace (rev m) ->
  trim (l ++ m ++ r) = m.
Proof.
  intros Hl Hr Hm Hm'; unfold trim, trimEnd.
  rewrite trimStart_space by exact Hl.
  destruct m as [|c m].
  - cbn [app]; rewrite (trimStart_allSpace r Hr); reflexivity.
  - rewrite (trimStart_id ((c :: m) ++ r)) by exact Hm.
    rewrite rev_app_distr, trimStart_space by (apply allSpace_rev; exact Hr).
    rewrite trimStart_id by exact Hm'.
    apply rev_involutive.
Qed.

Lemma trimOf_incl (s t : jsstring) (c : N) : trimOf s t -> In c t -> In c s.
Proof.
  intros (pre & post & -> & _) H.
  apply in_or_app; right; apply in_or_app; left; exact H.
Qed.

Lemma split_without (a : jsstring) (sep : N) :
  ~ In sep a -> split a sep = [a].
Proof.
  induction a as [|c a IH]; intros H; simpl; [reflexivity |].
  destruct (N.eqb_spec c sep) as [-> | Hne]; [exfalso; apply H; left; reflexivity |].
  rewrite IH; [reflexivity | intros Hin; apply H; right; exact Hin].
Qed.

Lemma split_app (a b : jsstring) (sep : N) :
  ~ In sep a -> split (a ++ sep :: b) sep = a :: split b sep.
Proof.
  induction a as [|c a IH]; intros H; simpl.
  - rewrite N.eqb_refl; reflexivity.
  - destruct (N.eqb_spec c sep) as [-> | Hne];
      [exfalso; apply H; left; reflexivity |].
    rewrite IH; [reflexivity | intros Hin; apply H; right; exact Hin].
Qed.

Lemma allSpace_no_comma (l : jsstring) : allSpace l -> ~ In 44 l.
Proof.
  intros H Hin; unfold allSpace in H; rewrite List.Forall_forall in H.
  specialize (H _ Hin); discriminate H.
Qed.

Lemma cleanItem_trim (wl wr t : jsstring) :
  allSpace wl -> allSpace wr -> cleanItem t -> trim (wl ++ t ++ wr) = t.
Proof. intros Hl Hr (_ & _ & H1 & H2); apply trim_pad; assumption. Qed.

Lemma not_in_app3 (a b c : jsstring) (x : N) :
  ~ In x a -> ~ In x b -> ~ In x c -> ~ In x (a ++ b ++ c).
Proof.
  intros Ha Hb Hc H; apply in_app_or in H as [H | H]; [auto |].
  apply in_app_or in H as [H | H]; auto.
Qed.

(** White space around a string does not change what [trim] gives. *)
Lemma trim_around (l s r : jsstring) :
  allSpace l -> allSpace r -> trim (l ++ s ++ r) = trim s.
Proof.
  intros Hl Hr.
  destruct (trim_spec s) as (pre & post & E & Hpre & Hpost & H1 & H2).
  rewrite E at 1.
  replace (l ++ (pre ++ trim s ++ post) ++ r)
    with ((l ++ pre) ++ trim s ++ (post ++ r))
    by (rewrite <- !app_assoc; reflexivity).
  apply trim_pad; try assumption; apply Forall_app_2; assumption.
Qed.

Lemma split_join (segs : list jsstring) (sep : N) :
  segs <> [] -> Forall (fun seg => ~ In sep seg) segs ->
  split (join segs [sep]) sep = segs.
Proof.
  intros Hne H; induction H as [|x segs Hx Hsegs IH]; [contradiction |].
  destruct segs as [|y segs].
  - cbn [join]; apply split_without, Hx.
  - change (join (x :: y :: segs) [sep])
      with (x ++ sep :: join (y :: segs) [sep]).
    rewrite split_app by exact Hx.
    rewrite IH by discriminate; reflexivity.
Qed.

(** What is after the last separator gets what is appended. *)
Lemma split_snoc (t post : jsstring) (sep : N) :
  ~ In sep post ->
  exists init last,
    split t sep = init ++ [last]
    /\ split (t ++ post) sep = init ++ [last ++ post].
Proof.
  intros Hpost; induction t as [|c t (init & last & E1 & E2)].
  - exists [], []; split; [reflexivity | apply split_without, Hpost].
  - cbn [app split]; rewrite E1, E2.
    destruct (c =? sep).
    + exists ([] :: init), last; split; reflexivity.
    + destruct init as [|i init]; cbn [app].
      * exists [], (c :: last); split; reflexivity.
      * exists ((c :: i) :: init), last; split; reflexivity.
Qed.

(** What is before the first separator gets what is put in front. *)
Lemma split_prefix (pre x : jsstring) (sep : N) :
  ~ In sep pre ->
  exists hd tl,
    split x sep = hd :: tl /\ split (pre ++ x) sep = (pre ++ hd) :: tl.
Proof.
  intros Hpre; induction pre as [|c pre IH].
  - pose proof (split_not_nil x sep) as Hne.
    destruct (split x sep) as [|hd tl] eqn:E; [contradiction |].
    exists hd, tl; split; [reflexivity | exact E].
  - destruct IH as (hd & tl & E1 & E2);
      [intros H; apply Hpre; right; exact H |].
    exists hd, tl; split; [exact E1 |].
    cbn [app split]; rewrite E2.
    destruct (N.eqb_spec c sep) as [-> | _];
      [exfalso; apply Hpre; left |]; reflexivity.
Qed.

(** The trimmed segments of a string are those of the string between
    white space. *)
Lemma trim_split_around (pre t post : jsstring) :
  allSpace pre -> allSpace post ->
  List.map trim (split (pre ++ t ++ post) 44) = List.map trim (split t 44).
Proof.
  intros Hpre Hpost.
  destruct (split_snoc t post 44 (allSpace_no_comma _ Hpost))
    as (init & last & E1 & E2).
  destruct (split_prefix pre (t ++ post) 44 (allSpace_no_comma _ Hpre))
    as (hd & tl & E3 & E4).
  rewrite E4, E1; rewrite E2 in E3.
  destruct init as [|i init]; cbn [app] in E3; injection E3 as <- <-.
  - cbn [List.map app]; rewrite trim_around by assumption; reflexivity.
  - cbn [List.map app]; rewrite !map_app; cbn [List.map].
    rewrite <- (app_nil_r i) at 1.
    rewrite (trim_around pre i []) by (assumption || constructor).
    rewrite <- (app_nil_l (last ++ post)).
    rewrite (trim_around [] last post) by (assumption || constructor).
    reflexivity.
Qed.

Lemma cleanItem_filter (items : list jsstring) :
  Forall cleanItem items ->
  List.filter (fun item => negb (isEmpty item)) items = items.
Proof.
  induction 1 as [|x items [Hx _] _ IH]; simpl; [reflexivity |].
  destruct x; [contradiction |]; cbn [isEmpty negb]; rewrite IH; reflexivity.
Qed.

Lemma written_no_comma (padded : list (jsstring * jsstring * jsstring)) :
  Forall wellWritten padded ->
  Forall (fun seg => ~ In 44 seg) (List.map written padded).
Proof.
  induction 1 as [|[[l t] r] padded (Hl & (_ & Ht & _) & Hr) _ IH];
    cbn [List.map]; constructor; [| exact IH].
  apply not_in_app3;
    [apply allSpace_no_comma, Hl | exact Ht | apply allSpace_no_comma, Hr].
Qed.

Lemma written_trim (padded : list (jsstring * jsstring * jsstring)) :
  Forall wellWritten padded ->
  List.map trim (List.map written padded)
  = List.map (fun p => snd (fst p)) padded.
Proof.
  induction 1 as [|[[l t] r] padded (Hl & Ht & Hr) _ IH];
    cbn [List.map fst snd]; [reflexivity |].
  rewrite IH; unfold written; cbn [fst snd].
  rewrite (cleanItem_trim l r t Hl Hr Ht); reflexivity.
Qed.

(** [safeArray] gives back the items of a list written with commas,
    with any white space around each item: before and after each comma
    and around the whole. *)
Theorem safeArray_of_joined_items
    (padded : list (jsstring * jsstring * jsstring)) :
  Forall wellWritten padded ->
  safeArray (VString (join (List.map written padded) [44]))
  = Return (VArray (List.map (fun p => VString (snd (fst p))) padded)).
Proof.
  intros Hpadded; rewrite safeArray_string; cbv zeta.
  pose proof (written_trim padded Hpadded) as Htrim.
  pose proof (written_no_comma padded Hpadded) as Hsep.
  set (s := join (List.map written padded) [44]) in *.
  destruct (trim_spec s) as (pre & post & Es & Hpre & Hpost & _).
  destruct padded as [|p [|q padded]].
  - reflexivity.
  - cbn [List.map join] in *; injection Htrim as Htrim.
    unfold s; rewrite Htrim.
    apply List.Forall_inv in Hpadded as (_ & (Hne & Hcomma & _) & _).
    destruct (snd (fst p)) as [|c t] eqn:Et; [contradiction |].
    cbn [isEmpty].
    destruct (includes (c :: t) (u ",")) eqn:Hinc; [| reflexivity].
    apply (includes_unit _ 44) in Hinc; contradiction.
  - assert (Hin : In 44 (trim s)).
    { assert (H : In 44 s).
      { unfold s; cbn [List.map].
        change (join (written p :: written q :: List.map written padded) [44])
          with (written p ++ 44 :: join (written q :: List.map written padded) [44]).
        apply in_or_app; right; left; reflexivity. }
      rewrite Es in H; apply in_app_or in H as [H | H];
        [exfalso; exact (allSpace_no_comma _ Hpre H) |].
      apply in_app_or in H as [H | H]; [exact H |].
      exfalso; exact (allSpace_no_comma _ Hpost H). }
    destruct (trim s) as [|c t] eqn:Et; [destruct Hin |].
    cbn [isEmpty]; rewrite <- Et in *.
    apply (includes_unit _ 44) in Hin; change [44] with (u ",") in Hin.
    rewrite Hin.
    rewrite <- (trim_split_around pre (trim s) post Hpre Hpost), <- Es.
    unfold s; rewrite split_join by (discriminate || exact Hsep).
    rewrite Htrim, cleanItem_filter, map_map; [reflexivity |].
    clear -Hpadded; induction Hpadded as [|x l (_ & Hx & _) _ IH];
      cbn [List.map]; constructor; assumption.
Qed.

Lemma safeArray_of_joined_items_witness :
  safeArray (VString (u "a, b ,c"))
  = Return (VArray [VString (u "a"); VString (u "b"); VString (u "c")]).
Proof.
  apply (safeArray_of_joined_items
           [(u "", u "a", u ""); (u " ", u "b", u " "); (u "", u "c", u "")]).
  repeat constructor; try discriminate;
    intros H; repeat (destruct H as [H | H]; [discriminate H |]); exact H.
Defined.

(** The elements that [safeArray] returns for a string are strings that
    are not empty, have no comma and no white space at their ends. *)
Theorem safeArray_items_clean (str : jsstring) (elements : list jsvalue) :
  safeArray (VString str) = Return (VArray elements) ->
  Forall (fun e => exists t, e = VString t /\ cleanItem t) elements.
Proof.
  rewrite safeArray_string; cbv zeta; intros H; injection H as <-.
  destruct (trim_spec str) as (pre & post & _ & _ & _ & Ht & Ht').
  destruct (isEmpty (trim str)) eqn:He; [constructor |].
  destruct (includes (trim str) (u ",")) eqn:Hinc.
  - pose proof (split_no_sep (trim str) 44) as Hsep.
    induction Hsep as [|seg segs Hseg Hsegs IH]; [constructor |].
    cbn [List.map List.filter].
    destruct (isEmpty (trim seg)) eqn:Hs; cbn [negb List.map]; [exact IH |].
    constructor; [| exact IH].
    exists (trim seg); split; [reflexivity |].
    destruct (trim_spec seg) as (pre' & post' & E & _ & _ & H1 & H2).
    repeat split; try assumption.
    + intros Hn; rewrite Hn in Hs; discriminate.
    + intros Hin; apply Hseg.
      apply (trimOf_incl seg (trim seg)); [apply trim_spec | exact Hin].
  - constructor; [| constructor].
    exists (trim str); split; [reflexivity |]; repeat split; try assumption.
    + intros Hn; rewrite Hn in He; discriminate.
    + intros Hin; apply (includes_unit _ 44) in Hin.
      change [44] with (u ",") in Hin; congruence.
Qed.

Lemma safeArray_items_clean_witness :
  Forall (fun e => exists t, e = VString t /\ cleanItem t)
    [VString (u "a"); VString (u "b")].
Proof.
  apply (safeArray_items_clean (u " a,, b ,")).
  reflexivity.
Defined.

(** [safeArray] changes nothing in what it has returned. *)
Theorem safeArray_idempotent (args result : jsvalue) :
  safeArray args = Return result -> safeArray result = Return result.
Proof.
  intros H; destruct (safeArray_returns args) as [l Hl].
  rewrite Hl in H; injection H as <-; reflexivity.
Qed.

Lemma safeArray_idempotent_witness :
  safeArray (VArray [VString (u "a"); VString (u "b")])
  = Return (VArray [VString (u "a"); VString (u "b")]).
Proof.
  apply (safeArray_idempotent (VString (u "a, b"))).
  reflexivity.
Defined.

(** ** safeStringify: what is left out, what is kept *)

(** A member whose value is [undefined], under a key that is not
    sensitive, is left out: the result is that of the object without the
    member, at any place of the value. *)
Theorem safeStringify_undefined_member
    (fuel : nat) (redactedWord : jsvalue) (c : context)
    (before after : list (jsstring * jsvalue)) (key : jsstring) :
  sensitiveKey redactedWord key = false ->
  (height (plug c (VObject (before ++ (key, VUndefined) :: after))) < fuel)%nat ->
  safeStringify fuel
    (plug c (VObject (before ++ (key, VUndefined) :: after))) redactedWord
  = safeStringify fuel (plug c (VObject (before ++ after))) redactedWord.
Proof.
  intros Hkey Hfuel;
    apply safeStringify_congruence; [reflexivity | | exact Hfuel].
  clear fuel Hfuel; intros gap fuel indent k Hfuel.
  destruct fuel as [|f]; [lia |].
  assert (Hf : (0 < f)%nat) by (cbn [height] in Hfuel; lia).
  cbn [JSON.SerializeJSONProperty]; unfold JSON.serializeValue.
  assert (Hj : JSON.hasToJSON (VObject (before ++ (key, VUndefined) :: after))
               = JSON.hasToJSON (VObject (before ++ after))).
  { cbn [JSON.hasToJSON]; rewrite !existsb_app.
    cbn [existsb fst snd isCallable]; rewrite andb_false_r; reflexivity. }
  rewrite Hj; destruct (JSON.hasToJSON (VObject (before ++ after)));
    [reflexivity |].
  assert (Hrep : forall x,
             replacer redactedWord k x
             = if sensitiveKey redactedWord k then VString REDACTED else x)
    by reflexivity.
  rewrite !Hrep; destruct (sensitiveKey redactedWord k); [reflexivity |].
  unfold JSON.SerializeJSONObject; rewrite members_skip; [reflexivity |].
  destruct f as [|f]; [lia |].
  cbn [JSON.SerializeJSONProperty]; unfold JSON.serializeValue, replacer.
  cbn [JSON.hasToJSON]; rewrite Hkey; reflexivity.
Qed.

Lemma safeStringify_undefined_member_witness :
  safeStringify 3
    (VObject [(u "a", VObject [(u "gone", VUndefined); (u "kept", VNull)])])
    VUndefined
  = safeStringify 3 (VObject [(u "a", VObject [(u "kept", VNull)])]) VUndefined.
Proof.
  apply (safeStringify_undefined_member 3 VUndefined
           (InObject [] (u "a") Hole []) [] [(u "kept", VNull)] (u "gone")).
  - reflexivity.
  - cbn; lia.
Defined.

(** An element of an array that is [undefined] is written as [null] is:
    the result is that of the array with [null] in its place, at any
    place of the value. *)
Theorem safeStringify_undefined_element
    (fuel : nat) (redactedWord : jsvalue) (c : context)
    (before after : list jsvalue) :
  (height (plug c (VArray (before ++ VUndefined :: after))) < fuel)%nat ->
  safeStringify fuel (plug c (VArray (before ++ VUndefined :: after)))
    redactedWord
  = safeStringify fuel (plug c (VArray (before ++ VNull :: after)))
      redactedWord.
Proof.
  intros Hfuel; apply safeStringify_congruence; [reflexivity | | exact Hfuel].
  clear fuel Hfuel; intros gap fuel indent k Hfuel.
  destruct fuel as [|f]; [lia |].
  assert (Hf : (0 < f)%nat) by (cbn [height] in Hfuel; lia).
  cbn [JSON.SerializeJSONProperty]; unfold JSON.serializeValue.
  cbn [JSON.hasToJSON].
  assert (Hrep : forall x,
             replacer redactedWord k x
             = if sensitiveKey redactedWord k then VString REDACTED else x)
    by reflexivity.
  rewrite !Hrep; destruct (sensitiveKey redactedWord k); [reflexivity |].
  unfold JSON.SerializeJSONArray.
  rewrite (items_replace _ _ VUndefined VNull); [reflexivity |].
  destruct f as [|f]; [lia |].
  cbn [JSON.SerializeJSONProperty]; unfold JSON.serializeValue, replacer.
  cbn [JSON.hasToJSON].
  destruct (sensitiveKey redactedWord _); reflexivity.
Qed.

Lemma safeStringify_undefined_element_witness :
  safeStringify 2 (VArray [VBool true; VUndefined]) VUndefined
  = safeStringify 2 (VArray [VBool true; VNull]) VUndefined.
Proof.
  apply (safeStringify_undefined_element 2 VUndefined Hole [VBool true] []).
  cbn; lia.
Defined.

Lemma replacer_not_sensitive (redactedWord : jsvalue) (key : jsstring)
    (v : jsvalue) :
  sensitiveKey redactedWord key = false -> replacer redactedWord key v = v.
Proof. intros H; unfold replacer; rewrite H; reflexivity. Qed.

Lemma redactMember_id (redactedWord : jsvalue) (key : jsstring) (x : jsvalue) :
  sensitiveKey redactedWord key = false ->
  redactValue redactedWord x = x ->
  redactMember redactedWord key x = x.
Proof.
  intros Hk Hx; unfold redactMember; destruct (JSON.hasToJSON x); [reflexivity |].
  rewrite (replacer_not_sensitive _ _ _ Hk); exact Hx.
Qed.

Lemma mapIndex_redact_id (redactedWord : jsvalue) (l : list jsvalue) (index : N) :
  (forall x, In x l -> anySensitive redactedWord x = false ->
             redactValue redactedWord x = x) ->
  existsb (fun b : bool => b)
    (mapIndex
       (fun index x =>
          sensitiveKey redactedWord (decimal index)
          || anySensitive redactedWord x)
       index l) = false ->
  mapIndex (fun index x => redactMember redactedWord (decimal index) x)
    index l = l.
Proof.
  revert index; induction l as [|x l IH]; intros index Hx H; [reflexivity |].
  cbn [mapIndex existsb] in *.
  apply orb_false_elim in H as [H Hl]; apply orb_false_elim in H as [Hk Hs].
  rewrite (redactMember_id _ _ _ Hk (Hx x (or_introl eq_refl) Hs)).
  rewrite IH; [reflexivity | | exact Hl].
  intros y Hy; apply Hx; right; exact Hy.
Qed.

Lemma map_redact_id (redactedWord : jsvalue) (ps : list (jsstring * jsvalue)) :
  (forall p, In p ps -> anySensitive redactedWord (snd p) = false ->
             redactValue redactedWord (snd p) = snd p) ->
  existsb
    (fun p =>
       sensitiveKey redactedWord (fst p) || anySensitive redactedWord (snd p))
    ps = false ->
  List.map (fun p => (fst p, redactMember redactedWord (fst p) (snd p))) ps
  = ps.
Proof.
  induction ps as [|[k x] ps IH]; intros Hx H; [reflexivity |].
  cbn [List.map existsb fst snd] in *.
  apply orb_false_elim in H as [H Hl]; apply orb_false_elim in H as [Hk Hs].
  pose proof (Hx (k, x) (or_introl eq_refl) Hs) as E; cbn [snd] in E.
  rewrite (redactMember_id _ _ _ Hk E).
  rewrite IH; [reflexivity | | exact Hl].
  intros y Hy; apply Hx; right; exact Hy.
Qed.

Lemma redactValue_id (redactedWord v : jsvalue) :
  anySensitive redactedWord v = false -> redactValue redactedWord v = v.
Proof.
  induction v as [v IH] using jsvalue_height_ind.
  destruct v as [| | b | n | s | l | ps | f | d | z]; try reflexivity;
    intros H.
  - rewrite redactValue_array; f_equal.
    apply mapIndex_redact_id; [| exact H].
    intros x Hx; apply IH, height_element, Hx.
  - destruct (JSON.hasToJSON (VObject ps)) eqn:Hj;
      [apply redactValue_toJSON; exact Hj |].
    rewrite redactValue_object by exact Hj; f_equal.
    apply map_redact_id; [| exact H].
    intros [k x] Hx; apply IH, (height_member k), Hx.
Qed.

(** On a value without a sensitive key or index, [safeStringify] is
    [JSON.stringify] with two spaces and no replacer. *)
Theorem safeStringify_without_sensitive_key
    (fuel : nat) (obj redactedWord : jsvalue) :
  invalidRedactedWord redactedWord = false ->
  anySensitive redactedWord obj = false ->
  safeStringify fuel obj redactedWord = JSON.stringify fuel obj None 2.
Proof.
  intros Hvalid Hobj.
  rewrite safeStringify_redact by exact Hvalid.
  rewrite redactValue_id by exact Hobj; reflexivity.
Qed.

Lemma safeStringify_without_sensitive_key_witness :
  safeStringify 3
    (VObject [(u "name", VString (u "test"));
              (u "list", VArray [VNull; VBool true])])
    (VString (u "KEY"))
  = JSON.stringify 3
      (VObject [(u "name", VString (u "test"));
                (u "list", VArray [VNull; VBool true])])
      None 2.
Proof.
  apply (safeStringify_without_sensitive_key 3
           (VObject [(u "name", VString (u "test"));
                     (u "list", VArray [VNull; VBool true])])
           (VString (u "KEY")));
    reflexivity.
Defined.

Lemma redactMember_redactMember (redactedWord : jsvalue) (key : jsstring)
    (x : jsvalue) :
  redactValue redactedWord (redactValue redactedWord x)
  = redactValue redactedWord x ->
  redactMember redactedWord key (redactMember redactedWord key x)
  = redactMember redactedWord key x.
Proof.
  intros H; unfold redactMember at 2 3.
  destruct (JSON.hasToJSON x) eqn:Hx;
    [unfold redactMember; rewrite Hx; reflexivity |].
  unfold redactMember, replacer.
  destruct (sensitiveKey redactedWord key); [reflexivity |].
  rewrite hasToJSON_redactValue, Hx, H; reflexivity.
Qed.

Lemma redactValue_idempotent (redactedWord v : jsvalue) :
  redactValue redactedWord (redactValue redactedWord v)
  = redactValue redactedWord v.
Proof.
  induction v as [v IH] using jsvalue_height_ind.
  destruct (JSON.hasToJSON v) eqn:Hj.
  { rewrite (redactValue_toJSON _ v Hj); apply redactValue_toJSON, Hj. }
  destruct v as [| | b | n | s | l | ps | f | d | z]; try reflexivity.
  - rewrite !redactValue_array; f_equal.
    assert (Hl : forall x, In x l ->
                 redactValue redactedWord (redactValue redactedWord x)
                 = redactValue redactedWord x)
      by (intros x Hx; apply IH, height_element, Hx).
    clear IH Hj; generalize 0; induction l as [|x l IHl]; intros index;
      [reflexivity |].
    cbn [mapIndex]; rewrite redactMember_redactMember, IHl; [reflexivity | |].
    + intros y Hy; apply Hl; right; exact Hy.
    + apply Hl; left; reflexivity.
  - pose proof (hasToJSON_redactValue redactedWord (VObject ps)) as Hj'.
    rewrite Hj in Hj'; rewrite redactValue_object in Hj' |- * by exact Hj.
    rewrite (redactValue_object _ _ Hj'); f_equal.
    assert (Hl : forall p, In p ps ->
                 redactValue redactedWord (redactValue redactedWord (snd p))
                 = redactValue redactedWord (snd p))
      by (intros [k x] Hx; apply IH, (height_member k), Hx).
    clear IH Hj Hj'; induction ps as [|[k x] ps IHl]; [reflexivity |].
    cbn [List.map fst snd]; rewrite redactMember_redactMember, IHl;
      [reflexivity | |].
    + intros y Hy; apply Hl; right; exact Hy.
    + apply (Hl (k, x)); left; reflexivity.
Qed.

(** Redaction is idempotent: the redacted value, the one that the text
    of [safeStringify] denotes, is serialized by [safeStringify] to the
    same text. *)
Theorem safeStringify_redacted_again
    (fuel : nat) (obj redactedWord : jsvalue) :
  invalidRedactedWord redactedWord = false ->
  safeStringify fuel (redactValue redactedWord obj) redactedWord
  = safeStringify fuel obj redactedWord.
Proof.
  intros Hvalid.
  rewrite !safeStringify_redact by exact Hvalid.
  rewrite redactValue_idempotent; reflexivity.
Qed.

Lemma safeStringify_redacted_again_witness :
  safeStringify 2
    (VObject [(u "API_SECRET", VString REDACTED); (u "n", VNull)]) VUndefined
  = safeStringify 2
      (VObject [(u "API_SECRET", VString (u "x")); (u "n", VNull)]) VUndefined.
Proof.
  apply (safeStringify_redacted_again 2
           (VObject [(u "API_SECRET", VString (u "x")); (u "n", VNull)])
           VUndefined).
  reflexivity.
Defined.

(** The two built-in patterns are in upper case and the match is
    case-sensitive: without a word, a key that has no upper-case ASCII
    letter is never redacted, whatever it spells. *)
Theorem replacer_is_case_sensitive (key : jsstring) (value : jsvalue) :
  Forall (fun c => ~ 65 <= c <= 90) key ->
  sensitiveKey VUndefined key = false
  /\ replacer VUndefined key value = value.
Proof.
  intros Hkey.
  assert (H : sensitiveKey VUndefined key = false).
  { unfold sensitiveKey; rewrite orb_false_r.
    rewrite List.Forall_forall in Hkey.
    destruct (includes key (u "SECRET")) eqn:H1.
    { apply (includes_head key (u "ECRET") 83), Hkey in H1; lia. }
    destruct (includes key (u "PASSWORD")) eqn:H2; [| reflexivity].
    apply (includes_head key (u "ASSWORD") 80), Hkey in H2; lia. }
  split; [exact H | apply replacer_not_sensitive; exact H].
Qed.

Lemma replacer_is_case_sensitive_witness :
  sensitiveKey VUndefined (u "password") = false
  /\ replacer VUndefined (u "password") (VString (u "p")) = VString (u "p").
Proof.
  apply (replacer_is_case_sensitive (u "password") (VString (u "p"))).
  repeat constructor; cbn; lia.
Defined.

(** ** The predicates on the environment *)

Lemma isString_eq (v : jsvalue) (s : jsstring) :
  isString v s = true <-> v = VString s.
Proof.
  destruct v; simpl; try (split; [discriminate | discriminate]).
  rewrite eqb_eq; split; congruence.
Qed.

(** [NODE_ENV] names one environment at most: no two of [isProd],
    [isTest], [isStage] and [isUat] hold together, nor with [isDev] on a
    server; in a browser on localhost [isDev] holds whatever [NODE_ENV]
    is, so also next to one of the others. *)
Theorem environment_exclusive (g : globals) :
  (length (List.filter (fun b : bool => b)
             [isProd g; isTest g; isStage g; isUat g]) <= 1)%nat
  /\ (isServer g = true ->
      (length (List.filter (fun b : bool => b)
                 [isDev g; isProd g; isTest g; isStage g; isUat g]) <= 1)%nat)
  /\ (isBrowser g = true -> hostname g = VString (u "localhost") ->
      isDev g = true).
Proof.
  unfold isDev, isProd, isTest, isStage, isUat, isServer.
  split; [| split].
  - destruct (isString (NODE_ENV g) ENV.Production) eqn:H1,
             (isString (NODE_ENV g) ENV.Test) eqn:H2,
             (isString (NODE_ENV g) ENV.Staging) eqn:H3,
             (isString (NODE_ENV g) ENV.UAT) eqn:H4;
      cbn; try lia;
      repeat match goal with
        | H : isString _ _ = true |- _ => apply isString_eq in H
        end;
      match goal with
      | H : NODE_ENV g = _, H' : NODE_ENV g = _ |- _ =>
          rewrite H in H'; vm_compute in H'; discriminate H'
      end.
  - intros Hs; apply negb_true_iff in Hs; rewrite Hs; cbn [andb].
    rewrite orb_false_r.
    destruct (isString (NODE_ENV g) ENV.Development) eqn:H0,
             (isString (NODE_ENV g) ENV.Production) eqn:H1,
             (isString (NODE_ENV g) ENV.Test) eqn:H2,
             (isString (NODE_ENV g) ENV.Staging) eqn:H3,
             (isString (NODE_ENV g) ENV.UAT) eqn:H4;
      cbn; try lia;
      repeat match goal with
        | H : isString _ _ = true |- _ => apply isString_eq in H
        end;
      match goal with
      | H : NODE_ENV g = _, H' : NODE_ENV g = _ |- _ =>
          rewrite H in H'; vm_compute in H'; discriminate H'
      end.
  - intros -> ->; apply orb_true_r.
Qed.

Lemma environment_exclusive_witness :
  isDev {| processEnv := <[u "NODE_ENV" := u "production"]> ∅;
           window := Some (Some (u "localhost"));
           document := true |} = true.
Proof.
  destruct (environment_exclusive
              {| processEnv := <[u "NODE_ENV" := u "production"]> ∅;
                 window := Some (Some (u "localhost"));
                 document := true |}) as (_ & _ & H).
  apply H; reflexivity.
Defined.

(** [isSSR] and [isCSR] are complementary, and on the same globals they
    are [isServer] and [isBrowser]. *)
Theorem isSSR_isCSR (g : globals) :
  isSSR g = negb (isCSR g)
  /\ isSSR g = isServer g
  /\ isCSR g = isBrowser g.
Proof.
  unfold isSSR, isCSR, isServer, isBrowser.
  destruct (windowDefined g), (document g); repeat split.
Qed.

(** ** JSON.parse after JSON.stringify *)

(** *** Numbers *)

Lemma nzhead_not_D0 (d d' : Decimal.uint) : Decimal.nzhead d <> Decimal.D0 d'.
Proof. induction d; simpl; congruence. Qed.

Lemma to_uint_head (p : positive) (d : Decimal.uint) :
  Pos.to_uint p <> Decimal.D0 d.
Proof.
  intros H.
  pose proof (DecimalPos.Unsigned.to_of d) as Hto.
  assert (Hof : Pos.of_uint d = N.pos p).
  { rewrite <- (DecimalPos.Unsigned.of_to p), H; reflexivity. }
  rewrite Hof in Hto; cbn [N.to_uint] in Hto; rewrite H in Hto.
  unfold Decimal.unorm in Hto.
  destruct (Decimal.nzhead d) eqn:Hnz;
    try (symmetry in Hto; rewrite <- Hnz in Hto;
         exact (nzhead_not_D0 _ _ Hto)).
  injection Hto as ->.
  exact (DecimalPos.Unsigned.to_uint_nonzero p H).
Qed.

(** The decimal writing of a number has no leading zero, except ["0"]. *)
Lemma decimal_head (m : N) :
  decimal m = [48]
  \/ exists c s, decimal m = c :: s /\ c <> 48 /\ isDigit c = true.
Proof.
  destruct m as [|p]; [left; reflexivity | right].
  unfold decimal; cbn [N.to_uint].
  pose proof (to_uint_head p) as Hh.
  pose proof (DecimalPos.Unsigned.to_uint_nonnil p) as Hn.
  destruct (Pos.to_uint p) as [| d | d | d | d | d | d | d | d | d | d];
    [contradiction | exfalso; exact (Hh d eq_refl) | ..];
    cbn [digitsOfUint]; eexists _, _; (split; [reflexivity |]);
    (split; [discriminate | reflexivity]).
Qed.

Lemma jsonNumber_decimal (m : N) :
  JSON.jsonNumber (decimal m) = Some (Num.ofN m).
Proof.
  pose proof (decimal_digits m) as Hd.
  pose proof (valueOfDigits_decimal m) as Hv.
  unfold JSON.jsonNumber.
  assert (Hhead : match decimal m with
                  | [] => False
                  | c :: _ => (c =? 45) = false
                  end).
  { destruct (decimal_head m) as [-> | (c & s & -> & _ & Hc)]; [reflexivity |].
    apply isDigit_range in Hc; apply N.eqb_neq; lia. }
  assert (Hok : match decimal m with
                | [] => false
                | [_] => true
                | d :: _ => negb (d =? 48)
                end = true).
  { destruct (decimal_head m) as [-> | (c & s & -> & Hc & _)]; [reflexivity |].
    destruct s; [reflexivity |].
    apply negb_true_iff, N.eqb_neq; exact Hc. }
  destruct (decimal m) as [|c s] eqn:Hs; [contradiction |].
  rewrite Hhead, (span_all isDigit (c :: s) Hd), Hok.
  cbn [Num.exponentPart length app].
  rewrite app_nil_r; unfold Num.ofDecimal, Num.ofN.
  change (0 <=? 0 - Z.of_nat 0)%Z with true; cbv iota.
  change (10 ^ Z.to_N (0 - Z.of_nat 0)) with 1.
  rewrite Hv, N.mul_1_r; reflexivity.
Qed.

Lemma stripZeros_length (r : jsstring) :
  (length (Num.stripZeros r) <= length r)%nat.
Proof.
  induction r as [|c r IH]; simpl; [lia |].
  destruct (c =? 48); simpl; lia.
Qed.

Lemma stripZeros_spec (r : jsstring) :
  rev (Num.stripZeros r)
    ++ repeat 48 (length r - length (Num.stripZeros r))
  = rev r.
Proof.
  induction r as [|c r IH]; [reflexivity |].
  cbn [Num.stripZeros]; destruct (N.eqb_spec c 48) as [-> | Hc].
  - pose proof (stripZeros_length r) as Hlen.
    cbn [length rev].
    replace (S (length r) - length (Num.stripZeros r))%nat
      with (S (length r - length (Num.stripZeros r))) by lia.
    rewrite <- IH, <- app_assoc; f_equal.
    cbn [repeat]; apply repeat_cons.
  - rewrite Nat.sub_diag; apply app_nil_r.
Qed.

(** A natural number of 21 digits at most is written with its digits. *)
Lemma toString_natural (m : N) :
  (length (decimal m) <= 21)%nat ->
  Num.toString (Finite false m 0) = decimal m.
Proof.
  intros Hlen; unfold Num.toString.
  destruct (N.eqb_spec m 0) as [-> | Hm]; [reflexivity |].
  pose proof (stripZeros_length (rev (decimal m))) as Hs.
  pose proof (stripZeros_spec (rev (decimal m))) as Hspec.
  rewrite length_rev in Hs; rewrite length_rev, rev_involutive in Hspec.
  cbv zeta; rewrite length_rev.
  replace ((Z.of_nat (length (Num.stripZeros (rev (decimal m))))
            <=? 0 + Z.of_nat (length (decimal m)))
           && (0 + Z.of_nat (length (decimal m)) <=? 21))%Z with true
    by (symmetry; apply andb_true_intro; split; apply Z.leb_le; lia).
  cbn [app]; etransitivity; [| exact Hspec].
  f_equal; f_equal; lia.
Qed.

(** *** The lexer on white space, words and strings *)

Lemma lex_spaces (ws rest : jsstring) (out : list JSON.token) :
  Forall (fun c => JSON.isJSONWhiteSpace c = true) ws ->
  JSON.lex JSON.LStart (ws ++ rest) out = JSON.lex JSON.LStart rest out.
Proof.
  induction 1 as [|c ws Hc Hws IH]; [reflexivity |].
  cbn [app JSON.lex JSON.lexStep]; unfold JSON.lexStart; rewrite Hc; exact IH.
Qed.

Ltac eqb_false c :=
  repeat match goal with
    | |- context [c =? ?k] =>
        replace (c =? k) with false by (symmetry; apply N.eqb_neq; lia)
    end.

Lemma isWordUnit_range (c : N) :
  JSON.isWordUnit c = true ->
  48 <= c <= 57 \/ c = 45 \/ c = 43 \/ c = 46 \/ 97 <= c <= 122 \/ 65 <= c <= 90.
Proof.
  unfold JSON.isWordUnit, isDigit; intros H.
  repeat (apply orb_prop in H as [H | H]);
    try (apply andb_prop in H as [H H']); nbool; lia.
Qed.

Lemma lexStart_word (c : N) (out : list JSON.token) :
  JSON.isWordUnit c = true ->
  JSON.lexStart c out = Some (JSON.LWord [c], out).
Proof.
  intros H; pose proof (isWordUnit_range c H) as Hr.
  unfold JSON.lexStart, JSON.isJSONWhiteSpace; rewrite H.
  eqb_false c; reflexivity.
Qed.

Lemma lex_word (w rest acc : jsstring) (out : list JSON.token) :
  Forall (fun c => JSON.isWordUnit c = true) w ->
  JSON.lex (JSON.LWord acc) (w ++ rest) out
  = JSON.lex (JSON.LWord (rev w ++ acc)) rest out.
Proof.
  intros H; revert acc; induction H as [|c w Hc Hw IH]; intros acc;
    [reflexivity |].
  cbn [app JSON.lex JSON.lexStep rev]; rewrite Hc, IH, <- app_assoc.
  reflexivity.
Qed.

Lemma lex_word_end (rest acc : jsstring) (out : list JSON.token)
    (t : JSON.token) :
  endsWord rest ->
  JSON.wordToken (rev acc) = Some t ->
  JSON.lex (JSON.LWord acc) rest out = JSON.lex JSON.LStart rest (t :: out).
Proof.
  intros Hend Ht; destruct rest as [|c rest]; cbn [JSON.lex JSON.lexStep].
  - rewrite Ht; reflexivity.
  - cbn [endsWord] in Hend; rewrite Hend, Ht; reflexivity.
Qed.

(** A number or a literal name followed by something else is one
    token. *)
Lemma lex_word_token (w rest : jsstring) (out : list JSON.token)
    (t : JSON.token) :
  w <> [] ->
  Forall (fun c => JSON.isWordUnit c = true) w ->
  JSON.wordToken w = Some t ->
  endsWord rest ->
  JSON.lex JSON.LStart (w ++ rest) out = JSON.lex JSON.LStart rest (t :: out).
Proof.
  intros Hne Hw Ht Hend; destruct w as [|c w]; [contradiction |].
  pose proof (List.Forall_inv Hw) as Hc; cbv beta in Hc.
  pose proof (List.Forall_inv_tail Hw) as Hw'.
  cbn [app JSON.lex JSON.lexStep]; rewrite (lexStart_word c out Hc).
  rewrite lex_word by exact Hw'.
  apply lex_word_end; [exact Hend |].
  rewrite rev_app_distr, rev_involutive; exact Ht.
Qed.

Lemma hexDigit_spec (d : N) :
  d < 16 ->
  Num.isHexDigit (JSON.hexDigit d) = true
  /\ digitValue (JSON.hexDigit d) = d.
Proof.
  intros Hd.
  assert (H : d = 0 \/ d = 1 \/ d = 2 \/ d = 3 \/ d = 4 \/ d = 5 \/ d = 6
              \/ d = 7 \/ d = 8 \/ d = 9 \/ d = 10 \/ d = 11 \/ d = 12
              \/ d = 13 \/ d = 14 \/ d = 15) by lia.
  repeat (destruct H as [-> | H]); try subst d; split; reflexivity.
Qed.

Lemma hex4 (c : N) :
  c < 65536 ->
  ((c / 4096 mod 16 * 16 + c / 256 mod 16) * 16 + c / 16 mod 16) * 16
  + c mod 16 = c.
Proof.
  intros Hc.
  change 4096 with (16 * (16 * 16)); change 256 with (16 * 16).
  rewrite <- !N.Div0.div_div.
  pose proof (N.div_mod c 16 ltac:(lia)) as H0.
  pose proof (N.div_mod (c / 16) 16 ltac:(lia)) as H1.
  pose proof (N.div_mod (c / 16 / 16) 16 ltac:(lia)) as H2.
  pose proof (N.mod_lt c 16 ltac:(lia)) as M0.
  pose proof (N.mod_lt (c / 16) 16 ltac:(lia)) as M1.
  pose proof (N.mod_lt (c / 16 / 16) 16 ltac:(lia)) as M2.
  assert (Hq : c / 16 / 16 / 16 < 16).
  { apply N.Div0.div_lt_upper_bound.
    apply N.Div0.div_lt_upper_bound.
    apply N.Div0.div_lt_upper_bound. lia. }
  rewrite (N.mod_small _ _ Hq); lia.
Qed.

Lemma lexStep_hex (acc hex : jsstring) (d : N) (out : list JSON.token) :
  d < 16 ->
  JSON.lexStep (JSON.LUnicode acc hex) (JSON.hexDigit d) out
  = Some (if (length hex =? 3)%nat
          then JSON.LString
                 (valueOfDigits 16 (rev (JSON.hexDigit d :: hex)) :: acc)
          else JSON.LUnicode acc (JSON.hexDigit d :: hex), out).
Proof.
  intros Hd; cbn [JSON.lexStep].
  rewrite (proj1 (hexDigit_spec d Hd)).
  destruct (length hex =? 3)%nat; reflexivity.
Qed.

Lemma lex_unicode (c : N) (acc rest : jsstring) (out : list JSON.token) :
  c < 65536 ->
  JSON.lex (JSON.LString acc) (JSON.unicodeEscape c ++ rest) out
  = JSON.lex (JSON.LString (c :: acc)) rest out.
Proof.
  intros Hc; unfold JSON.unicodeEscape.
  assert (H3 : c / 4096 mod 16 < 16) by (apply N.mod_lt; lia).
  assert (H2 : c / 256 mod 16 < 16) by (apply N.mod_lt; lia).
  assert (H1 : c / 16 mod 16 < 16) by (apply N.mod_lt; lia).
  assert (H0 : c mod 16 < 16) by (apply N.mod_lt; lia).
  change (u "\u") with [92; 117].
  cbn [app JSON.lex].
  change (JSON.lexStep (JSON.LString acc) 92 out)
    with (Some (JSON.LEscape acc, out)); cbv iota beta.
  change (JSON.lexStep (JSON.LEscape acc) 117 out)
    with (Some (JSON.LUnicode acc [], out)); cbv iota beta.
  rewrite (lexStep_hex _ _ _ _ H3); cbn [length Nat.eqb]; cbv iota beta.
  rewrite (lexStep_hex _ _ _ _ H2); cbn [length Nat.eqb]; cbv iota beta.
  rewrite (lexStep_hex _ _ _ _ H1); cbn [length Nat.eqb]; cbv iota beta.
  rewrite (lexStep_hex _ _ _ _ H0); cbn [length Nat.eqb]; cbv iota beta.
  unfold valueOfDigits; cbn [rev app fold_left].
  rewrite (proj2 (hexDigit_spec _ H3)), (proj2 (hexDigit_spec _ H2)),
    (proj2 (hexDigit_spec _ H1)), (proj2 (hexDigit_spec _ H0)).
  rewrite N.mul_0_l, N.add_0_l, (hex4 c Hc).
  reflexivity.
Qed.

Lemma lex_literal_unit (c : N) (acc rest : jsstring) (out : list JSON.token) :
  32 <= c -> c <> 34 -> c <> 92 ->
  JSON.lex (JSON.LString acc) (c :: rest) out
  = JSON.lex (JSON.LString (c :: acc)) rest out.
Proof.
  intros H1 H2 H3; cbn [JSON.lex JSON.lexStep].
  eqb_false c.
  replace (c <? 32) with false by (symmetry; apply N.ltb_ge; lia).
  reflexivity.
Qed.

Lemma lex_quoteUnit (c : N) (acc rest : jsstring) (out : list JSON.token) :
  c < 65536 ->
  JSON.lex (JSON.LString acc) (JSON.quoteUnit c ++ rest) out
  = JSON.lex (JSON.LString (c :: acc)) rest out.
Proof.
  intros Hc; unfold JSON.quoteUnit.
  destruct (N.eqb_spec c 8) as [-> | ?]; [reflexivity |].
  destruct (N.eqb_spec c 9) as [-> | ?]; [reflexivity |].
  destruct (N.eqb_spec c 10) as [-> | ?]; [reflexivity |].
  destruct (N.eqb_spec c 12) as [-> | ?]; [reflexivity |].
  destruct (N.eqb_spec c 13) as [-> | ?]; [reflexivity |].
  destruct (N.eqb_spec c 34) as [-> | ?]; [reflexivity |].
  destruct (N.eqb_spec c 92) as [-> | ?]; [reflexivity |].
  destruct ((c <? 32) || JSON.isLeadingSurrogate c || JSON.isTrailingSurrogate c)
    eqn:Hesc; [apply lex_unicode; exact Hc |].
  apply orb_false_elim in Hesc as [Hesc _].
  apply orb_false_elim in Hesc as [Hesc _].
  apply lex_literal_unit; nbool; lia.
Qed.

Lemma lex_quoteUnits (n : nat) (s acc rest : jsstring) (out : list JSON.token) :
  (length s <= n)%nat ->
  Forall (fun c => c < 65536) s ->
  JSON.lex (JSON.LString acc) (JSON.quoteUnits s ++ 34 :: rest) out
  = JSON.lex JSON.LStart rest (JSON.TString (rev acc ++ s) :: out).
Proof.
  revert s acc; induction n as [|n IH]; intros s acc Hlen Hs.
  - destruct s; [| simpl in Hlen; lia].
    cbn; rewrite app_nil_r; reflexivity.
  - destruct s as [|c s]; [cbn; rewrite app_nil_r; reflexivity |].
    pose proof (List.Forall_inv Hs) as Hc; cbv beta in Hc.
    pose proof (List.Forall_inv_tail Hs) as Hs'.
    assert (Hone : JSON.lex (JSON.LString acc)
                     ((JSON.quoteUnit c ++ JSON.quoteUnits s) ++ 34 :: rest) out
                   = JSON.lex JSON.LStart rest
                       (JSON.TString (rev acc ++ c :: s) :: out)).
    { rewrite <- app_assoc, lex_quoteUnit by exact Hc.
      rewrite IH by (assumption || (simpl in Hlen; lia)).
      cbn [rev]; rewrite <- app_assoc; reflexivity. }
    cbn [JSON.quoteUnits].
    destruct (JSON.isLeadingSurrogate c) eqn:Hlead; [| exact Hone].
    destruct s as [|d s].
    + rewrite <- (app_nil_r (JSON.quoteUnit c)); exact Hone.
    + destruct (JSON.isTrailingSurrogate d) eqn:Htrail; [| exact Hone].
      pose proof (List.Forall_inv_tail Hs') as Hs''.
      unfold JSON.isLeadingSurrogate in Hlead.
      unfold JSON.isTrailingSurrogate in Htrail.
      apply andb_prop in Hlead as [? ?]; apply andb_prop in Htrail as [? ?].
      nbool.
      cbn [app]; rewrite !lex_literal_unit by lia.
      rewrite IH by (assumption || (simpl in Hlen; lia)).
      cbn [rev]; rewrite <- !app_assoc; reflexivity.
Qed.

(** A quoted string is read back as the string. *)
Lemma lex_string (s rest : jsstring) (out : list JSON.token) :
  Forall (fun c => c < 65536) s ->
  JSON.lex JSON.LStart (JSON.QuoteJSONString s ++ rest) out
  = JSON.lex JSON.LStart rest (JSON.TString s :: out).
Proof.
  intros Hs; unfold JSON.QuoteJSONString.
  cbn [app JSON.lex JSON.lexStep]; rewrite <- app_assoc.
  change (JSON.lexStart 34 out) with (Some (JSON.LString [], out)).
  cbn [app]; apply (lex_quoteUnits (length s)); [lia | exact Hs].
Qed.

(** *** The lexer on the text of a value *)

Lemma lex_punctuation (rest : jsstring) (out : list JSON.token) :
  JSON.lex JSON.LStart (123 :: rest) out
    = JSON.lex JSON.LStart rest (JSON.TLBrace :: out)
  /\ JSON.lex JSON.LStart (125 :: rest) out
     = JSON.lex JSON.LStart rest (JSON.TRBrace :: out)
  /\ JSON.lex JSON.LStart (91 :: rest) out
     = JSON.lex JSON.LStart rest (JSON.TLBracket :: out)
  /\ JSON.lex JSON.LStart (93 :: rest) out
     = JSON.lex JSON.LStart rest (JSON.TRBracket :: out)
  /\ JSON.lex JSON.LStart (58 :: rest) out
     = JSON.lex JSON.LStart rest (JSON.TColon :: out)
  /\ JSON.lex JSON.LStart (44 :: rest) out
     = JSON.lex JSON.LStart rest (JSON.TComma :: out).
Proof. repeat split. Qed.

Lemma blank_app (a b : jsstring) : blank a -> blank b -> blank (a ++ b).
Proof. apply Forall_app_2. Qed.

Lemma blank_gap : blank (u "  ").
Proof. repeat constructor. Qed.

Lemma blank_line (indent : jsstring) : blank indent -> blank (10 :: indent).
Proof. intros H; constructor; [reflexivity | exact H]. Qed.

Lemma digit_word (s : jsstring) :
  Forall (fun c => isDigit c = true) s ->
  Forall (fun c => JSON.isWordUnit c = true) s.
Proof.
  apply List.Forall_impl; intros c H; unfold JSON.isWordUnit; rewrite H.
  reflexivity.
Qed.

Lemma wordToken_decimal (m : N) :
  JSON.wordToken (decimal m) = Some (JSON.TNumber (Num.ofN m)).
Proof.
  unfold JSON.wordToken.
  assert (H : forall l w, 97 <= l -> eqb (decimal m) (l :: w) = false).
  { intros l w Hl.
    destruct (decimal_head m) as [-> | (c & s & -> & _ & Hc)]; cbn [eqb].
    - replace (48 =? l) with false by (symmetry; apply N.eqb_neq; lia).
      reflexivity.
    - apply isDigit_range in Hc.
      replace (c =? l) with false by (symmetry; apply N.eqb_neq; lia).
      reflexivity. }
  change (u "true") with (116 :: u "rue").
  change (u "false") with (102 :: u "alse").
  change (u "null") with (110 :: u "ull").
  rewrite (H 116 (u "rue")), (H 102 (u "alse")), (H 110 (u "ull")) by lia.
  rewrite jsonNumber_decimal; reflexivity.
Qed.

Lemma plain_number (n : number) :
  plain (VNumber n) = true ->
  exists m, n = Finite false m 0 /\ (length (decimal m) <= 21)%nat.
Proof.
  destruct n as [| neg | [|] m [| p | p]]; try discriminate.
  cbn [plain]; intros H; apply Nat.leb_le in H; eauto.
Qed.

Lemma lex_separator (indent rest : jsstring) (out : list JSON.token) :
  blank indent ->
  JSON.lex JSON.LStart ((u "," ++ [10] ++ indent) ++ rest) out
  = JSON.lex JSON.LStart rest (JSON.TComma :: out).
Proof.
  intros H.
  change ((u "," ++ [10] ++ indent) ++ rest) with (44 :: (10 :: indent) ++ rest).
  rewrite (proj2 (proj2 (proj2 (proj2 (proj2 (lex_punctuation _ _)))))).
  apply lex_spaces, blank_line, H.
Qed.

Lemma plain_not_omitted (v : jsvalue) : plain v = true -> omitted v = false.
Proof. destruct v; (discriminate || reflexivity). Qed.

Section LexSerialized.

Variable rec : jsstring -> jsstring -> jsvalue -> JSON.outcome JSON.serialized.

Hypothesis Hrec :
  forall v indent key text rest out,
    plain v = true -> blank indent ->
    rec indent key v = Some (Return (Some text)) ->
    endsWord rest ->
    JSON.lex JSON.LStart (text ++ rest) out
    = JSON.lex JSON.LStart rest (rev (tokens v) ++ out).

Hypothesis Hundefined :
  forall indent key v,
    rec indent key v = Some (Return None) -> omitted v = true.

Lemma lex_items (indent : jsstring) (elements : list jsvalue) :
  blank indent ->
  forallb plain elements = true ->
  forall index partial,
    JSON.items rec indent index elements = Some (Return partial) ->
    length partial = length elements
    /\ forall rest out,
         endsWord rest ->
         JSON.lex JSON.LStart
           (join partial (u "," ++ [10] ++ indent) ++ rest) out
         = JSON.lex JSON.LStart rest
             (rev (sepTokens (List.map tokens elements)) ++ out).
Proof.
  intros Hind; induction elements as [|x l IH]; intros Hplain index partial.
  - intros H; injection H as <-; split; [reflexivity | reflexivity].
  - cbn [forallb] in Hplain; apply andb_prop in Hplain as [Hx Hl].
    cbn [JSON.items].
    destruct (rec indent (decimal index) x) as [[[str |] | e] |] eqn:Hstr;
      [| apply Hundefined in Hstr;
         rewrite (plain_not_omitted x Hx) in Hstr; discriminate Hstr
       | discriminate | discriminate].
    cbn [JSON.andThen].
    destruct (JSON.items rec indent (index + 1) l)
      as [[partial' | e] |] eqn:Hitems; cbn [JSON.andThen];
      try discriminate.
    intros H; injection H as <-.
    destruct (IH Hl _ _ Hitems) as [Hlen Hlex].
    split; [cbn [length]; congruence |].
    intros rest out Hend.
    destruct l as [|y l].
    + destruct partial'; [| discriminate Hlen].
      cbn [join List.map sepTokens].
      apply (Hrec x indent (decimal index)); assumption.
    + destruct partial' as [|p partial']; [discriminate Hlen |].
      change (join (str :: p :: partial') (u "," ++ [10] ++ indent))
        with (str ++ (u "," ++ [10] ++ indent)
                  ++ join (p :: partial') (u "," ++ [10] ++ indent)).
      rewrite <- !app_assoc.
      rewrite (Hrec x indent (decimal index)); [| assumption ..| reflexivity].
      change (u "," ++ [10] ++ indent ++ join (p :: partial') (u "," ++ [10] ++ indent) ++ rest)
        with (44 :: (10 :: indent)
                ++ join (p :: partial') (u "," ++ [10] ++ indent) ++ rest).
      rewrite (proj2 (proj2 (proj2 (proj2 (proj2 (lex_punctuation _ _)))))).
      rewrite lex_spaces by (apply blank_line; exact Hind).
      rewrite Hlex by exact Hend.
      change (sepTokens (List.map tokens (x :: y :: l)))
        with (tokens x ++ JSON.TComma :: sepTokens (List.map tokens (y :: l))).
      rewrite rev_app_distr; cbn [rev]; rewrite <- !app_assoc; reflexivity.
Qed.

Lemma lex_members (indent : jsstring) (properties : list (jsstring * jsvalue)) :
  blank indent ->
  forallb
    (fun p =>
       forallb (fun c => c <? 65536) (fst p)
       && negb (JSON.isArrayIndex (fst p))
       && plain (snd p))
    properties = true ->
  forall partial,
    JSON.members (u "  ") rec indent properties = Some (Return partial) ->
    length partial = length properties
    /\ forall rest out,
         endsWord rest ->
         JSON.lex JSON.LStart
           (join partial (u "," ++ [10] ++ indent) ++ rest) out
         = JSON.lex JSON.LStart rest
             (rev (sepTokens
                     (List.map
                        (fun p =>
                           JSON.TString (fst p) :: JSON.TColon :: tokens (snd p))
                        properties)) ++ out).
Proof.
  intros Hind; induction properties as [|[k x] l IH]; intros Hplain partial.
  - intros H; injection H as <-; split; reflexivity.
  - cbn [forallb fst snd] in Hplain; apply andb_prop in Hplain as [Hkx Hl].
    apply andb_prop in Hkx as [Hk Hx]; apply andb_prop in Hk as [Hk _].
    rewrite forallb_forall in Hk.
    assert (Hk16 : Forall (fun c => c < 65536) k).
    { apply List.Forall_forall; intros c Hc; apply N.ltb_lt, Hk, Hc. }
    cbn [JSON.members].
    destruct (rec indent k x) as [[[str |] | e] |] eqn:Hstr;
      [| apply Hundefined in Hstr;
         rewrite (plain_not_omitted x Hx) in Hstr; discriminate Hstr
       | discriminate | discriminate].
    cbn [JSON.andThen].
    destruct (JSON.members (u "  ") rec indent l)
      as [[partial' | e] |] eqn:Hmem; cbn [JSON.andThen];
      try discriminate.
    intros H; injection H as <-.
    destruct (IH Hl _ eq_refl) as [Hlen Hlex].
    split; [cbn [length]; congruence |].
    assert (Hmember : forall rest out,
               endsWord rest ->
               JSON.lex JSON.LStart
                 ((JSON.QuoteJSONString k ++ u ":" ++ u " " ++ str) ++ rest) out
               = JSON.lex JSON.LStart rest
                   (rev (JSON.TString k :: JSON.TColon :: tokens x) ++ out)).
    { intros rest out Hend.
      rewrite <- !app_assoc, lex_string by exact Hk16.
      change (u ":" ++ u " " ++ str ++ rest) with (58 :: [32] ++ str ++ rest).
      rewrite (proj1 (proj2 (proj2 (proj2 (proj2 (lex_punctuation _ _)))))).
      rewrite lex_spaces by (constructor; [reflexivity | constructor]).
      rewrite (Hrec x indent k) by assumption.
      cbn [rev]; rewrite <- !app_assoc; reflexivity. }
    change (isEmpty (u "  ")) with false; cbv iota.
    intros rest out Hend.
    destruct l as [|[k' y] l].
    + destruct partial'; [| discriminate Hlen].
      cbn [join List.map sepTokens fst snd].
      apply Hmember; exact Hend.
    + destruct partial' as [|p partial']; [discriminate Hlen |].
      match goal with
      | |- context [join (?m :: p :: partial') ?sep] =>
          change (join (m :: p :: partial') sep)
            with (m ++ sep ++ join (p :: partial') sep)
      end.
      rewrite <- (app_assoc _ _ rest), <- (app_assoc _ _ rest).
      rewrite Hmember by reflexivity.
      rewrite lex_separator by exact Hind.
      rewrite Hlex by exact Hend.
      cbn [List.map sepTokens fst snd].
      rewrite !rev_app_distr; cbn [rev]; rewrite <- !app_assoc; reflexivity.
Qed.

Lemma lex_wrap (opening closing : N) (topen tclose : JSON.token)
    (indent : jsstring) (partial : list jsstring) (inner : list JSON.token)
    (rest : jsstring) (out : list JSON.token) :
  (forall r o, JSON.lex JSON.LStart (opening :: r) o
               = JSON.lex JSON.LStart r (topen :: o)) ->
  (forall r o, JSON.lex JSON.LStart (closing :: r) o
               = JSON.lex JSON.LStart r (tclose :: o)) ->
  JSON.isWordUnit 10 = false ->
  blank indent ->
  (partial = [] -> inner = []) ->
  (forall r o, endsWord r ->
     JSON.lex JSON.LStart
       (join partial (u "," ++ [10] ++ indent ++ u "  ") ++ r) o
     = JSON.lex JSON.LStart r (rev inner ++ o)) ->
  JSON.lex JSON.LStart
    (JSON.wrap (u "  ") [opening] [closing] indent (indent ++ u "  ") partial
       ++ rest) out
  = JSON.lex JSON.LStart rest (rev (topen :: inner ++ [tclose]) ++ out).
Proof.
  intros Hopen Hclose H10 Hind Hnil Hlex; unfold JSON.wrap.
  destruct partial as [|p partial].
  - rewrite (Hnil eq_refl); cbn [app rev].
    rewrite Hopen, Hclose; reflexivity.
  - change (isEmpty (u "  ")) with false; cbv iota zeta.
    set (sep := u "," ++ [10] ++ indent ++ u "  ") in *.
    replace (([opening] ++ [10] ++ (indent ++ u "  ")
                ++ join (p :: partial) sep ++ [10] ++ indent ++ [closing])
               ++ rest)
      with (opening
              :: (10 :: indent ++ u "  ")
                   ++ join (p :: partial) sep
                   ++ (10 :: indent) ++ closing :: rest)
      by (rewrite <- ?app_assoc; cbn [app]; rewrite <- ?app_assoc; cbn [app];
          rewrite <- ?app_assoc; reflexivity).
    rewrite Hopen.
    rewrite lex_spaces
      by (apply blank_line, blank_app; [exact Hind | exact blank_gap]).
    rewrite Hlex by exact H10.
    rewrite lex_spaces by (apply blank_line; exact Hind).
    rewrite Hclose.
    cbn [rev]; rewrite rev_app_distr; cbn [rev app].
    rewrite <- !app_assoc; reflexivity.
Qed.

Lemma lex_serializeValue (v : jsvalue) (indent key text rest : jsstring)
    (out : list JSON.token) :
  plain v = true -> blank indent ->
  JSON.serializeValue None (u "  ") rec indent key v
  = Some (Return (Some text)) ->
  endsWord rest ->
  JSON.lex JSON.LStart (text ++ rest) out
  = JSON.lex JSON.LStart rest (rev (tokens v) ++ out).
Proof.
  intros Hplain Hind Hser Hend; unfold JSON.serializeValue in Hser.
  destruct (JSON.hasToJSON v); [discriminate Hser |].
  destruct v as [| | [|] | n | s | l | ps | f | d | z]; try discriminate Hplain.
  - injection Hser as <-.
    apply lex_word_token;
      [discriminate | repeat constructor | reflexivity | exact Hend].
  - injection Hser as <-.
    apply lex_word_token;
      [discriminate | repeat constructor | reflexivity | exact Hend].
  - injection Hser as <-.
    apply lex_word_token;
      [discriminate | repeat constructor | reflexivity | exact Hend].
  - destruct (plain_number n Hplain) as (m & -> & Hm).
    cbn [Num.isFinite] in Hser; rewrite toString_natural in Hser by exact Hm.
    injection Hser as <-.
    apply lex_word_token;
      [apply decimal_not_nil | apply digit_word, decimal_digits
      | apply wordToken_decimal | exact Hend].
  - injection Hser as <-; apply lex_string.
    cbn [plain] in Hplain; rewrite forallb_forall in Hplain.
    apply List.Forall_forall; intros c Hc; apply N.ltb_lt, Hplain, Hc.
  - unfold JSON.SerializeJSONArray in Hser; cbn [plain] in Hplain.
    destruct (JSON.items rec (indent ++ u "  ") 0 l)
      as [[partial | e] |] eqn:Hitems; cbn [JSON.andThen] in Hser;
      try discriminate Hser.
    injection Hser as <-.
    destruct (lex_items (indent ++ u "  ") l
                (blank_app _ _ Hind blank_gap)
                Hplain 0 partial Hitems) as [Hlen Hlex].
    apply (lex_wrap 91 93 JSON.TLBracket JSON.TRBracket);
      try reflexivity; try assumption.
    intros ->; destruct l; [reflexivity | discriminate Hlen].
  - unfold JSON.SerializeJSONObject in Hser; cbn [plain] in Hplain.
    apply andb_prop in Hplain as [Hplain _].
    destruct (JSON.members (u "  ") rec (indent ++ u "  ") ps)
      as [[partial | e] |] eqn:Hmem; cbn [JSON.andThen] in Hser;
      try discriminate Hser.
    injection Hser as <-.
    destruct (lex_members (indent ++ u "  ") ps
                (blank_app _ _ Hind blank_gap)
                Hplain partial Hmem) as [Hlen Hlex].
    apply (lex_wrap 123 125 JSON.TLBrace JSON.TRBrace);
      try reflexivity; try assumption.
    intros ->; destruct ps; [reflexivity | discriminate Hlen].
Qed.

End LexSerialized.

(** The text of a plain value is read as its tokens. *)
Lemma lex_value (fuel : nat) (v : jsvalue) (indent key text rest : jsstring)
    (out : list JSON.token) :
  plain v = true -> blank indent ->
  JSON.SerializeJSONProperty None (u "  ") fuel indent key v
  = Some (Return (Some text)) ->
  endsWord rest ->
  JSON.lex JSON.LStart (text ++ rest) out
  = JSON.lex JSON.LStart rest (rev (tokens v) ++ out).
Proof.
  revert v indent key text rest out; induction fuel as [|fuel IH];
    intros v indent key text rest out Hplain Hind Hser Hend;
    [discriminate Hser |].
  cbn [JSON.SerializeJSONProperty] in Hser.
  apply (lex_serializeValue
           (JSON.SerializeJSONProperty None (u "  ") fuel) IH
           (SerializeJSONProperty_undefined (u "  ") fuel)
           v indent key); assumption.
Qed.

(** *** The parser on the tokens of a value *)

Lemma hasProperty_In (ps : list (jsstring * jsvalue)) (k : jsstring) :
  JSON.hasProperty ps k = true <-> In k (List.map fst ps).
Proof.
  induction ps as [|[k' x] ps IH]; cbn [JSON.hasProperty List.map fst In].
  - split; [discriminate | intros []].
  - rewrite orb_true_iff, eqb_eq, IH; reflexivity.
Qed.

Lemma distinct_NoDup (ks : list jsstring) : distinct ks = true <-> List.NoDup ks.
Proof.
  induction ks as [|k ks IH]; cbn [distinct].
  - split; [intros _; constructor | reflexivity].
  - rewrite andb_true_iff, negb_true_iff, IH; split.
    + intros [Hk Hks]; constructor; [| exact Hks].
      intros Hin; apply not_true_iff_false in Hk; apply Hk.
      apply existsb_exists; exists k; split; [exact Hin | apply eqb_eq; reflexivity].
    + intros H; inversion H as [|? ? Hk Hks]; subst; split; [| exact Hks].
      apply not_true_iff_false; intros Hex.
      apply existsb_exists in Hex as (k' & Hin & Heq).
      apply eqb_eq in Heq; subst k'; exact (Hk Hin).
Qed.

(** A new key that is not an array index is enumerated last. *)
Lemma CreateDataProperty_new (ps : list (jsstring * jsvalue)) (k : jsstring)
    (v : jsvalue) :
  ~ In k (List.map fst ps) -> JSON.isArrayIndex k = false ->
  JSON.CreateDataProperty ps k v = ps ++ [(k, v)].
Proof.
  intros Hin Hindex; unfold JSON.CreateDataProperty.
  destruct (JSON.hasProperty ps k) eqn:Hhas;
    [apply hasProperty_In in Hhas; contradiction |].
  rewrite Hindex; reflexivity.
Qed.

Lemma sepTokens_cons (ts a : list JSON.token) (ls : list (list JSON.token)) :
  sepTokens (ts :: a :: ls) = ts ++ JSON.TComma :: sepTokens (a :: ls).
Proof. reflexivity. Qed.

Section ParseTokens.

Variable P : jsvalue -> Prop.
Hypothesis HP :
  forall v, P v ->
    forall mayClose stack rest,
      JSON.parseTokens (JSON.PValue mayClose) stack (tokens v ++ rest)
      = JSON.parseTokens (fst (JSON.complete v stack))
          (snd (JSON.complete v stack)) rest.

Lemma parse_elements (l : list jsvalue) :
  l <> [] -> Forall P l ->
  forall mayClose es stack rest,
    JSON.parseTokens (JSON.PValue mayClose) (JSON.FArray es :: stack)
      (sepTokens (List.map tokens l) ++ rest)
    = JSON.parseTokens JSON.PAfter (JSON.FArray (rev l ++ es) :: stack) rest.
Proof.
  induction l as [|x l IH]; [intros H; contradiction H; reflexivity |].
  intros _ Hl mayClose es stack rest.
  pose proof (List.Forall_inv Hl) as Hx.
  pose proof (List.Forall_inv_tail Hl) as Hl'.
  destruct l as [|y l].
  - cbn [List.map sepTokens rev app].
    rewrite (HP x Hx); reflexivity.
  - change (sepTokens (List.map tokens (x :: y :: l)))
      with (tokens x ++ JSON.TComma :: sepTokens (List.map tokens (y :: l))).
    rewrite <- app_assoc, (HP x Hx).
    cbn [JSON.complete fst snd app JSON.parseTokens JSON.parseStep].
    rewrite (IH ltac:(discriminate) Hl').
    cbn [rev]; rewrite <- !app_assoc; reflexivity.
Qed.

Lemma parse_members (l : list (jsstring * jsvalue)) :
  l <> [] -> Forall (fun p => P (snd p)) l ->
  Forall (fun p => JSON.isArrayIndex (fst p) = false) l ->
  forall mayClose ps k0 stack rest,
    List.NoDup (List.map fst (ps ++ l)) ->
    exists k,
      JSON.parseTokens (JSON.PKey mayClose) (JSON.FObject ps k0 :: stack)
        (sepTokens
           (List.map
              (fun p => JSON.TString (fst p) :: JSON.TColon :: tokens (snd p))
              l) ++ rest)
      = JSON.parseTokens JSON.PAfter (JSON.FObject (ps ++ l) k :: stack) rest.
Proof.
  induction l as [|[k x] l IH]; [intros H; contradiction H; reflexivity |].
  intros _ Hl Hindex mayClose ps k0 stack rest Hdup.
  pose proof (List.Forall_inv Hl) as Hx; cbn [snd] in Hx.
  pose proof (List.Forall_inv_tail Hl) as Hl'.
  pose proof (List.Forall_inv Hindex) as Hk; cbn [fst] in Hk.
  pose proof (List.Forall_inv_tail Hindex) as Hindex'.
  assert (Hnew : ~ In k (List.map fst ps)).
  { rewrite map_app in Hdup; cbn [List.map fst] in Hdup.
    apply List.NoDup_remove_2 in Hdup.
    intros Hin; apply Hdup, in_or_app; left; exact Hin. }
  destruct l as [|[k' y] l].
  - exists k.
    cbn [List.map sepTokens fst snd app JSON.parseTokens JSON.parseStep].
    rewrite (HP x Hx).
    cbn [JSON.complete fst snd].
    rewrite CreateDataProperty_new by assumption; reflexivity.
  - destruct (IH ltac:(discriminate) Hl' Hindex' false (ps ++ [(k, x)]) k stack rest)
      as [k1 Hk1].
    { rewrite <- app_assoc; exact Hdup. }
    exists k1.
    cbn [List.map fst snd] in *; rewrite sepTokens_cons.
    cbn [app JSON.parseTokens JSON.parseStep].
    rewrite <- app_assoc, (HP x Hx).
    cbn [JSON.complete fst snd app JSON.parseTokens JSON.parseStep].
    rewrite CreateDataProperty_new by assumption.
    rewrite Hk1, <- app_assoc; reflexivity.
Qed.

End ParseTokens.

(** The tokens of a plain value are parsed to the value. *)
Lemma parse_tokens (v : jsvalue) :
  plain v = true ->
  forall mayClose stack rest,
    JSON.parseTokens (JSON.PValue mayClose) stack (tokens v ++ rest)
    = JSON.parseTokens (fst (JSON.complete v stack))
        (snd (JSON.complete v stack)) rest.
Proof.
  induction v as [v IH] using jsvalue_height_ind.
  intros Hplain mayClose stack rest.
  destruct v as [| | [|] | n | s | l | ps | f | d | z]; try discriminate Hplain;
    try (cbn [tokens app JSON.parseTokens JSON.parseStep];
         destruct (JSON.complete _ stack); reflexivity).
  - cbn [plain] in Hplain; rewrite forallb_forall in Hplain.
    cbn [tokens app JSON.parseTokens JSON.parseStep].
    destruct l as [|x l];
      [cbn [List.map sepTokens app JSON.parseTokens JSON.parseStep JSON.close rev];
       destruct (JSON.complete _ stack); reflexivity |].
    assert (HP : forall y, plain y = true /\ In y (x :: l) ->
              forall mayClose stack rest,
                JSON.parseTokens (JSON.PValue mayClose) stack (tokens y ++ rest)
                = JSON.parseTokens (fst (JSON.complete y stack))
                    (snd (JSON.complete y stack)) rest).
    { intros y [Hy Hin]; apply IH; [apply height_element, Hin | exact Hy]. }
    rewrite <- app_assoc.
    rewrite (parse_elements _ HP (x :: l)).
    + cbn [app JSON.parseTokens JSON.parseStep JSON.close].
      rewrite app_nil_r, rev_involutive.
      destruct (JSON.complete _ stack); reflexivity.
    + discriminate.
    + apply List.Forall_forall; intros y Hy; split; [apply Hplain, Hy | exact Hy].
  - cbn [plain] in Hplain; apply andb_prop in Hplain as [Hplain Hdup].
    rewrite forallb_forall in Hplain; apply distinct_NoDup in Hdup.
    cbn [tokens app JSON.parseTokens JSON.parseStep].
    destruct ps as [|p ps];
      [cbn [List.map sepTokens app JSON.parseTokens JSON.parseStep JSON.close];
       destruct (JSON.complete _ stack); reflexivity |].
    assert (HP : forall y,
              plain y = true /\ (exists k, In (k, y) (p :: ps)) ->
              forall mayClose stack rest,
                JSON.parseTokens (JSON.PValue mayClose) stack (tokens y ++ rest)
                = JSON.parseTokens (fst (JSON.complete y stack))
                    (snd (JSON.complete y stack)) rest).
    { intros y [Hy [k Hin]]; apply IH; [apply (height_member k), Hin | exact Hy]. }
    rewrite <- app_assoc.
    destruct (parse_members _ HP (p :: ps)) with (mayClose := true)
                (ps := @nil (jsstring * jsvalue))
                (k0 := @nil N) (stack := stack) (rest := [JSON.TRBrace] ++ rest)
      as [k Hk].
    + discriminate.
    + apply List.Forall_forall; intros [k y] Hq; split.
      * apply Hplain in Hq; apply andb_prop in Hq as [_ Hq]; exact Hq.
      * exists k; exact Hq.
    + apply List.Forall_forall; intros q Hq.
      apply Hplain in Hq; apply andb_prop in Hq as [Hq _].
      apply andb_prop in Hq as [_ Hq]; apply negb_true_iff, Hq.
    + exact Hdup.
    + rewrite Hk.
      cbn [app JSON.parseTokens JSON.parseStep JSON.close].
      destruct (JSON.complete _ stack); reflexivity.
Qed.

(** *** The text of JSON.stringify read by JSON.parse *)

Lemma parse_stringify (fuel : nat) (v : jsvalue) (text : jsstring) :
  plain v = true ->
  JSON.stringify fuel v None 2 = Some (Return (VString text)) ->
  JSON.parse text = Return v.
Proof.
  intros Hplain; unfold JSON.stringify.
  change (repeat 32 (N.to_nat (N.min 10 2))) with (u "  ").
  destruct (JSON.SerializeJSONProperty None (u "  ") fuel [] [] v)
    as [[[str |] | e] |] eqn:Hser; cbn [JSON.andThen]; try discriminate.
  intros H; injection H as <-.
  pose proof (lex_value fuel v [] [] str [] [] Hplain
                (List.Forall_nil _) Hser I) as Hlex.
  pose proof (parse_tokens v Hplain false [] []) as Hparse.
  rewrite !app_nil_r in Hlex, Hparse.
  unfold JSON.parse; rewrite Hlex; cbn [JSON.lex].
  rewrite (app_nil_r (rev (tokens v))), rev_involutive, Hparse; reflexivity.
Qed.

(** The text of an array is in brackets and the text of an object in
    braces. *)
Lemma wrap_ends (gap : jsstring) (opening closing : N)
    (stepback indent : jsstring) (partial : list jsstring) :
  exists middle,
    JSON.wrap gap [opening] [closing] stepback indent partial
    = opening :: middle ++ [closing].
Proof.
  unfold JSON.wrap; destruct partial as [|p partial];
    [exists []; reflexivity |].
  destruct (isEmpty gap); cbv iota.
  - exists (join (p :: partial) (u ",")); reflexivity.
  - exists ([10] ++ indent
              ++ join (p :: partial) (u "," ++ [10] ++ indent)
              ++ [10] ++ stepback).
    cbn [app]; rewrite <- !app_assoc; reflexivity.
Qed.

Lemma looksLikeJSON_ends (opening closing : N) (middle : jsstring) :
  (opening = 123 /\ closing = 125) \/ (opening = 91 /\ closing = 93) ->
  looksLikeJSON (opening :: middle ++ [closing]) = true.
Proof.
  intros H; unfold looksLikeJSON, endsWith.
  change (opening :: middle ++ [closing])
    with ((opening :: middle) ++ [closing]).
  rewrite rev_app_distr.
  destruct H as [[-> ->] | [-> ->]]; reflexivity.
Qed.

Lemma stringify_looksLikeJSON (fuel : nat) (v : jsvalue) (text : jsstring) :
  kindOf v <> None ->
  JSON.stringify fuel v None 2 = Some (Return (VString text)) ->
  looksLikeJSON text = true.
Proof.
  intros Hkind; unfold JSON.stringify.
  set (gap := repeat 32 (N.to_nat (N.min 10 2))).
  destruct fuel as [|fuel]; [discriminate |].
  cbn [JSON.SerializeJSONProperty]; unfold JSON.serializeValue.
  destruct (JSON.hasToJSON v); [discriminate |].
  destruct v as [| | b | n | s | l | ps | f | d | z];
    try (contradiction Hkind; reflexivity).
  - unfold JSON.SerializeJSONArray.
    destruct (JSON.items _ _ _ _) as [[partial | e] |]; cbn [JSON.andThen];
      try discriminate.
    match goal with
    | |- context [JSON.wrap ?g ?o ?c ?s ?i ?p] =>
        change (JSON.wrap g o c s i p) with (JSON.wrap g [91] [93] s i p);
        destruct (wrap_ends g 91 93 s i p) as [middle ->]
    end.
    intros H; injection H as <-.
    apply looksLikeJSON_ends; right; split; reflexivity.
  - unfold JSON.SerializeJSONObject.
    destruct (JSON.members _ _ _ _) as [[partial | e] |]; cbn [JSON.andThen];
      try discriminate.
    match goal with
    | |- context [JSON.wrap ?g ?o ?c ?s ?i ?p] =>
        change (JSON.wrap g o c s i p) with (JSON.wrap g [123] [125] s i p);
        destruct (wrap_ends g 123 125 s i p) as [middle ->]
    end.
    intros H; injection H as <-.
    apply looksLikeJSON_ends; left; split; reflexivity.
Qed.

Lemma kindOf_redactValue (redactedWord v : jsvalue) :
  kindOf (redactValue redactedWord v) = kindOf v.
Proof.
  destruct v as [| | b | n | s | l | ps | f | d | z]; try reflexivity.
  destruct (JSON.hasToJSON (VObject ps)) eqn:H;
    [rewrite redactValue_toJSON | rewrite redactValue_object];
    trivial.
Qed.

Lemma safeStringify_text (fuel : nat) (obj redactedWord : jsvalue)
    (text : jsstring) :
  safeStringify fuel obj redactedWord = Some (Return (VString text)) ->
  JSON.stringify fuel (redactValue redactedWord obj) None 2
  = Some (Return (VString text)).
Proof.
  intros H.
  destruct (invalidRedactedWord redactedWord) eqn:Hvalid;
    [rewrite safeStringify_invalid in H by exact Hvalid; discriminate H |].
  rewrite safeStringify_redact in H by exact Hvalid; exact H.
Qed.

(** A plain value has no function in it, so no BigInt and no [toJSON]
    method. *)
Lemma plain_serializable (v : jsvalue) :
  plain v = true -> serializable v = true.
Proof.
  induction v as [v IH] using jsvalue_height_ind.
  destruct v as [| | b | n | s | l | ps | f | d | z]; try reflexivity;
    try discriminate; intros H; cbn [plain serializable] in *.
  - cbn [JSON.hasToJSON negb andb].
    rewrite forallb_forall in H |- *; intros x Hx.
    apply IH; [apply height_element, Hx | apply H, Hx].
  - apply andb_prop in H as [H _]; rewrite forallb_forall in H.
    apply andb_true_intro; split.
    + apply negb_true_iff; cbn [JSON.hasToJSON].
      destruct (existsb _ ps) eqn:E; [| reflexivity].
      apply existsb_exists in E as ([k x] & Hin & E); cbn [fst snd] in E.
      apply andb_prop in E as [_ E].
      specialize (H _ Hin); cbn [fst snd] in H.
      apply andb_prop in H as [_ H].
      destruct x; discriminate.
    + rewrite forallb_forall; intros [k x] Hx; cbn [snd].
      specialize (H _ Hx); cbn [fst snd] in H.
      apply andb_prop in H as [_ H].
      apply IH; [apply (height_member k), Hx | exact H].
Qed.

(** What [JSON.parse] reads in the text that [safeStringify]
    returns is the value with every property under a sensitive key and
    every element at a sensitive index replaced by the marker: for a
    valid [redactedWord] and a value whose redacted form is plain (no
    [undefined], natural numbers, distinct keys that are not array
    indices), the text exists and is parsed to that form. *)
Theorem safeStringify_parse (fuel : nat) (obj redactedWord : jsvalue) :
  invalidRedactedWord redactedWord = false ->
  plain (redactValue redactedWord obj) = true ->
  (height obj < fuel)%nat ->
  exists text,
    safeStringify fuel obj redactedWord = Some (Return (VString text))
    /\ JSON.parse text = Return (redactValue redactedWord obj).
Proof.
  intros Hvalid Hplain Hfuel.
  destruct (safeStringify_string fuel obj redactedWord Hvalid) as [text Htext];
    [apply plain_serializable; exact Hplain
    | rewrite <- (omitted_redactValue redactedWord);
      apply plain_not_omitted; exact Hplain
    | exact Hfuel |].
  exists text; split; [exact Htext |].
  apply (parse_stringify fuel); [exact Hplain |].
  apply safeStringify_text; exact Htext.
Qed.

Lemma safeStringify_parse_witness :
  exists text,
    safeStringify 3
      (VObject [(u "name", VString (u "test"));
                (u "API_SECRET", VString (u "hidden"));
                (u "ports", VArray [VNumber (Num.ofN 80); VNull])])
      VUndefined
    = Some (Return (VString text))
    /\ JSON.parse text
       = Return
           (redactValue VUndefined
              (VObject [(u "name", VString (u "test"));
                        (u "API_SECRET", VString (u "hidden"));
                        (u "ports", VArray [VNumber (Num.ofN 80); VNull])])).
Proof.
  apply (safeStringify_parse 3
           (VObject [(u "name", VString (u "test"));
                     (u "API_SECRET", VString (u "hidden"));
                     (u "ports", VArray [VNumber (Num.ofN 80); VNull])])
           VUndefined).
  - reflexivity.
  - vm_compute; reflexivity.
  - cbn; lia.
Defined.

(** [env] reads back what [safeStringify] wrote: when a variable
    holds the text that [safeStringify] returned for an array or an
    object whose redacted form is plain, [env] returns that redacted
    form, whatever the default. *)
Theorem env_of_safeStringify
    (process_env : gmap jsstring jsstring) (key text : jsstring)
    (fuel : nat) (obj redactedWord defaultValue : jsvalue) :
  key <> u "" ->
  kindOf obj <> None ->
  plain (redactValue redactedWord obj) = true ->
  safeStringify fuel obj redactedWord = Some (Return (VString text)) ->
  process_env !! key = Some text ->
  env process_env key defaultValue = Return (redactValue redactedWord obj).
Proof.
  intros Hkey Hkind Hplain Htext Hget.
  apply safeStringify_text in Htext.
  assert (Hj : looksLikeJSON text = true).
  { apply (stringify_looksLikeJSON fuel (redactValue redactedWord obj));
      [rewrite kindOf_redactValue; exact Hkind | exact Htext]. }
  rewrite (env_found _ _ text);
    [| exact Hkey | apply looksLikeJSON_not_empty; exact Hj | exact Hget].
  rewrite envTry_json by exact Hj.
  rewrite (parse_stringify fuel _ text Hplain Htext); reflexivity.
Qed.

Lemma env_of_safeStringify_witness :
  env
    (<[u "LOGIN" :=
         lines [u "{";
                u "  " ++ quoted "user" ++ u ": " ++ quoted "root" ++ u ",";
                u "  " ++ quoted "PASSWORD" ++ u ": " ++ quoted "[REDACTED]";
                u "}"]]> scenario)
    (u "LOGIN") VNull
  = Return
      (redactValue VUndefined
         (VObject [(u "user", VString (u "root"));
                   (u "PASSWORD", VString (u "hunter2"))])).
Proof.
  apply (env_of_safeStringify _ (u "LOGIN")
           (lines [u "{";
                   u "  " ++ quoted "user" ++ u ": " ++ quoted "root" ++ u ",";
                   u "  " ++ quoted "PASSWORD" ++ u ": " ++ quoted "[REDACTED]";
                   u "}"])
           2
           (VObject [(u "user", VString (u "root"));
                     (u "PASSWORD", VString (u "hunter2"))])
           VUndefined VNull).
  - discriminate.
  - discriminate.
  - vm_compute; reflexivity.
  - vm_compute; reflexivity.
  - vm_compute; reflexivity.
Defined.
